(** * nix-find-roots: the privileged GC-root tracer

    A shallow embedding of [src/nix-find-roots/nix-find-roots.cc] and the
    properties of it that the specification states.

    Conventions of the embedding:
    - a [fs::path] is the sequence of elements its iterators yield
      (["/"; "nix"; "store"] for [/nix/store]); comparison, [std::search],
      [operator/], [parent_path] and [filename] all work on that sequence.
      Two spellings of one path, which differ by repeated separators, are
      one value here, and [Path.to_string] gives the spelling without
      repeated separators, while [fs::path::string()] gives a path back
      as it was spelled and [std::map] keeps the spelling of the key that
      was inserted first; so what is proved of the bytes of a path holds
      when the options, the symbolic links and the [maps] files spell
      their paths without repeated separators;
    - [std::set<fs::path>] and [std::map<fs::path, std::set<fs::path>>] are
      lists kept sorted by [fs::path::compare], because the response is
      produced by iterating them;
    - the file system is a record of the calls the program makes on it; a
      call that throws [fs::filesystem_error] returns [inl errno];
    - functions that mutate a [TraceResult&] or a [Roots&] take and return
      it; a thrown exception is a [Threw] outcome that carries the state as
      mutated so far;
    - a connection has a peer, which reads the response or hangs up while
      it is written; [send] to a peer that has hung up raises [SIGPIPE],
      which ends the process;
    - the recursion of the tracer is bounded by a fuel; [None] is a call
      that ran out of it, and a file system of finite depth never does
      once the fuel is large enough. *)

From Stdlib Require Import ZArith List String Ascii Bool Lia.
From Stdlib Require Import Sorted OrdersEx RelationClasses.
Import ListNotations.

Local Open Scope string_scope.
Local Open Scope Z_scope.
Local Open Scope list_scope.

(* ================================================================= *)
(** ** Lexicographic comparison of sequences *)

Section Lexicographic.
Context {A : Type}.
Variable cmp : A -> A -> comparison.

Fixpoint lex_compare (xs ys : list A) : comparison :=
  match xs, ys with
  | [], [] => Eq
  | [], _ :: _ => Lt
  | _ :: _, [] => Gt
  | x :: xs', y :: ys' =>
      match cmp x y with
      | Eq => lex_compare xs' ys'
      | c => c
      end
  end.
End Lexicographic.

(* ================================================================= *)
(** ** Paths *)

Definition path := list string.

(** [std::string::compare]: bytewise lexicographic. *)
Definition string_compare : string -> string -> comparison :=
  String_as_OT.compare.

Module Path.

Definition root_directory : string := "/".

Definition has_root_directory (p : path) : bool :=
  match p with
  | x :: _ => String.eqb x root_directory
  | [] => false
  end.

(** On POSIX a path is absolute exactly when it has a root directory. *)
Definition is_absolute (p : path) : bool := has_root_directory p.

Definition relative_path (p : path) : path :=
  if has_root_directory p then tl p else p.

(** [path::compare]: root directory first (a path without one is
    smaller), then the relative parts element by element. *)
Definition compare (p q : path) : comparison :=
  match has_root_directory p, has_root_directory q with
  | false, true => Lt
  | true, false => Gt
  | _, _ => lex_compare string_compare (relative_path p) (relative_path q)
  end.

Definition eqb (p q : path) : bool :=
  match compare p q with Eq => true | _ => false end.

Definition has_filename (p : path) : bool :=
  match relative_path p with
  | [] => false
  | x :: r => negb (String.eqb (last r x) "")
  end.

(** The elements of [p] without the empty element that stands for a
    trailing separator. *)
Definition strip_separator (p : path) : path :=
  match relative_path p with
  | [] => p
  | x :: r => if String.eqb (last r x) "" then removelast p else p
  end.

(** [operator/]: an absolute right operand replaces the left one;
    otherwise a separator is added after a file name and the right
    operand is appended. *)
Definition append (p q : path) : path :=
  if is_absolute q then q
  else match q with
       | [] => if has_filename p then p ++ [""] else p
       | _ :: _ => strip_separator p ++ q
       end.

Definition parent_path (p : path) : path :=
  match relative_path p with
  | [] => p
  | _ :: _ => removelast p
  end.

Definition filename (p : path) : path :=
  match relative_path p with
  | [] => []
  | x :: r => if String.eqb (last r x) "" then [] else [last r x]
  end.

Fixpoint join (l : list string) : string :=
  match l with
  | [] => ""
  | [x] => x
  | x :: l' => (x ++ "/" ++ join l')%string
  end.

(** [path::string()] of a path spelled without repeated separators. *)
Definition to_string (p : path) : string :=
  if has_root_directory p then ("/" ++ join (tl p))%string else join p.

(** Splitting a string at every ['/'], empty pieces included. *)
Fixpoint split (s : string) : list string :=
  match s with
  | EmptyString => [""]
  | String c s' =>
      if Ascii.eqb c "/"%char then "" :: split s'
      else match split s' with
           | [] => [String c ""]
           | x :: r => String c x :: r
           end
  end.

Definition nonempty (s : string) : bool := negb (String.eqb s "").

Definition ends_with_separator (s : string) : bool :=
  match rev (split s) with
  | x :: _ :: _ => String.eqb x ""
  | _ => false
  end.

(** [fs::path(std::string)]: the elements of a string in the generic
    format. Runs of separators count as one; a trailing separator after
    a file name yields an empty last element. *)
Definition of_string (s : string) : path :=
  let names := filter nonempty (split s) in
  let root := match s with
              | String c _ => if Ascii.eqb c "/"%char then [root_directory] else []
              | EmptyString => []
              end in
  root ++ names ++
    (match names with
     | [] => []
     | _ :: _ => if ends_with_separator s then [""] else []
     end).

End Path.

Notation "p // q" := (Path.append p q) (at level 40, left associativity).

(** The elements of the needle equal, one by one, those at the beginning
    of the haystack. *)
Fixpoint starts_with (hay needle : path) : bool :=
  match needle, hay with
  | [], _ => true
  | _ :: _, [] => false
  | n :: needle', h :: hay' => Path.eqb [h] [n] && starts_with hay' needle'
  end.

(** [std::search(first, last, s_first, s_last)]: the position of the first
    occurrence of the needle in the haystack, or the end of the haystack
    when there is none. *)
Fixpoint search (hay needle : path) : nat :=
  if starts_with hay needle then 0%nat
  else match hay with
       | [] => 0%nat
       | _ :: hay' => S (search hay' needle)
       end.

(** [isInStore]: what the search returns is [dir.begin()]. *)
Definition isInStore (storeDir dir : path) : bool :=
  Nat.eqb (search dir storeDir) 0.

(* ================================================================= *)
(** ** Ordered containers: [std::set] and [std::map] over paths *)

Definition pathset := list path.

(** [Roots]: a mapping from a store path to the set of roots that keep it
    alive. *)
Definition Roots := list (path * pathset).

Module PathSet.

Definition empty : pathset := [].

(** [std::set::insert] / [emplace]. *)
Fixpoint insert (x : path) (s : pathset) : pathset :=
  match s with
  | [] => [x]
  | y :: s' =>
      match Path.compare x y with
      | Lt => x :: s
      | Eq => s
      | Gt => y :: insert x s'
      end
  end.

End PathSet.

Module RootsMap.

Definition empty : Roots := [].

Fixpoint find (k : path) (m : Roots) : option pathset :=
  match m with
  | [] => None
  | (k', v) :: m' => if Path.eqb k k' then Some v else find k m'
  end.

(** [m[k].insert(root)]: [operator[]] creates an empty set under a key
    that is absent. *)
Fixpoint add_root (k root : path) (m : Roots) : Roots :=
  match m with
  | [] => [(k, PathSet.insert root PathSet.empty)]
  | (k', v) :: m' =>
      match Path.compare k k' with
      | Lt => (k, PathSet.insert root PathSet.empty) :: m
      | Eq => (k', PathSet.insert root v) :: m'
      | Gt => (k', v) :: add_root k root m'
      end
  end.

(** [std::map::insert(value)]: a key that is already present keeps its
    value. *)
Fixpoint insert (kv : path * pathset) (m : Roots) : Roots :=
  match m with
  | [] => [kv]
  | (k', v) :: m' =>
      match Path.compare (fst kv) k' with
      | Lt => kv :: m
      | Eq => m
      | Gt => (k', v) :: insert kv m'
      end
  end.

(** [std::map::insert(first, last)]. *)
Definition insert_range (m : Roots) (range : Roots) : Roots :=
  fold_left (fun acc kv => insert kv acc) range m.

Definition keys (m : Roots) : list path := map fst m.

(** The root edges of a map, in iteration order. *)
Definition edges (m : Roots) : list (path * path) :=
  flat_map (fun kv => map (fun r => (fst kv, r)) (snd kv)) m.

End RootsMap.

Record TraceResult := mkTraceResult {
  storeRoots : Roots;
  deadLinks : pathset
}.

Definition emptyTraceResult : TraceResult := mkTraceResult RootsMap.empty PathSet.empty.


(* ================================================================= *)
(** ** Configuration *)

Inductive VerbosityLvl := Quiet | Verbose.

Record GlobalOpts := mkGlobalOpts {
  storeDir : path;
  stateDir : path;
  socketPath : path;
  verbosity : VerbosityLvl
}.

(** The member initialisers of [struct GlobalOpts]. *)
Definition defaultOpts : GlobalOpts :=
  mkGlobalOpts ["/"; "nix"; "store"]
               ["/"; "nix"; "var"; "nix"]
               ["/"; "nix"; "var"; "nix"; "gc-socket"; "socket"]
               Quiet.

(* ================================================================= *)
(** ** The file system as the program observes it *)

Definition errno := Z.
Definition ENOENT : errno := 2.
Definition EINTR : errno := 4.
Definition EACCES : errno := 13.

(** The result of a call that may throw [fs::filesystem_error]. *)
Definition result (A : Type) : Type := (errno + A)%type.

Definition bind {A B : Type} (r : result A) (k : A -> result B) : result B :=
  match r with
  | inl e => inl e
  | inr a => k a
  end.

Notation "'try!' x <- r ; k" := (bind r (fun x => k))
  (at level 10, x pattern, r at level 100, k at level 200).

(** [fs::file_type]. *)
Inductive file_type :=
| ft_none | ft_not_found | ft_regular | ft_directory | ft_symlink
| ft_block | ft_character | ft_fifo | ft_socket | ft_unknown.

Definition is_not_found (t : file_type) : bool :=
  match t with ft_not_found => true | _ => false end.

(** One field per call of [std::filesystem] and [std::ifstream] that the
    program makes. An iterator is the list of entries it yields and the
    error, if any, that its construction or an increment throws after
    them. Reading a file that cannot be opened yields no content. *)
Record FileSystem := mkFileSystem {
  fs_symlink_status : path -> result file_type;
  fs_read_symlink : path -> result path;
  fs_exists : path -> result bool;
  fs_is_directory : path -> result bool;
  fs_recursive_directory_iterator : path -> list path * option errno;
  fs_directory_iterator : path -> list path * option errno;
  fs_read_file : path -> string
}.

(* ================================================================= *)
(** ** The file-system tracer *)

(** How a call that mutates its [res] argument ends. *)
Inductive outcome := Returned | Threw (e : errno).

(** A [for] loop over [l] whose body may throw: the exception leaves the
    loop; [after] is what the iterator does once the entries are used up.
    [None] is a body that ran out of fuel. *)
Fixpoint for_each {A S : Type} (body : S -> A -> option (S * outcome))
    (after : outcome) (l : list A) (s : S) : option (S * outcome) :=
  match l with
  | [] => Some (s, after)
  | x :: l' =>
      match body s x with
      | None => None
      | Some (s', Returned) => for_each body after l' s'
      | Some (s', Threw e) => Some (s', Threw e)
      end
  end.

Definition iterator_end (err : option errno) : outcome :=
  match err with
  | None => Returned
  | Some e => Threw e
  end.

Section Tracer.
Variable fs : FileSystem.
Variable opts : GlobalOpts.

(** [res.storeRoots[k].insert(root)]. *)
Definition add_store_root (k root : path) (res : TraceResult) : TraceResult :=
  mkTraceResult (RootsMap.add_root k root (storeRoots res)) (deadLinks res).

(** The lambda [not_found] of the symlink case (its logging apart). *)
Definition not_found (root : path) (res : TraceResult) : TraceResult :=
  mkTraceResult (storeRoots res) (PathSet.insert root (deadLinks res)).

(** [case fs::file_type::regular], followed by [default: break]. *)
Definition regular_case (res : TraceResult) (root : path)
  : TraceResult * outcome :=
  let possibleStorePath := storeDir opts // Path.filename root in
  match fs_exists fs possibleStorePath with
  | inl e => (res, Threw e)
  | inr true => (add_store_root possibleStorePath root res, Returned)
  | inr false => (res, Returned)
  end.

(** [followPathToStore(opts, recursionsLeft, res, root, status)].
    [fuel] bounds the depth of nested calls; [None] means it ran out. *)
Fixpoint followPathToStore (fuel : nat) (recursionsLeft : Z)
    (res : TraceResult) (root : path) (status : file_type)
  : option (TraceResult * outcome) :=
  match fuel with
  | O => None
  | S fuel' =>
    if recursionsLeft <? 0 then Some (res, Returned)
    else
      match status with
      | ft_directory =>
          let '(children, err) := fs_recursive_directory_iterator fs root in
          for_each
            (fun res child =>
               match fs_symlink_status fs child with
               | inl e => Some (res, Threw e)
               | inr child_status =>
                   followPathToStore fuel' recursionsLeft res child child_status
               end)
            (iterator_end err) children res
      | ft_symlink =>
          match fs_read_symlink fs root with
          | inl e => Some (res, Threw e)
          | inr link =>
              let target := Path.parent_path root // link in
              (* the try block: [Some o] leaves the function with [o],
                 [None] leaves the try statement normally *)
              let tried : option (TraceResult * option outcome) :=
                match fs_symlink_status fs target with
                | inl _ => Some (not_found root res, None)
                | inr target_status =>
                    let res1 := if is_not_found target_status
                                then not_found root res else res in
                    if isInStore (storeDir opts) target
                    then Some (add_store_root target root res1, Some Returned)
                    else
                      match followPathToStore fuel' (recursionsLeft - 1)
                              res1 target target_status with
                      | None => None
                      | Some (res2, Returned) => Some (res2, None)
                      | Some (res2, Threw _) => Some (not_found root res2, None)
                      end
                end in
              match tried with
              | None => None
              | Some (res', Some o) => Some (res', o)
              | Some (res', None) =>
                  (* no [break]: control falls into the next case *)
                  Some (regular_case res' root)
              end
          end
      | ft_regular => Some (regular_case res root)
      | _ => Some (res, Returned)
      end
  end.

(** The overload without a status: it looks the status up and swallows
    every [fs::filesystem_error]. *)
Definition followPathToStore_from (fuel : nat) (recursionsLeft : Z)
    (res : TraceResult) (root : path) : option TraceResult :=
  match fs_symlink_status fs root with
  | inl _ => Some res
  | inr status =>
      match followPathToStore fuel recursionsLeft res root status with
      | None => None
      | Some (res', _) => Some res'
      end
  end.

Definition maxRecursionLevel : Z := 2.

Fixpoint follow_all (fuel : nat) (roots : list path) (res : TraceResult)
  : option TraceResult :=
  match roots with
  | [] => Some res
  | root :: roots' =>
      match followPathToStore_from fuel maxRecursionLevel res root with
      | None => None
      | Some res' => follow_all fuel roots' res'
      end
  end.

(** [followPathsToStore(opts, roots)]: the roots are visited in the
    order of the set. *)
Definition followPathsToStore (fuel : nat) (roots : pathset)
  : option TraceResult :=
  follow_all fuel roots emptyTraceResult.

End Tracer.

(* ================================================================= *)
(** ** The regular expressions of the program

    Each of the three expressions is a sequence of quantified character
    classes. In all of them neighbouring classes are disjoint, or the
    first is included in the second and nothing follows, so that matching
    each class as far as it goes is what the backtracking matcher of
    [std::regex] finds. *)

Inductive quantifier := One | Plus | Star.

Record atom := mkAtom {
  cls : ascii -> bool;
  quant : quantifier;
  captured : bool      (* inside the capture group of the expression *)
}.

Definition in_range (lo hi c : ascii) : bool :=
  (N_of_ascii lo <=? N_of_ascii c)%N && (N_of_ascii c <=? N_of_ascii hi)%N.

Definition is_digit (c : ascii) : bool := in_range "0" "9" c.
Definition is_lower (c : ascii) : bool := in_range "a" "z" c.
Definition is_upper (c : ascii) : bool := in_range "A" "Z" c.

Definition is_one_of (l : list ascii) (c : ascii) : bool :=
  existsb (Ascii.eqb c) l.

(** [\s]: space, and the control characters 9 to 13. *)
Definition is_space (c : ascii) : bool :=
  Ascii.eqb c " " || in_range "009" "013" c.

Definition TAB : string := String "009" "".
Definition LF : string := String "010" "".

Fixpoint take_while (p : ascii -> bool) (s : string) : string * string :=
  match s with
  | EmptyString => ("", "")
  | String c s' =>
      if p c then let '(m, r) := take_while p s' in (String c m, r)
      else ("", s)
  end.

Definition match_atom (a : atom) (s : string) : option (string * string) :=
  match quant a with
  | One =>
      match s with
      | String c s' => if cls a c then Some (String c "", s') else None
      | EmptyString => None
      end
  | Plus =>
      match take_while (cls a) s with
      | (EmptyString, _) => None
      | mr => Some mr
      end
  | Star => Some (take_while (cls a) s)
  end.

(** Matching a sequence of atoms at the beginning of [s]: the text matched,
    the text of the capture group, and what is left of [s]. *)
Fixpoint match_atoms (re : list atom) (s : string)
  : option (string * string * string) :=
  match re with
  | [] => Some ("", "", s)
  | a :: re' =>
      match match_atom a s with
      | None => None
      | Some (m, r) =>
          match match_atoms re' r with
          | None => None
          | Some (m', g, r') =>
              Some ((m ++ m')%string,
                    ((if captured a then m else "") ++ g)%string, r')
          end
      end
  end.

(** [std::regex_match]: the whole of [s] matches; the result is the
    capture group. *)
Definition regex_match (re : list atom) (s : string) : option string :=
  match match_atoms re s with
  | Some (_, g, EmptyString) => Some g
  | _ => None
  end.

(** [std::sregex_iterator]: the matches from left to right, each search
    starting where the previous match ended. [skip] counts the characters
    of the current match that are still to be passed. *)
Fixpoint regex_iterate (re : list atom) (skip : nat) (s : string) : list string :=
  match skip with
  | S skip' =>
      match s with
      | EmptyString => []
      | String _ s' => regex_iterate re skip' s'
      end
  | O =>
      match s with
      | EmptyString => []
      | String _ s' =>
          match match_atoms re s with
          | Some (String c m, _, _) =>
              String c m :: regex_iterate re (String.length m) s'
          | _ => regex_iterate re 0 s'
          end
      end
  end.

(** A string matched literally, as [quoteRegexChars] arranges. *)
Fixpoint literal (s : string) : list atom :=
  match s with
  | EmptyString => []
  | String c s' => mkAtom (Ascii.eqb c) One false :: literal s'
  end.

Definition quoteRegexChars (raw : string) : list atom := literal raw.

Definition store_name_first (c : ascii) : bool := is_digit c || is_lower c.

Definition store_name_rest (c : ascii) : bool :=
  is_digit c || is_lower c || is_upper c
  || is_one_of ["+"; "-"; "."; "_"; "?"; "="]%char c.

(** [quoteRegexChars(storeDir)] followed by a separator, one or more of
    [0-9a-z] and any number of [0-9a-zA-Z+-._?=]. *)
Definition storePathRegex (storeDir : path) : list atom :=
  quoteRegexChars (Path.to_string storeDir)
  ++ [ mkAtom (Ascii.eqb "/") One false;
       mkAtom store_name_first Plus false;
       mkAtom store_name_rest Star false ].

Definition non_space (c : ascii) : bool := negb (is_space c).

(** The expression [^\s*\S+\s+\S+\s+\S+\s+\S+\s+\S+\s+(/\S+)\s*$]. *)
Definition mapRegex : list atom :=
  [ mkAtom is_space Star false;
    mkAtom non_space Plus false; mkAtom is_space Plus false;
    mkAtom non_space Plus false; mkAtom is_space Plus false;
    mkAtom non_space Plus false; mkAtom is_space Plus false;
    mkAtom non_space Plus false; mkAtom is_space Plus false;
    mkAtom non_space Plus false; mkAtom is_space Plus false;
    mkAtom (Ascii.eqb "/") One true; mkAtom non_space Plus true;
    mkAtom is_space Star false ].

(** The expression [^\d+$]. *)
Definition digitsRegex : list atom := [ mkAtom is_digit Plus false ].

(** The lines that repeated [std::getline] calls return. *)
Fixpoint getlines (cur : string) (s : string) : list string :=
  match s with
  | EmptyString => match cur with EmptyString => [] | _ => [cur] end
  | String c s' =>
      if Ascii.eqb c "010" then cur :: getlines "" s'
      else getlines (cur ++ String c "")%string s'
  end.

(* ================================================================= *)
(** ** The runtime-root scanner *)

Section Runtime.
Variable fs : FileSystem.
Variable opts : GlobalOpts.

(** [scanFileContent]: every match of the store-path expression in the
    file becomes a key, with the file as its root. *)
Definition scanFileContent (fileToScan : path) (res : Roots) : result Roots :=
  try! present <- fs_exists fs fileToScan;
  if negb present then inr res
  else
    let content := fs_read_file fs fileToScan in
    let regex := storePathRegex (storeDir opts) in
    inr (fold_left
           (fun res i => RootsMap.add_root (Path.of_string i) fileToScan res)
           (regex_iterate regex 0 content) res).

(** [scanMapsFile]: the path field of every line of a [maps] file that
    is in the store becomes a key, with the file as its root. *)
Definition scanMapsFile (mapsFile : path) (res : Roots) : result Roots :=
  try! present <- fs_exists fs mapsFile;
  if negb present then inr res
  else
    let mappedFile := fs_read_file fs mapsFile in
    inr (fold_left
           (fun res line =>
              match regex_match mapRegex line with
              | Some m =>
                  let matchedPath := Path.of_string m in
                  if isInStore (storeDir opts) matchedPath
                  then RootsMap.add_root (Path.of_string m) mapsFile res
                  else res
              | None => res
              end)
           (getlines "" mappedFile) res).

(** The readlink probes over [pathsToConsider]; an error is logged and
    the path skipped. *)
Definition probe_links (pathsToConsider : pathset) (res : Roots) : Roots :=
  fold_left
    (fun res p =>
       match fs_read_symlink fs p with
       | inr realPath =>
           if isInStore (storeDir opts) realPath
           then RootsMap.add_root realPath p res
           else res
       | inl _ => res
       end)
    pathsToConsider res.

(** The listing of [fd]: an error other than [ENOENT] and [EACCES] is
    thrown again; the entries seen before it stay in the set. *)
Definition consider_fds (procEntry : path) (pathsToConsider : pathset)
  : result pathset :=
  let fdDir := procEntry // ["fd"] in
  let '(fdFiles, err) := fs_directory_iterator fs fdDir in
  let pathsToConsider :=
    fold_left (fun s fdFile => PathSet.insert fdFile s) fdFiles pathsToConsider in
  match err with
  | Some e =>
      if negb (e =? ENOENT) && negb (e =? EACCES) then inl e
      else inr pathsToConsider
  | None => inr pathsToConsider
  end.

(** The body of the loop over the entries of [/proc]. *)
Definition scan_process (res : Roots) (procEntry : path) : result Roots :=
  match regex_match digitsRegex (Path.to_string (Path.filename procEntry)) with
  | None => inr res
  | Some _ =>
      try! is_dir <- fs_is_directory fs procEntry;
      if negb is_dir then inr res
      else
        let pathsToConsider :=
          PathSet.insert (procEntry // ["cwd"])
            (PathSet.insert (procEntry // ["exe"]) PathSet.empty) in
        try! pathsToConsider <- consider_fds procEntry pathsToConsider;
        let res := probe_links pathsToConsider res in
        try! res <- scanFileContent (procEntry // ["environ"]) res;
        scanMapsFile (procEntry // ["maps"]) res
  end.

Fixpoint scan_processes (entries : list path) (res : Roots) : result Roots :=
  match entries with
  | [] => inr res
  | procEntry :: entries' =>
      try! res <- scan_process res procEntry;
      scan_processes entries' res
  end.

(** [getRuntimeRoots(opts)]; [inl e] is an exception that leaves it. *)
Definition getRuntimeRoots : result Roots :=
  let procDir := ["/"; "proc"] in
  try! present <- fs_exists fs procDir;
  if negb present then inr RootsMap.empty
  else
    let '(entries, err) := fs_directory_iterator fs procDir in
    try! res <- scan_processes entries RootsMap.empty;
    match err with
    | Some e => inl e
    | None =>
        try! res <- scanFileContent ["/"; "proc"; "sys"; "kernel"; "modprobe"] res;
        try! res <- scanFileContent ["/"; "proc"; "sys"; "kernel"; "fbsplash"] res;
        scanFileContent ["/"; "proc"; "sys"; "kernel"; "poweroff_cmd"] res
    end.

End Runtime.

(* ================================================================= *)
(** ** The socket server: [main] *)

(** The peer of a connection: it reads until the daemon closes the
    connection, or it hangs up when the daemon has made [n] calls of
    [send] on it. *)
Inductive peer := Stays | HangsUpAfter (n : nat).

(** The connected socket while the response is written: the bytes the
    peer has been sent and what the peer will still do; or [SIGPIPE] has
    been raised in a [send], which ended the process. *)
Inductive sock_state :=
| Connected (sent : string) (p : peer)
| Sigpipe (sent : string).

Definition sock_received (sock : sock_state) : string :=
  match sock with
  | Connected sent _ => sent
  | Sigpipe sent => sent
  end.

(** [send(remoteSocket, data, size, 0)] on a connected stream socket.
    While the peer is there, the bytes are added to what it receives.
    Once the peer has hung up, [send] fails with [EPIPE] and [SIGPIPE] is
    raised: the call has no [MSG_NOSIGNAL] and [main] leaves the signal
    at its default action, so the process ends inside the call and no
    later statement runs. What [send] returns is never looked at. *)
Definition send (remoteSocket : sock_state) (data : string) : sock_state :=
  match remoteSocket with
  | Connected sent Stays => Connected (sent ++ data) Stays
  | Connected sent (HangsUpAfter (S n)) => Connected (sent ++ data) (HangsUpAfter n)
  | Connected sent (HangsUpAfter O) => Sigpipe sent
  | Sigpipe sent => Sigpipe sent
  end.

(** The three loops of [main] that write the response. *)
Definition send_store_roots (storeRoots : Roots) (remoteSocket : sock_state)
  : sock_state :=
  fold_left
    (fun sock entry =>
       let '(rootInStore, externalRoots) := entry in
       fold_left
         (fun sock externalRoot =>
            let sock := send sock (Path.to_string rootInStore) in
            let sock := send sock TAB in
            let sock := send sock (Path.to_string externalRoot) in
            send sock LF)
         externalRoots sock)
    storeRoots remoteSocket.

Definition send_dead_links (deadLinks : pathset) (remoteSocket : sock_state)
  : sock_state :=
  fold_left
    (fun sock deadLink =>
       let sock := send sock (Path.to_string deadLink) in
       send sock LF)
    deadLinks remoteSocket.

Definition send_response (traceResult : TraceResult) (remoteSocket : sock_state)
  : sock_state :=
  let sock := send_store_roots (storeRoots traceResult) remoteSocket in
  let sock := send sock LF in
  send_dead_links (deadLinks traceResult) sock.

Definition standardRoots (opts : GlobalOpts) : pathset :=
  PathSet.insert (stateDir opts // ["gcroots"])
    (PathSet.insert (stateDir opts // ["profiles"]) PathSet.empty).

(** What the body of the accept loop does with one connection. *)
Inductive served :=
| Responded (traceResult : TraceResult) (sent : string)
    (* the response was written and the connection closed *)
| Escaped (e : errno)
    (* an exception left [getRuntimeRoots]; nothing was written *)
| Sigpiped (sent : string).
    (* the peer hung up; [SIGPIPE] ended the process after [sent] *)

(** The body of the accept loop, from [followPathsToStore] to [close],
    for a connection whose peer is [p]. *)
Definition serve_peer (p : peer) (fuel : nat) (fs : FileSystem)
    (opts : GlobalOpts) : option served :=
  match followPathsToStore fs opts fuel (standardRoots opts) with
  | None => None
  | Some traceResult =>
      match getRuntimeRoots fs opts with
      | inl e => Some (Escaped e)
      | inr runtimeRoots =>
          let traceResult :=
            mkTraceResult
              (RootsMap.insert_range (storeRoots traceResult) runtimeRoots)
              (deadLinks traceResult) in
          match send_response traceResult (Connected "" p) with
          | Connected sent _ => Some (Responded traceResult sent)
          | Sigpipe sent => Some (Sigpiped sent)
          end
      end
  end.

(** The same for a peer that reads the response to its end. *)
Definition serve (fuel : nat) (fs : FileSystem) (opts : GlobalOpts)
  : option served :=
  serve_peer Stays fuel fs opts.

Inductive signal := SIGHUP | SIGINT | SIGPIPE | SIGTERM | SIGWINCH.

(** [main] never calls [signal] or [sigaction], so every signal keeps the
    action the system gives it by default. *)
Inductive signal_action := Terminate | Ignore.

Definition default_action (s : signal) : signal_action :=
  match s with
  | SIGWINCH => Ignore
  | _ => Terminate
  end.

Inductive exit_status :=
| UncaughtError (what : string)   (* an [Error] left [main] *)
| UncaughtFilesystemError (e : errno)
| KilledBy (s : signal).

Record connection := mkConnection {
  received : string;   (* what the peer has been sent *)
  closed : bool        (* [close(remoteSocket)] was reached *)
}.

Record Daemon := mkDaemon {
  exited : option exit_status;     (* [None]: in the accept loop *)
  listening : bool;                (* [mySock] is open and listening *)
  socket_file : bool;              (* a file exists at [opts.socketPath] *)
  connections : list connection    (* latest first *)
}.

Definition die (why : exit_status) (d : Daemon) : Daemon :=
  mkDaemon (Some why) false (socket_file d) (connections d).

(** [main] up to the accept loop. [stale] tells whether a file exists at
    the socket path beforehand; the other arguments are what [socket],
    [bind] and [listen] return. *)
Definition startup (opts : GlobalOpts) (stale : bool)
    (mySock bind_ret listen_ret : Z) : Daemon :=
  if mySock =? 0
  then mkDaemon (Some (UncaughtError "Cannot create Unix domain socket"))
         false stale []
  else
    (* unlink(opts.socketPath) *)
    if bind_ret =? -1
    then mkDaemon (Some (UncaughtError "Cannot bind to socket")) false false []
    else
      if listen_ret =? -1
      then mkDaemon
             (Some (UncaughtError
                      ("cannot listen on socket " ++ Path.to_string (socketPath opts))))
             false true []
      else mkDaemon None true true [].

(** What happens to the process in the accept loop. *)
Inductive event :=
| Connection (fs : FileSystem) (p : peer)
    (* [accept] returns a connection; [fs] is the file system the scan
       observes and [p] what the peer does *)
| AcceptFailed (e : errno)       (* [accept] returns -1 *)
| Signal (s : signal).           (* a signal is delivered *)

Definition deliver (s : signal) (d : Daemon) : Daemon :=
  match default_action s with
  | Terminate => die (KilledBy s) d
  | Ignore => d
  end.

(** One turn of [while (1)]. *)
Definition step (fuel : nat) (opts : GlobalOpts) (d : Daemon) (ev : event)
  : option Daemon :=
  match exited d with
  | Some _ => Some d
  | None =>
      match ev with
      | Signal s => Some (deliver s d)
      | AcceptFailed e =>
          if e =? EINTR then Some d
          else Some (die (UncaughtError "Error accepting the connection") d)
      | Connection fs p =>
          match serve_peer p fuel fs opts with
          | None => None
          | Some (Escaped e) =>
              Some (die (UncaughtFilesystemError e)
                      (mkDaemon None (listening d) (socket_file d)
                         (mkConnection "" false :: connections d)))
          | Some (Sigpiped sent) =>
              Some (deliver SIGPIPE
                      (mkDaemon None (listening d) (socket_file d)
                         (mkConnection sent false :: connections d)))
          | Some (Responded _ sent) =>
              Some (mkDaemon None (listening d) (socket_file d)
                      (mkConnection sent true :: connections d))
          end
      end
  end.

Fixpoint run (fuel : nat) (opts : GlobalOpts) (d : Daemon) (evs : list event)
  : option Daemon :=
  match evs with
  | [] => Some d
  | ev :: evs' =>
      match step fuel opts d ev with
      | None => None
      | Some d' => run fuel opts d' evs'
      end
  end.

(* ================================================================= *)
(** ** The command line: [getopt_long] and [parseCmdLine] *)

Inductive has_arg_t := no_argument | required_argument.

(** What [getopt_long] does on a long option: store [val] through [flag]
    and return 0, or return [val]. The only flag of the table points at
    [res.verbosity]. *)
Inductive long_action := StoreVerbosity (val : VerbosityLvl) | ReturnVal (val : ascii).

Record long_option := mkOption {
  name : string;
  has_arg : has_arg_t;
  action : long_action
}.

Definition long_options : list long_option :=
  [ mkOption "verbose" no_argument (StoreVerbosity Verbose);
    mkOption "socket_path" required_argument (ReturnVal "l");
    mkOption "store_dir" required_argument (ReturnVal "s");
    mkOption "state_dir" required_argument (ReturnVal "d") ].

(** The short options that [parseCmdLine] passes to [getopt_long]. *)
Definition optstring : string := "vsl:".

(** One return of [getopt_long]. *)
Inductive getopt_return :=
| opt_char (c : ascii) (optarg : option string)
    (* an option character; [optarg] is [None] for a null pointer *)
| opt_flag (val : VerbosityLvl)   (* 0: a flag was stored *)
| opt_unknown                     (* '?' *)
| opt_undefined.
    (* a long name that is not in the table: the search runs past the
       end of the array, which has no terminating entry *)

(** Whether [c] is an option character of [s], and whether a colon
    follows it. *)
Fixpoint optstring_lookup (c : ascii) (s : string) : option bool :=
  match s with
  | EmptyString => None
  | String x s' =>
      if Ascii.eqb x c && negb (Ascii.eqb c ":")
      then Some (match s' with
                 | String y _ => Ascii.eqb y ":"
                 | EmptyString => false
                 end)
      else optstring_lookup c s'
  end.

(** The option characters of one argument [-abc]; [next] is the argument
    after it. The boolean tells whether [next] was used as [optarg]. *)
Fixpoint short_options (cluster : string) (next : option string)
  : list getopt_return * bool :=
  match cluster with
  | EmptyString => ([], false)
  | String c rest =>
      match optstring_lookup c optstring with
      | None =>
          let '(l, used) := short_options rest next in (opt_unknown :: l, used)
      | Some false =>
          let '(l, used) := short_options rest next in (opt_char c None :: l, used)
      | Some true =>
          match rest, next with
          | String _ _, _ => ([opt_char c (Some rest)], false)
          | EmptyString, Some a => ([opt_char c (Some a)], true)
          | EmptyString, None => ([opt_unknown], false)
          end
      end
  end.

Fixpoint split_at_equals (s : string) : string * option string :=
  match s with
  | EmptyString => ("", None)
  | String c s' =>
      if Ascii.eqb c "=" then ("", Some s')
      else let '(n, v) := split_at_equals s' in (String c n, v)
  end.

Definition long_return (o : long_option) (optarg : option string) : getopt_return :=
  match action o with
  | StoreVerbosity v => opt_flag v
  | ReturnVal c => opt_char c optarg
  end.

(** One argument [--name] or [--name=value]. *)
Definition long_option_step (body : string) (next : option string)
  : getopt_return * bool :=
  let '(nm, value) := split_at_equals body in
  match find (fun o => String.eqb (name o) nm) long_options with
  | None => (opt_undefined, false)
  | Some o =>
      match has_arg o, value, next with
      | no_argument, Some _, _ => (opt_unknown, false)
      | no_argument, None, _ => (long_return o None, false)
      | required_argument, Some v, _ => (long_return o (Some v), false)
      | required_argument, None, Some a => (long_return o (Some a), true)
      | required_argument, None, None => (opt_unknown, false)
      end
  end.

(** The successive returns of [getopt_long] over the arguments after
    [argv[0]], up to the -1 that ends the loop. Arguments that are not
    options are passed over; [--] ends the options. [skip] marks an
    argument already used as [optarg]. *)
Fixpoint getopt_long (args : list string) (skip : bool) : list getopt_return :=
  match args with
  | [] => []
  | arg :: rest =>
      if skip then getopt_long rest false
      else if String.eqb arg "--" then []
      else
        match arg with
        | String "-" (String "-" body) =>
            let '(r, used) := long_option_step body (hd_error rest) in
            r :: getopt_long rest used
        | String "-" (String c cluster) =>
            let '(rs, used) := short_options (String c cluster) (hd_error rest) in
            rs ++ getopt_long rest used
        | _ => getopt_long rest false
        end
  end.

Inductive parsed :=
| Parsed (res : GlobalOpts)
| UsageExit              (* [usage()]: a message and [exit(1)] *)
| Aborted                (* [default: abort()] *)
| Undefined.             (* a path built from a null [optarg], or the
                            table overrun *)

Definition set_verbosity (v : VerbosityLvl) (res : GlobalOpts) : GlobalOpts :=
  mkGlobalOpts (storeDir res) (stateDir res) (socketPath res) v.
Definition set_storeDir (p : path) (res : GlobalOpts) : GlobalOpts :=
  mkGlobalOpts p (stateDir res) (socketPath res) (verbosity res).
Definition set_stateDir (p : path) (res : GlobalOpts) : GlobalOpts :=
  mkGlobalOpts (storeDir res) p (socketPath res) (verbosity res).
Definition set_socketPath (p : path) (res : GlobalOpts) : GlobalOpts :=
  mkGlobalOpts (storeDir res) (stateDir res) p (verbosity res).

(** [fs::path(optarg)]. *)
Definition with_optarg (optarg : option string) (k : path -> parsed) : parsed :=
  match optarg with
  | None => Undefined
  | Some a => k (Path.of_string a)
  end.

(** The [switch] of [parseCmdLine], once per return of [getopt_long]. *)
Fixpoint handle_options (rets : list getopt_return) (res : GlobalOpts) : parsed :=
  match rets with
  | [] => Parsed res
  | opt_flag v :: rets' => handle_options rets' (set_verbosity v res)
  | opt_unknown :: _ => UsageExit
  | opt_undefined :: _ => Undefined
  | opt_char c optarg :: rets' =>
      if Ascii.eqb c "v" then handle_options rets' (set_verbosity Verbose res)
      else if Ascii.eqb c "s"
      then with_optarg optarg (fun p => handle_options rets' (set_storeDir p res))
      else if Ascii.eqb c "d"
      then with_optarg optarg (fun p => handle_options rets' (set_stateDir p res))
      else if Ascii.eqb c "l"
      then with_optarg optarg (fun p => handle_options rets' (set_socketPath p res))
      else Aborted
  end.

Definition parseCmdLine (argv : list string) : parsed :=
  handle_options (getopt_long (tl argv) false) defaultOpts.

(* ================================================================= *)
(** ** A file system given by a table, for concrete scenarios *)

Module Sim.

Inductive node :=
| Dir
| BadDir (e : errno)        (* a directory whose listing fails with [e] *)
| File (content : string)
| Link (target : path)
| Special.

Definition table := list (path * node).

Fixpoint lookup (p : path) (t : table) : option node :=
  match t with
  | [] => None
  | (q, n) :: t' => if Path.eqb p q then Some n else lookup p t'
  end.

(** The node that [p] leads to when symbolic links are followed. *)
Fixpoint resolve (hops : nat) (t : table) (p : path) : option node :=
  match lookup p t with
  | Some (Link target) =>
      match hops with
      | O => None
      | S hops' => resolve hops' t (Path.parent_path p // target)
      end
  | found => found
  end.

Definition symlink_status (t : table) (p : path) : result file_type :=
  inr (match lookup p t with
       | None => ft_not_found
       | Some Dir | Some (BadDir _) => ft_directory
       | Some (File _) => ft_regular
       | Some (Link _) => ft_symlink
       | Some Special => ft_socket
       end).

Definition read_symlink (t : table) (p : path) : result path :=
  match lookup p t with
  | Some (Link target) => inr target
  | Some _ => inl 22
  | None => inl ENOENT
  end.

Definition exists_ (t : table) (p : path) : result bool :=
  inr (match resolve 8 t p with Some _ => true | None => false end).

Definition is_directory (t : table) (p : path) : result bool :=
  inr (match resolve 8 t p with
       | Some Dir | Some (BadDir _) => true
       | _ => false
       end).

Definition below (dir p : path) : bool :=
  starts_with p dir && (List.length dir <? List.length p)%nat.

Definition child_of (dir p : path) : bool :=
  below dir p && Path.eqb (Path.parent_path p) dir.

Definition listing (keep : path -> path -> bool) (t : table) (dir : path)
  : list path * option errno :=
  match resolve 8 t dir with
  | Some Dir => (filter (keep dir) (map fst t), None)
  | Some (BadDir e) => ([], Some e)
  | Some _ => ([], Some 20)
  | None => ([], Some ENOENT)
  end.

Definition read_file (t : table) (p : path) : string :=
  match resolve 8 t p with
  | Some (File content) => content
  | _ => ""
  end.

Definition fs (t : table) : FileSystem :=
  mkFileSystem (symlink_status t) (read_symlink t) (exists_ t)
    (is_directory t) (listing below t) (listing child_of t) (read_file t).

(** Store root [/s], state root [/v]. *)
Definition opts : GlobalOpts :=
  mkGlobalOpts ["/"; "s"] ["/"; "v"] ["/"; "v"; "gc-socket"; "socket"] Quiet.

Definition roots_dirs : table :=
  [ (["/"; "s"], Dir);
    (["/"; "v"; "profiles"], Dir);
    (["/"; "v"; "gcroots"], Dir) ].

(** [/v/gcroots/a -> /s/abc-hello]. *)
Definition direct : table :=
  roots_dirs ++
  [ (["/"; "v"; "gcroots"; "a"], Link ["/"; "s"; "abc-hello"]);
    (["/"; "s"; "abc-hello"], Dir) ].

(** [/v/gcroots/a -> /home/u/profile -> /s/xyz-thing]. *)
Definition two_hops : table :=
  roots_dirs ++
  [ (["/"; "v"; "gcroots"; "a"], Link ["/"; "home"; "u"; "profile"]);
    (["/"; "home"; "u"; "profile"], Link ["/"; "s"; "xyz-thing"]);
    (["/"; "s"; "xyz-thing"], Dir) ].

(** [/v/gcroots/a -> /t/b -> /t/c -> /s/obj]. *)
Definition three_hops : table :=
  roots_dirs ++
  [ (["/"; "v"; "gcroots"; "a"], Link ["/"; "t"; "b"]);
    (["/"; "t"; "b"], Link ["/"; "t"; "c"]);
    (["/"; "t"; "c"], Link ["/"; "s"; "obj"]);
    (["/"; "s"; "obj"], Dir) ].

(** [/v/gcroots/a -> /t/b -> /t/c -> /t/d -> /s/obj]. *)
Definition four_hops : table :=
  roots_dirs ++
  [ (["/"; "v"; "gcroots"; "a"], Link ["/"; "t"; "b"]);
    (["/"; "t"; "b"], Link ["/"; "t"; "c"]);
    (["/"; "t"; "c"], Link ["/"; "t"; "d"]);
    (["/"; "t"; "d"], Link ["/"; "s"; "obj"]);
    (["/"; "s"; "obj"], Dir) ].

(** [/v/gcroots/a -> /s/gone], and nothing at [/s/gone]. *)
Definition dangling_into_store : table :=
  roots_dirs ++
  [ (["/"; "v"; "gcroots"; "a"], Link ["/"; "s"; "gone"]) ].

(** [/v/gcroots/abc-hello -> /tmp/gone], nothing at [/tmp/gone], and a
    store object [/s/abc-hello]. *)
Definition dangling_namesake : table :=
  roots_dirs ++
  [ (["/"; "v"; "gcroots"; "abc-hello"], Link ["/"; "tmp"; "gone"]);
    (["/"; "s"; "abc-hello"], Dir) ].

(** Process 42 runs [/s/abc-hello/bin/hello]. *)
Definition running : table :=
  roots_dirs ++
  [ (["/"; "proc"], Dir);
    (["/"; "proc"; "42"], Dir);
    (["/"; "proc"; "42"; "exe"], Link ["/"; "s"; "abc-hello"; "bin"; "hello"]);
    (["/"; "proc"; "42"; "cwd"], Link ["/"; "home"; "u"]);
    (["/"; "proc"; "42"; "fd"], Dir);
    (["/"; "s"; "abc-hello"], Dir);
    (["/"; "s"; "abc-hello"; "bin"], Dir);
    (["/"; "s"; "abc-hello"; "bin"; "hello"], File "") ].

(** [/v/gcroots/a -> /s/abc-hello], and process 42 runs [/s/abc-hello]. *)
Definition rooted_and_running : table :=
  roots_dirs ++
  [ (["/"; "v"; "gcroots"; "a"], Link ["/"; "s"; "abc-hello"]);
    (["/"; "s"; "abc-hello"], File "");
    (["/"; "proc"], Dir);
    (["/"; "proc"; "42"], Dir);
    (["/"; "proc"; "42"; "exe"], Link ["/"; "s"; "abc-hello"]);
    (["/"; "proc"; "42"; "fd"], Dir) ].

(** Listing [/proc/42/fd] fails with [EMFILE]: the daemon has too many
    files open. *)
Definition EMFILE : errno := 24.
Definition fd_unreadable : table :=
  direct ++
  [ (["/"; "proc"], Dir);
    (["/"; "proc"; "42"], Dir);
    (["/"; "proc"; "42"; "fd"], BadDir EMFILE) ].

(** Listing [/proc/42/fd] fails with [EACCES]: the process is another
    user's. Its executable is [/s/xyz-thing]. *)
Definition fd_denied : table :=
  direct ++
  [ (["/"; "proc"], Dir);
    (["/"; "proc"; "42"], Dir);
    (["/"; "proc"; "42"; "exe"], Link ["/"; "s"; "xyz-thing"]);
    (["/"; "proc"; "42"; "fd"], BadDir EACCES) ].

(** Three links into the store, found in the order [z], [b], [a], two of
    them to the same store path, and two links to nothing. *)
Definition several : table :=
  roots_dirs ++
  [ (["/"; "v"; "gcroots"; "z"], Link ["/"; "s"; "abc"; "bin"]);
    (["/"; "v"; "gcroots"; "b"], Link ["/"; "s"; "abc-1"]);
    (["/"; "v"; "gcroots"; "a"], Link ["/"; "s"; "abc-1"]);
    (["/"; "v"; "gcroots"; "y"], Link ["/"; "home"; "u"; "gone"]);
    (["/"; "v"; "gcroots"; "x"], Link ["/"; "home"; "u"; "lost"]);
    (["/"; "s"; "abc"], Dir);
    (["/"; "s"; "abc"; "bin"], Dir);
    (["/"; "s"; "abc-1"], Dir) ].

End Sim.


(* ================================================================= *)
(** ** Predicates of the specification *)

(** The comparison of relative parts inside [Path.compare]. *)
Definition elements_compare : path -> path -> comparison :=
  lex_compare string_compare.

Definition path_lt (p q : path) : Prop := Path.compare p q = Lt.

Definition sorted_set (s : pathset) : Prop := StronglySorted path_lt s.

(** A roots map as [std::map] keeps it: keys in strictly increasing order,
    every value a sorted set. *)
Definition sorted_roots (m : Roots) : Prop :=
  StronglySorted path_lt (RootsMap.keys m)
  /\ Forall (fun kv => sorted_set (snd kv)) m.

Definition sorted_result (res : TraceResult) : Prop :=
  sorted_roots (storeRoots res) /\ sorted_set (deadLinks res).

(** The order of the lines of the store-object section: by store path,
    then by external root. *)
Definition edge_lt (e1 e2 : path * path) : Prop :=
  path_lt (fst e1) (fst e2)
  \/ (fst e1 = fst e2 /\ path_lt (snd e1) (snd e2)).

Fixpoint string_forall (p : ascii -> bool) (s : string) : bool :=
  match s with
  | EmptyString => true
  | String c s' => p c && string_forall p s'
  end.

(** The store-object lexical rule: one or more of [0-9a-z], then zero or
    more of [0-9a-zA-Z+-._?=]. The first class lies within the second, so
    this is a first character of the first class followed by characters of
    the second. *)
Definition store_object_name (n : string) : bool :=
  match n with
  | EmptyString => false
  | String c n' => store_name_first c && string_forall store_name_rest n'
  end.

(** A store-object path: the store root followed by exactly one element,
    which matches the lexical rule. *)
Definition store_object_path (store k : path) : bool :=
  match rev k with
  | n :: rstore => store_object_name n && Path.eqb (rev rstore) store
  | [] => false
  end.

(** The three kinds of keys that the program puts into a roots map. *)
Definition key_in_store (store k : path) : Prop := isInStore store k = true.

Definition key_probe (store k : path) : Prop :=
  exists root, k = store // Path.filename root.

Definition key_match (store k : path) : Prop :=
  exists n, store_object_name n = true
            /\ k = Path.of_string (Path.to_string store ++ "/" ++ n)%string.

Definition roots_key (store k : path) : Prop :=
  key_in_store store k \/ key_probe store k \/ key_match store k.

(** What a symbolic link resolves to: its text, taken relative to the
    directory of the link. *)
Definition link_target (fs : FileSystem) (link : path) : result path :=
  try! text <- fs_read_symlink fs link;
  inr (Path.parent_path link // text).

(** A chain of symbolic links [l1 -> l2 -> ... -> ln -> obj]: every link
    resolves to the next, which is a symbolic link outside the store; the
    last one resolves to [obj], which is in the store and exists. *)
Fixpoint symlink_chain (fs : FileSystem) (store : path) (links : list path)
    (obj : path) : Prop :=
  match links with
  | [] => False
  | l :: rest =>
      match rest with
      | [] =>
          link_target fs l = inr obj
          /\ isInStore store obj = true
          /\ exists st, fs_symlink_status fs obj = inr st /\ is_not_found st = false
      | l' :: _ =>
          link_target fs l = inr l'
          /\ isInStore store l' = false
          /\ fs_symlink_status fs l' = inr ft_symlink
          /\ symlink_chain fs store rest obj
      end
  end.

(** No link of the chain has the file name of something in the store. *)
Definition no_namesake (fs : FileSystem) (store : path) (links : list path) : Prop :=
  Forall (fun l => fs_exists fs (store // Path.filename l) = inr false) links.

(** [e] is a root edge of the result. *)
Definition has_edge (e : path * path) (res : TraceResult) : Prop :=
  In e (RootsMap.edges (storeRoots res)).

(** The lines of a response. *)
Definition store_line (e : path * path) : string :=
  (Path.to_string (fst e) ++ TAB ++ Path.to_string (snd e) ++ LF)%string.

Definition dead_line (d : path) : string := (Path.to_string d ++ LF)%string.

Fixpoint concat_lines (l : list string) : string :=
  match l with
  | [] => ""
  | x :: l' => (x ++ concat_lines l')%string
  end.

Definition store_section (res : TraceResult) : list string :=
  map store_line (RootsMap.edges (storeRoots res)).

Definition dead_section (res : TraceResult) : list string :=
  map dead_line (deadLinks res).

(** The store-object lines that carry the store path [k]. *)
Definition lines_of_key (k : path) (m : Roots) : list (path * path) :=
  filter (fun e => Path.eqb (fst e) k) (RootsMap.edges m).

(** Tracing reaches [l] with the full budget: [l] is one of the starting
    paths, or it is listed by the iterator of a starting path that is a
    directory and whose traversal ends without an exception (whether it
    does is the same for every result accumulated before). *)
Definition tracing_reaches (fs : FileSystem) (opts : GlobalOpts) (fuel : nat)
    (roots : pathset) (l : path) : Prop :=
  In l roots
  \/ exists dir,
       In dir roots
       /\ fs_symlink_status fs dir = inr ft_directory
       /\ In l (fst (fs_recursive_directory_iterator fs dir))
       /\ exists r,
            followPathToStore fs opts fuel maxRecursionLevel
              emptyTraceResult dir ft_directory = Some (r, Returned).

(** A file system of finite depth: the directories that the iterator of a
    directory lists lie below it, and no directory is more than [D] levels
    above the deepest. *)
Definition finite_depth (fs : FileSystem) (height : path -> nat) (D : nat) : Prop :=
  (forall p, (height p <= D)%nat)
  /\ forall dir child,
       In child (fst (fs_recursive_directory_iterator fs dir)) ->
       fs_symlink_status fs child = inr ft_directory ->
       (height child < height dir)%nat.

(** Fuel for [levels] nested symlink resolutions in such a file system. *)
Definition level_fuel (D levels : nat) : nat := (levels * (D + 2) + 1)%nat.

Definition enough_fuel (D : nat) : nat := level_fuel D 3.

(** The data of the calls of [send] that a response takes, in order. *)
Definition response_data (res : TraceResult) : list string :=
  flat_map (fun e => [ Path.to_string (fst e); TAB; Path.to_string (snd e); LF ])
    (RootsMap.edges (storeRoots res))
  ++ [ LF ]
  ++ flat_map (fun d => [ Path.to_string d; LF ]) (deadLinks res).

(** Their number: four for every store-object line, one for the
    separator, two for every dead-link line. *)
Definition response_sends (res : TraceResult) : nat :=
  (4 * List.length (RootsMap.edges (storeRoots res)) + 1
   + 2 * List.length (deadLinks res))%nat.

(** The peer is there for [n] calls of [send]. *)
Definition peer_hears (p : peer) (n : nat) : bool :=
  match p with
  | Stays => true
  | HangsUpAfter k => (n <=? k)%nat
  end.

(** The data that reach the peer. *)
Definition heard (p : peer) (data : list string) : list string :=
  match p with
  | Stays => data
  | HangsUpAfter n => firstn n data
  end.

(** The runtime scan meets no error but those it passes over: the tests
    for existence and for a directory answer, the listing of [/proc] ends
    well, and the listing of the [fd] directory of an entry of [/proc]
    fails, if it does, with [ENOENT] or [EACCES]. What [read_symlink]
    answers is free: its errors are caught path by path. *)
Definition scan_errors_ignorable (fs : FileSystem) : Prop :=
  (forall p, exists b, fs_exists fs p = inr b)
  /\ (forall p, exists b, fs_is_directory fs p = inr b)
  /\ snd (fs_directory_iterator fs ["/"; "proc"]) = None
  /\ forall procEntry e,
       In procEntry (fst (fs_directory_iterator fs ["/"; "proc"])) ->
       snd (fs_directory_iterator fs (procEntry // ["fd"])) = Some e ->
       e = ENOENT \/ e = EACCES.

(* ================================================================= *)
(** ** File systems that fail, for concrete scenarios *)

(** [fs], except that the status of [p] cannot be read. *)
Definition with_unreadable_status (fs : FileSystem) (p : path) (e : errno)
  : FileSystem :=
  mkFileSystem
    (fun q => if Path.eqb q p then inl e else fs_symlink_status fs q)
    (fs_read_symlink fs) (fs_exists fs) (fs_is_directory fs)
    (fs_recursive_directory_iterator fs) (fs_directory_iterator fs)
    (fs_read_file fs).

(** [fs], except that the link [p] cannot be read. *)
Definition with_unreadable_link (fs : FileSystem) (p : path) (e : errno)
  : FileSystem :=
  mkFileSystem
    (fs_symlink_status fs)
    (fun q => if Path.eqb q p then inl e else fs_read_symlink fs q)
    (fs_exists fs) (fs_is_directory fs)
    (fs_recursive_directory_iterator fs) (fs_directory_iterator fs)
    (fs_read_file fs).

(** [fs], except that the recursive iterator of [dir] yields [listing]. *)
Definition with_listing (fs : FileSystem) (dir : path)
    (listing : list path * option errno) : FileSystem :=
  mkFileSystem
    (fs_symlink_status fs) (fs_read_symlink fs) (fs_exists fs)
    (fs_is_directory fs)
    (fun q => if Path.eqb q dir then listing
              else fs_recursive_directory_iterator fs q)
    (fs_directory_iterator fs) (fs_read_file fs).

(** [/v/gcroots] holds [a -> /s/abc-hello] and [b -> /s/xyz-thing]. *)
Definition two_links : Sim.table :=
  Sim.roots_dirs ++
  [ (["/"; "v"; "gcroots"; "a"], Sim.Link ["/"; "s"; "abc-hello"]);
    (["/"; "v"; "gcroots"; "b"], Sim.Link ["/"; "s"; "xyz-thing"]);
    (["/"; "s"; "abc-hello"], Sim.Dir);
    (["/"; "s"; "xyz-thing"], Sim.Dir) ].

(** Process 42 has [/s/abc-hello/bin] in its environment and maps
    [/s/xyz-libc/lib/libc.so]. *)
Definition with_environ_and_maps : Sim.table :=
  Sim.roots_dirs ++
  [ (["/"; "proc"], Sim.Dir);
    (["/"; "proc"; "42"], Sim.Dir);
    (["/"; "proc"; "42"; "fd"], Sim.Dir);
    (["/"; "proc"; "42"; "environ"], Sim.File "PATH=/s/abc-hello/bin:/bin");
    (["/"; "proc"; "42"; "maps"],
     Sim.File ("7f00-7f01 r-xp 00000000 08:01 1234   /s/xyz-libc/lib/libc.so"
               ++ LF ++ "7ffd-7ffe rw-p 00000000 00:00 0   [stack]" ++ LF)) ].

(** [t] is empty or begins with a character outside the class [p]. *)
Definition stops (p : ascii -> bool) (t : string) : Prop :=
  match t with
  | EmptyString => True
  | String c _ => p c = false
  end.

(** A field of a line: one or more characters, none of them white space;
    and the white space between two fields. *)
Definition field (f : string) : Prop :=
  f <> "" /\ string_forall non_space f = true.

Definition blank (w : string) : Prop :=
  w <> "" /\ string_forall is_space w = true.

(** A field that begins with a separator and has something after it. *)
Definition is_path_field (f : string) : bool :=
  match f with
  | String c (String _ _) => Ascii.eqb c "/"
  | _ => false
  end.

(** A name made of decimal digits, and of one at least. *)
Definition is_pid_name (s : string) : bool :=
  negb (String.eqb s "") && string_forall is_digit s.

(** An argument that [getopt_long] takes for an option, or for the end of
    the options: a dash followed by something. *)
Definition is_option_argument (arg : string) : bool :=
  match arg with
  | String c (String _ _) => Ascii.eqb c "-"
  | _ => false
  end.

(** The returns of [getopt_long] that the [switch] has a case for. *)
Definition has_case (r : getopt_return) : Prop :=
  match r with
  | opt_char c _ =>
      c = "v"%char \/ c = "s"%char \/ c = "d"%char \/ c = "l"%char
  | _ => True
  end.

(** What a turn of the accept loop leaves on the connection it accepted,
    when the daemon is still running after it. *)
Definition response_to (fuel : nat) (opts : GlobalOpts) (ev : event)
  : list connection :=
  match ev with
  | Connection fs p =>
      match serve_peer p fuel fs opts with
      | Some (Responded _ sent) => [ mkConnection sent true ]
      | _ => []
      end
  | _ => []
  end.

Definition is_EINTR (ev : event) : bool :=
  match ev with
  | AcceptFailed e => e =? EINTR
  | _ => false
  end.

(* ================================================================= *)
(** * Properties *)

(** ** The order on paths *)

Section LexicographicFacts.
Context {A : Type}.
Variable cmp : A -> A -> comparison.
Variable ltA : A -> A -> Prop.
Hypothesis cmp_spec : forall x y, CompSpec eq ltA x y (cmp x y).
Hypothesis ltA_strict : StrictOrder ltA.

Lemma cmp_refl x : cmp x x = Eq.
Proof.
  destruct (cmp_spec x x) as [_ | H | H]; trivial;
    exfalso; exact (irreflexivity H).
Qed.

Lemma cmp_eq x y : cmp x y = Eq -> x = y.
Proof.
  destruct (cmp_spec x y); congruence.
Qed.

Lemma cmp_lt x y : cmp x y = Lt <-> ltA x y.
Proof.
  destruct (cmp_spec x y) as [E | H | H]; split; intro H'; try congruence.
  - subst. exfalso; exact (irreflexivity H').
  - exfalso. exact (irreflexivity (transitivity H H')).
Qed.

Lemma cmp_gt x y : cmp x y = Gt <-> ltA y x.
Proof.
  destruct (cmp_spec x y) as [E | H | H]; split; intro H'; try congruence.
  - subst. exfalso; exact (irreflexivity H').
  - exfalso. exact (irreflexivity (transitivity H H')).
Qed.

Lemma cmp_antisym x y : cmp y x = CompOpp (cmp x y).
Proof.
  destruct (cmp x y) eqn:E; simpl.
  - apply cmp_eq in E. subst. apply cmp_refl.
  - apply cmp_gt. now apply cmp_lt.
  - apply cmp_lt. now apply cmp_gt.
Qed.

Lemma lex_compare_refl xs : lex_compare cmp xs xs = Eq.
Proof.
  induction xs as [| x xs IH]; simpl; trivial.
  now rewrite cmp_refl.
Qed.

Lemma lex_compare_eq xs ys : lex_compare cmp xs ys = Eq -> xs = ys.
Proof.
  revert ys. induction xs as [| x xs IH]; intros [| y ys]; simpl;
    try congruence.
  destruct (cmp x y) eqn:E; try discriminate.
  intros H. apply cmp_eq in E. apply IH in H. congruence.
Qed.

Lemma lex_compare_antisym xs ys :
  lex_compare cmp ys xs = CompOpp (lex_compare cmp xs ys).
Proof.
  revert ys. induction xs as [| x xs IH]; intros [| y ys]; simpl; trivial.
  rewrite (cmp_antisym x y).
  destruct (cmp x y); simpl; trivial.
Qed.

Lemma lex_compare_trans xs ys zs :
  lex_compare cmp xs ys = Lt -> lex_compare cmp ys zs = Lt ->
  lex_compare cmp xs zs = Lt.
Proof.
  revert ys zs.
  induction xs as [| x xs IH]; intros [| y ys] [| z zs]; simpl;
    try congruence.
  destruct (cmp x y) eqn:Exy; try discriminate.
  - apply cmp_eq in Exy. subst y.
    destruct (cmp x z); try congruence. apply IH.
  - intros _. destruct (cmp y z) eqn:Eyz; try discriminate.
    + apply cmp_eq in Eyz. subst z. now rewrite Exy.
    + intros _. apply cmp_lt in Exy. apply cmp_lt in Eyz.
      assert (H : cmp x z = Lt) by (apply cmp_lt; etransitivity; eassumption).
      now rewrite H.
Qed.
End LexicographicFacts.


Lemma elements_compare_refl p : elements_compare p p = Eq.
Proof.
  exact (lex_compare_refl _ _ String_as_OT.compare_spec String_as_OT.lt_strorder p).
Qed.

Lemma elements_compare_eq p q : elements_compare p q = Eq -> p = q.
Proof.
  exact (lex_compare_eq _ _ String_as_OT.compare_spec p q).
Qed.

Lemma elements_compare_antisym p q :
  elements_compare q p = CompOpp (elements_compare p q).
Proof.
  exact (lex_compare_antisym _ _ String_as_OT.compare_spec
           String_as_OT.lt_strorder p q).
Qed.

Lemma elements_compare_trans p q r :
  elements_compare p q = Lt -> elements_compare q r = Lt ->
  elements_compare p r = Lt.
Proof.
  exact (lex_compare_trans _ _ String_as_OT.compare_spec
           String_as_OT.lt_strorder p q r).
Qed.

(** A path is its root directory, if any, and its relative part. *)
Lemma path_decompose p q :
  Path.has_root_directory p = Path.has_root_directory q ->
  Path.relative_path p = Path.relative_path q -> p = q.
Proof.
  unfold Path.relative_path, Path.has_root_directory.
  destruct p as [| x p], q as [| y q]; simpl; trivial.
  - destruct (String.eqb y Path.root_directory); congruence.
  - destruct (String.eqb x Path.root_directory); congruence.
  - destruct (String.eqb x Path.root_directory) eqn:Ex,
             (String.eqb y Path.root_directory) eqn:Ey; try congruence.
    apply String.eqb_eq in Ex. apply String.eqb_eq in Ey. congruence.
Qed.

Lemma path_compare_refl p : Path.compare p p = Eq.
Proof.
  unfold Path.compare.
  destruct (Path.has_root_directory p); apply elements_compare_refl.
Qed.

Lemma path_compare_eq p q : Path.compare p q = Eq -> p = q.
Proof.
  unfold Path.compare.
  destruct (Path.has_root_directory p) eqn:Hp,
           (Path.has_root_directory q) eqn:Hq; try discriminate;
    intros H; apply elements_compare_eq in H;
    apply path_decompose; congruence.
Qed.

Lemma path_compare_antisym p q :
  Path.compare q p = CompOpp (Path.compare p q).
Proof.
  unfold Path.compare.
  destruct (Path.has_root_directory p), (Path.has_root_directory q);
    trivial; apply elements_compare_antisym.
Qed.


Lemma path_lt_trans p q r : path_lt p q -> path_lt q r -> path_lt p r.
Proof.
  unfold path_lt, Path.compare.
  destruct (Path.has_root_directory p), (Path.has_root_directory q),
           (Path.has_root_directory r); try congruence;
    apply elements_compare_trans.
Qed.

Lemma path_lt_irrefl p : ~ path_lt p p.
Proof.
  unfold path_lt. rewrite path_compare_refl. discriminate.
Qed.

Lemma path_compare_gt p q : Path.compare p q = Gt -> path_lt q p.
Proof.
  intros H. unfold path_lt. rewrite path_compare_antisym, H. reflexivity.
Qed.

Lemma path_eqb_eq p q : Path.eqb p q = true <-> p = q.
Proof.
  unfold Path.eqb. split.
  - destruct (Path.compare p q) eqn:E; try discriminate.
    intros _. now apply path_compare_eq.
  - intros ->. now rewrite path_compare_refl.
Qed.

(** ** Sorted sets and maps *)


Lemma set_insert_In x y s :
  In y (PathSet.insert x s) <-> y = x \/ In y s.
Proof.
  induction s as [| z s IH]; simpl.
  - intuition.
  - destruct (Path.compare x z) eqn:E; simpl.
    + apply path_compare_eq in E. subst. intuition.
    + intuition.
    + rewrite IH. intuition.
Qed.

Lemma set_insert_sorted x s : sorted_set s -> sorted_set (PathSet.insert x s).
Proof.
  unfold sorted_set.
  induction s as [| z s IH]; simpl; intros Hs.
  - repeat constructor.
  - destruct (Path.compare x z) eqn:E; trivial.
    + constructor; trivial.
      apply StronglySorted_inv in Hs. destruct Hs as [_ Hz].
      constructor; trivial.
      eapply Forall_impl; [| exact Hz].
      intros a Ha. eapply path_lt_trans; eassumption.
    + apply StronglySorted_inv in Hs. destruct Hs as [Hs Hz].
      constructor; auto.
      rewrite Forall_forall in *. intros a Ha.
      apply set_insert_In in Ha. destruct Ha as [-> | Ha]; auto.
      now apply path_compare_gt.
Qed.

(** Two sorted lists with the same elements are the same list. *)
Section Canonical.
Context {A : Type}.
Variable lt : A -> A -> Prop.
Hypothesis lt_irrefl : forall x, ~ lt x x.
Hypothesis lt_trans : forall x y z, lt x y -> lt y z -> lt x z.

Lemma sorted_unique (l1 l2 : list A) :
  StronglySorted lt l1 -> StronglySorted lt l2 ->
  (forall x, In x l1 <-> In x l2) -> l1 = l2.
Proof.
  revert l2. induction l1 as [| a l1 IH]; intros [| b l2] H1 H2 Hin.
  - reflexivity.
  - exfalso. apply (Hin b). now left.
  - exfalso. apply (Hin a). now left.
  - apply StronglySorted_inv in H1. destruct H1 as [H1 Ha].
    apply StronglySorted_inv in H2. destruct H2 as [H2 Hb].
    rewrite Forall_forall in Ha, Hb.
    assert (a = b) as ->.
    { destruct (proj1 (Hin a) (or_introl eq_refl)) as [E | Hab]; [congruence |].
      destruct (proj2 (Hin b) (or_introl eq_refl)) as [E | Hba]; [congruence |].
      exfalso. apply (lt_irrefl a).
      apply lt_trans with b; auto. }
    f_equal. apply IH; trivial.
    intros x. split; intros Hx.
    + destruct (proj1 (Hin x) (or_intror Hx)) as [E | Hx']; trivial.
      subst x. exfalso. exact (lt_irrefl b (Ha b Hx)).
    + destruct (proj2 (Hin x) (or_intror Hx)) as [E | Hx']; trivial.
      subst x. exfalso. exact (lt_irrefl b (Hb b Hx)).
Qed.
End Canonical.

Lemma add_root_keys_In k root k' m :
  In k' (RootsMap.keys (RootsMap.add_root k root m))
  <-> k' = k \/ In k' (RootsMap.keys m).
Proof.
  unfold RootsMap.keys.
  induction m as [| [k0 v] m IH]; simpl.
  - intuition.
  - destruct (Path.compare k k0) eqn:E; simpl.
    + apply path_compare_eq in E. subst. intuition.
    + intuition.
    + rewrite IH. intuition.
Qed.

Lemma add_root_edges_In k root e m :
  In e (RootsMap.edges (RootsMap.add_root k root m))
  <-> e = (k, root) \/ In e (RootsMap.edges m).
Proof.
  unfold RootsMap.edges.
  induction m as [| [k0 v] m IH]; simpl.
  - intuition.
  - destruct (Path.compare k k0) eqn:E; simpl.
    + apply path_compare_eq in E. subst k0.
      rewrite !in_app_iff, !in_map_iff.
      split.
      * intros [(r & <- & Hr) | H]; [| now right; right].
        apply set_insert_In in Hr. destruct Hr as [-> | Hr]; [now left |].
        right; left. now exists r.
      * intros [-> | [(r & <- & Hr) | H]].
        -- left. exists root. split; trivial. apply set_insert_In. now left.
        -- left. exists r. split; trivial. apply set_insert_In. now right.
        -- now right.
    + intuition.
    + rewrite !in_app_iff, IH. intuition.
Qed.

Lemma add_root_sorted k root m :
  sorted_roots m -> sorted_roots (RootsMap.add_root k root m).
Proof.
  unfold sorted_roots, RootsMap.keys.
  induction m as [| [k0 v] m IH]; simpl; intros [Hk Hv].
  - split; repeat constructor.
  - apply StronglySorted_inv in Hk. destruct Hk as [Hk Hk0].
    inversion Hv as [| ? ? Hv0 Hv']; subst.
    destruct (Path.compare k k0) eqn:E; simpl.
    + split.
      * constructor; trivial.
      * constructor; trivial. simpl. now apply set_insert_sorted.
    + split.
      * constructor; [constructor; trivial |].
        constructor; trivial.
        eapply Forall_impl; [| exact Hk0].
        intros a Ha. eapply path_lt_trans; eassumption.
      * constructor; [repeat constructor | constructor; trivial].
    + destruct (IH (conj Hk Hv')) as [IHk IHv].
      split.
      * constructor; trivial.
        rewrite Forall_forall in *. intros a Ha.
        apply (add_root_keys_In k root a m) in Ha.
        destruct Ha as [-> | Ha]; auto. now apply path_compare_gt.
      * constructor; trivial.
Qed.

Lemma map_insert_keys_In kv k' m :
  In k' (RootsMap.keys (RootsMap.insert kv m))
  <-> k' = fst kv \/ In k' (RootsMap.keys m).
Proof.
  unfold RootsMap.keys.
  induction m as [| [k0 v] m IH]; simpl.
  - intuition.
  - destruct (Path.compare (fst kv) k0) eqn:E; simpl.
    + apply path_compare_eq in E. subst. intuition.
    + intuition.
    + rewrite IH. intuition.
Qed.

Lemma map_insert_sorted kv m :
  sorted_set (snd kv) -> sorted_roots m -> sorted_roots (RootsMap.insert kv m).
Proof.
  unfold sorted_roots, RootsMap.keys. intros Hkv.
  induction m as [| [k0 v] m IH]; simpl; intros [Hk Hv].
  - split; repeat constructor. trivial.
  - apply StronglySorted_inv in Hk. destruct Hk as [Hk Hk0].
    inversion Hv as [| ? ? Hv0 Hv']; subst.
    destruct (Path.compare (fst kv) k0) eqn:E; simpl.
    + split; [constructor |]; trivial.
    + split.
      * constructor; [constructor; trivial |].
        constructor; trivial.
        eapply Forall_impl; [| exact Hk0].
        intros a Ha. eapply path_lt_trans; eassumption.
      * constructor; trivial.
    + destruct (IH (conj Hk Hv')) as [IHk IHv].
      split.
      * constructor; trivial.
        rewrite Forall_forall in *. intros a Ha.
        apply (map_insert_keys_In kv a m) in Ha.
        destruct Ha as [-> | Ha]; auto. now apply path_compare_gt.
      * constructor; trivial.
Qed.

Lemma insert_range_sorted range m :
  Forall (fun kv => sorted_set (snd kv)) range ->
  sorted_roots m -> sorted_roots (RootsMap.insert_range m range).
Proof.
  unfold RootsMap.insert_range.
  revert m. induction range as [| kv range IH]; simpl; intros m Hr Hm; trivial.
  inversion Hr; subst. apply IH; trivial. now apply map_insert_sorted.
Qed.

Lemma StronglySorted_app {A : Type} (R : A -> A -> Prop) l1 l2 :
  StronglySorted R l1 -> StronglySorted R l2 ->
  (forall x y, In x l1 -> In y l2 -> R x y) ->
  StronglySorted R (l1 ++ l2).
Proof.
  induction l1 as [| a l1 IH]; simpl; intros H1 H2 H; trivial.
  apply StronglySorted_inv in H1. destruct H1 as [H1 Ha].
  constructor.
  - apply IH; auto.
  - apply Forall_app. split; trivial.
    apply Forall_forall. intros y Hy. apply H; auto.
Qed.

Lemma edges_key_In e m : In e (RootsMap.edges m) -> In (fst e) (RootsMap.keys m).
Proof.
  unfold RootsMap.edges, RootsMap.keys. rewrite in_flat_map.
  intros ([k v] & Hkv & He). apply in_map_iff in He.
  destruct He as (r & <- & _). simpl. apply in_map_iff. now exists (k, v).
Qed.

(** The lines of the store-object section come out sorted. *)
Lemma edges_sorted m :
  sorted_roots m -> StronglySorted edge_lt (RootsMap.edges m).
Proof.
  unfold sorted_roots.
  induction m as [| [k v] m IH]; simpl; intros [Hk Hv].
  - constructor.
  - apply StronglySorted_inv in Hk. destruct Hk as [Hk Hk0].
    inversion Hv as [| ? ? Hv0 Hv']; subst. simpl in Hv0.
    apply StronglySorted_app.
    + clear -Hv0. induction Hv0 as [| r v Hs IHs Hr]; simpl; constructor; trivial.
      apply Forall_forall. intros e He. apply in_map_iff in He.
      destruct He as (r' & <- & Hr'). right. simpl. split; trivial.
      rewrite Forall_forall in Hr. auto.
    + now apply IH.
    + intros x y Hx Hy. apply in_map_iff in Hx. destruct Hx as (r & <- & _).
      left. simpl. apply edges_key_In in Hy.
      rewrite Forall_forall in Hk0. auto.
Qed.

Lemma edge_lt_irrefl e : ~ edge_lt e e.
Proof.
  intros [H | [_ H]]; exact (path_lt_irrefl _ H).
Qed.

Lemma edge_lt_trans e1 e2 e3 : edge_lt e1 e2 -> edge_lt e2 e3 -> edge_lt e1 e3.
Proof.
  unfold edge_lt.
  intros [H12 | [E12 H12]] [H23 | [E23 H23]].
  - left. eapply path_lt_trans; eassumption.
  - left. congruence.
  - left. congruence.
  - right. split; [congruence |]. eapply path_lt_trans; eassumption.
Qed.

(** ** Invariants of the tracer *)

Lemma for_each_inv {A S : Type} (Q : S -> Prop)
    (body : S -> A -> option (S * outcome)) after l :
  (forall s x s' o, Q s -> body s x = Some (s', o) -> Q s') ->
  forall s s' o, Q s -> for_each body after l s = Some (s', o) -> Q s'.
Proof.
  intros Hbody. induction l as [| x l IH]; simpl; intros s s' o Hs H.
  - congruence.
  - destruct (body s x) as [[s1 [| e]] |] eqn:E; try discriminate.
    + eapply IH; [| exact H]. eapply Hbody; eassumption.
    + inversion H; subst. eapply Hbody; eassumption.
Qed.

Section TracerInvariant.
Variable fs : FileSystem.
Variable opts : GlobalOpts.
Variable P : TraceResult -> Prop.

(** The three places where the tracer changes its result. *)
Hypothesis P_dead : forall root res, P res -> P (not_found root res).
Hypothesis P_target : forall target root res,
  isInStore (storeDir opts) target = true ->
  P res -> P (add_store_root target root res).
Hypothesis P_probe : forall root res,
  fs_exists fs (storeDir opts // Path.filename root) = inr true ->
  P res -> P (add_store_root (storeDir opts // Path.filename root) root res).

Lemma regular_case_inv res root res' o :
  P res -> regular_case fs opts res root = (res', o) -> P res'.
Proof.
  unfold regular_case. intros HP.
  destruct (fs_exists fs _) as [e | [|]] eqn:E; intros H; inversion H; subst;
    auto.
Qed.

Lemma followPathToStore_inv fuel :
  forall recursionsLeft res root status res' o,
    P res ->
    followPathToStore fs opts fuel recursionsLeft res root status = Some (res', o) ->
    P res'.
Proof.
  induction fuel as [| fuel IH]; simpl; intros n res root status res' o HP H.
  - discriminate.
  - destruct (n <? 0); [inversion H; subst; trivial |].
    destruct status; try (inversion H; subst; trivial; fail).
    + (* regular *)
      inversion H. eapply regular_case_inv; eauto.
    + (* directory *)
      destruct (fs_recursive_directory_iterator fs root) as [children err].
      eapply for_each_inv; [| exact HP | exact H].
      intros s x s' o' Hs Hx. simpl in Hx.
      destruct (fs_symlink_status fs x) as [e | st].
      * inversion Hx; subst; trivial.
      * eapply IH; eauto.
    + (* symlink *)
      destruct (fs_read_symlink fs root) as [e | link];
        [inversion H; subst; trivial |].
      destruct (fs_symlink_status fs (Path.parent_path root // link))
        as [e | target_status].
      * inversion H. eapply regular_case_inv; [| eauto]. auto.
      * assert (HP1 : P (if is_not_found target_status
                         then not_found root res else res))
          by (destruct (is_not_found target_status); auto).
        destruct (isInStore (storeDir opts) (Path.parent_path root // link))
          eqn:Ein.
        -- inversion H; subst. auto.
        -- destruct (followPathToStore fs opts fuel (n - 1) _ _ target_status)
             as [[res2 [| e]] |] eqn:Erec; try discriminate;
             inversion H; (eapply regular_case_inv; [| eauto]);
             [| apply P_dead]; eapply IH; eauto.
Qed.

Lemma followPathToStore_from_inv fuel recursionsLeft res root res' :
  P res ->
  followPathToStore_from fs opts fuel recursionsLeft res root = Some res' ->
  P res'.
Proof.
  unfold followPathToStore_from. intros HP.
  destruct (fs_symlink_status fs root) as [e | status].
  - congruence.
  - destruct (followPathToStore fs opts fuel recursionsLeft res root status)
      as [[res1 o] |] eqn:E; try discriminate.
    intros H; inversion H; subst. eapply followPathToStore_inv; eauto.
Qed.

Lemma follow_all_inv fuel roots :
  forall res res', P res -> follow_all fs opts fuel roots res = Some res' -> P res'.
Proof.
  induction roots as [| root roots IH]; simpl; intros res res' HP H.
  - congruence.
  - destruct (followPathToStore_from fs opts fuel maxRecursionLevel res root)
      as [res1 |] eqn:E; try discriminate.
    eapply IH; [| exact H]. eapply followPathToStore_from_inv; eauto.
Qed.
End TracerInvariant.

(** ** What the regular expressions match *)

Lemma string_app_assoc (a b c : string) :
  ((a ++ b) ++ c = a ++ (b ++ c))%string.
Proof.
  induction a as [| x a IH]; simpl; congruence.
Qed.

Lemma string_app_nil_r (a : string) : (a ++ "" = a)%string.
Proof.
  induction a as [| x a IH]; simpl; congruence.
Qed.

Lemma take_while_spec p s m r :
  take_while p s = (m, r) -> string_forall p m = true /\ s = (m ++ r)%string.
Proof.
  revert m r. induction s as [| c s IH]; simpl; intros m r H.
  - inversion H; subst. auto.
  - destruct (p c) eqn:E.
    + destruct (take_while p s) as [m1 r1]. inversion H; subst.
      destruct (IH _ _ eq_refl) as [Hm Hs]. simpl. rewrite E, Hm.
      split; [reflexivity | f_equal; exact Hs].
    + inversion H; subst. auto.
Qed.

Lemma match_atoms_app re1 re2 s m g r :
  match_atoms (re1 ++ re2) s = Some (m, g, r) ->
  exists m1 g1 r1 m2 g2,
    match_atoms re1 s = Some (m1, g1, r1)
    /\ match_atoms re2 r1 = Some (m2, g2, r)
    /\ m = (m1 ++ m2)%string.
Proof.
  revert s m g r. induction re1 as [| a re1 IH]; simpl; intros s m g r H.
  - exists "", "", s, m, g. auto.
  - destruct (match_atom a s) as [[ma ra] |]; try discriminate.
    destruct (match_atoms (re1 ++ re2) ra) as [[[m' g'] r'] |] eqn:E;
      try discriminate.
    inversion H; subst.
    destruct (IH _ _ _ _ E) as (m1 & g1 & r1 & m2 & g2 & H1 & H2 & ->).
    rewrite H1. do 5 eexists. split; [reflexivity |]. split; [exact H2 |].
    now rewrite string_app_assoc.
Qed.

Lemma match_literal l s m g r :
  match_atoms (literal l) s = Some (m, g, r) -> m = l.
Proof.
  revert s m g r. induction l as [| c l IH]; simpl; intros s m g r H.
  - congruence.
  - unfold match_atom in H. simpl in H.
    destruct s as [| c' s]; try discriminate.
    destruct (Ascii.eqb c c') eqn:E; try discriminate.
    destruct (match_atoms (literal l) s) as [[[m' g'] r'] |] eqn:E';
      try discriminate.
    inversion H; subst. apply Ascii.eqb_eq in E. subst c'.
    simpl. f_equal. eapply IH; eauto.
Qed.

Lemma match_store_name s m g r :
  match_atoms [ mkAtom (Ascii.eqb "/") One false;
                mkAtom store_name_first Plus false;
                mkAtom store_name_rest Star false ] s = Some (m, g, r) ->
  exists n, store_object_name n = true /\ m = ("/" ++ n)%string.
Proof.
  cbn [match_atoms]. unfold match_atom. cbn [quant cls captured].
  destruct s as [| c s]; try discriminate.
  destruct (Ascii.eqb "/" c) eqn:Ec; try discriminate.
  apply Ascii.eqb_eq in Ec. subst c.
  destruct (take_while store_name_first s) as [m1 r1] eqn:E1.
  destruct m1 as [| c1 m1]; try discriminate.
  destruct (take_while store_name_rest r1) as [m2 r2] eqn:E2.
  intros H. inversion H; subst. clear H.
  apply take_while_spec in E1. destruct E1 as [H1 _].
  apply take_while_spec in E2. destruct E2 as [H2 _].
  exists (String c1 m1 ++ m2 ++ "")%string. split; [| reflexivity].
  simpl in *. apply andb_true_iff in H1. destruct H1 as [Hc1 H1].
  rewrite Hc1. simpl. clear -H1 H2.
  induction m1 as [| c m1 IH]; simpl in *.
  - induction m2 as [| c m2 IH]; simpl in *; trivial.
    apply andb_true_iff in H2. destruct H2 as [-> H2]. auto.
  - apply andb_true_iff in H1. destruct H1 as [Hc H1].
    rewrite (IH H1). unfold store_name_first in Hc. unfold store_name_rest.
    apply orb_true_iff in Hc. destruct Hc as [-> | ->]; simpl; trivial.
    now rewrite orb_true_r.
Qed.

Lemma regex_iterate_In re m :
  forall s skip, In m (regex_iterate re skip s) ->
  exists s' g r, match_atoms re s' = Some (m, g, r).
Proof.
  induction s as [| c s IH]; intros skip H.
  - destruct skip; simpl in H; contradiction.
  - destruct skip as [| skip]; simpl in H.
    + change (match_atoms re (String c s)) with (match_atoms re (String c s)) in H.
      destruct (match_atoms re (String c s)) as [[[[| c0 m0] g] r] |] eqn:E.
      * eapply IH; eauto.
      * destruct H as [<- | H]; [eauto | eapply IH; eauto].
      * eapply IH; eauto.
    + eapply IH; eauto.
Qed.

(** Every match of the store-path expression is the store root, a
    separator and a name that obeys the lexical rule. *)
Lemma storePathRegex_matches store content m :
  In m (regex_iterate (storePathRegex store) 0 content) ->
  exists n, store_object_name n = true
            /\ m = (Path.to_string store ++ "/" ++ n)%string.
Proof.
  intros H. apply regex_iterate_In in H. destruct H as (s' & g & r & H).
  unfold storePathRegex, quoteRegexChars in H.
  apply match_atoms_app in H.
  destruct H as (m1 & g1 & r1 & m2 & g2 & H1 & H2 & ->).
  apply match_literal in H1. subst m1.
  apply match_store_name in H2. destruct H2 as (n & Hn & ->).
  now exists n.
Qed.

(** ** Invariants of the runtime-root scanner *)

Lemma fold_left_inv {A S : Type} (Q : S -> Prop) (f : S -> A -> S) l :
  (forall s x, In x l -> Q s -> Q (f s x)) ->
  forall s, Q s -> Q (fold_left f l s).
Proof.
  induction l as [| x l IH]; simpl; intros Hf s Hs; trivial.
  apply IH; auto.
Qed.

Section RuntimeInvariant.
Variable fs : FileSystem.
Variable opts : GlobalOpts.
Variable P : Roots -> Prop.

(** The two ways in which the scanner makes a key. *)
Hypothesis P_in_store : forall k root res,
  isInStore (storeDir opts) k = true -> P res -> P (RootsMap.add_root k root res).
Hypothesis P_match : forall n root res,
  store_object_name n = true -> P res ->
  P (RootsMap.add_root
       (Path.of_string (Path.to_string (storeDir opts) ++ "/" ++ n)%string)
       root res).

Lemma scanFileContent_inv file res res' :
  P res -> scanFileContent fs opts file res = inr res' -> P res'.
Proof.
  unfold scanFileContent, bind. intros HP.
  destruct (fs_exists fs file) as [e | [|]]; simpl; intros H;
    inversion H; subst; trivial.
  apply fold_left_inv; trivial.
  intros s m Hm Hs. apply storePathRegex_matches in Hm.
  destruct Hm as (n & Hn & ->). now apply P_match.
Qed.

Lemma scanMapsFile_inv file res res' :
  P res -> scanMapsFile fs opts file res = inr res' -> P res'.
Proof.
  unfold scanMapsFile, bind. intros HP.
  destruct (fs_exists fs file) as [e | [|]]; simpl; intros H;
    inversion H; subst; trivial.
  apply fold_left_inv; trivial.
  intros s line _ Hs.
  destruct (regex_match mapRegex line) as [m |]; trivial.
  destruct (isInStore (storeDir opts) (Path.of_string m)) eqn:E; trivial.
  now apply P_in_store.
Qed.

Lemma probe_links_inv paths res : P res -> P (probe_links fs opts paths res).
Proof.
  unfold probe_links. apply fold_left_inv.
  intros s p _ Hs.
  destruct (fs_read_symlink fs p) as [e | realPath]; trivial.
  destruct (isInStore (storeDir opts) realPath) eqn:E; trivial.
  now apply P_in_store.
Qed.

Lemma scan_process_inv res procEntry res' :
  P res -> scan_process fs opts res procEntry = inr res' -> P res'.
Proof.
  unfold scan_process, bind. intros HP.
  destruct (regex_match digitsRegex _); [| congruence].
  destruct (fs_is_directory fs procEntry) as [e | [|]]; simpl;
    try congruence.
  destruct (consider_fds fs procEntry _) as [e | paths]; try discriminate.
  destruct (scanFileContent fs opts _ _) as [e | res1] eqn:E1;
    try discriminate.
  intros H. eapply scanMapsFile_inv; [| exact H].
  eapply scanFileContent_inv; [| exact E1].
  now apply probe_links_inv.
Qed.

Lemma scan_processes_inv entries :
  forall res res', P res -> scan_processes fs opts entries res = inr res' -> P res'.
Proof.
  induction entries as [| x entries IH]; simpl; intros res res' HP H.
  - congruence.
  - unfold bind in H.
    destruct (scan_process fs opts res x) as [e | res1] eqn:E;
      try discriminate.
    eapply IH; [| exact H]. eapply scan_process_inv; eauto.
Qed.

Lemma getRuntimeRoots_inv res :
  P RootsMap.empty -> getRuntimeRoots fs opts = inr res -> P res.
Proof.
  unfold getRuntimeRoots, bind. intros HP.
  destruct (fs_exists fs _) as [e | [|]]; simpl; try congruence.
  destruct (fs_directory_iterator fs _) as [entries err].
  destruct (scan_processes fs opts entries RootsMap.empty) as [e | res0] eqn:E0;
    try discriminate.
  destruct err; try discriminate.
  destruct (scanFileContent fs opts _ res0) as [e | res1] eqn:E1;
    try discriminate.
  destruct (scanFileContent fs opts _ res1) as [e | res2] eqn:E2;
    try discriminate.
  intros H.
  eapply scanFileContent_inv; [| exact H].
  eapply scanFileContent_inv; [| exact E2].
  eapply scanFileContent_inv; [| exact E1].
  eapply scan_processes_inv; eauto.
Qed.
End RuntimeInvariant.

(** ** More fuel does not change a result *)

Lemma for_each_ext {A S : Type} (body body' : S -> A -> option (S * outcome))
    after l :
  (forall s x r, body s x = Some r -> body' s x = Some r) ->
  forall s r, for_each body after l s = Some r -> for_each body' after l s = Some r.
Proof.
  intros Hb. induction l as [| x l IH]; simpl; intros s r H; trivial.
  destruct (body s x) as [[s1 o] |] eqn:E; try discriminate.
  rewrite (Hb _ _ _ E). destruct o; auto.
Qed.

Lemma followPathToStore_fuel fs opts fuel :
  forall fuel' recursionsLeft res root status r,
    (fuel <= fuel')%nat ->
    followPathToStore fs opts fuel recursionsLeft res root status = Some r ->
    followPathToStore fs opts fuel' recursionsLeft res root status = Some r.
Proof.
  induction fuel as [| fuel IH]; intros fuel' n res root status r Hle H.
  - discriminate.
  - destruct fuel' as [| fuel']; [lia |].
    assert (Hle' : (fuel <= fuel')%nat) by lia.
    simpl in *.
    destruct (n <? 0); trivial.
    destruct status; trivial.
    + destruct (fs_recursive_directory_iterator fs root) as [children err].
      eapply for_each_ext; [| exact H].
      intros s x r' Hx. simpl in *.
      destruct (fs_symlink_status fs x); auto.
    + destruct (fs_read_symlink fs root) as [e | link]; trivial.
      destruct (fs_symlink_status fs (Path.parent_path root // link))
        as [e | target_status]; trivial.
      destruct (isInStore (storeDir opts) (Path.parent_path root // link));
        trivial.
      destruct (followPathToStore fs opts fuel (n - 1) _ _ target_status)
        as [r2 |] eqn:E; try discriminate.
      now rewrite (IH _ _ _ _ _ _ Hle' E).
Qed.

Lemma follow_all_fuel fs opts fuel fuel' roots :
  (fuel <= fuel')%nat ->
  forall res tr,
    follow_all fs opts fuel roots res = Some tr ->
    follow_all fs opts fuel' roots res = Some tr.
Proof.
  intros Hle. induction roots as [| root roots IH]; simpl; intros res tr H;
    trivial.
  unfold followPathToStore_from in *.
  destruct (fs_symlink_status fs root) as [e | status]; [now apply IH |].
  destruct (followPathToStore fs opts fuel maxRecursionLevel res root status)
    as [[res1 o] |] eqn:E; try discriminate.
  rewrite (followPathToStore_fuel _ _ _ _ _ _ _ _ _ Hle E). now apply IH.
Qed.

(** The fuel has no part in what is served. *)
Lemma serve_fuel fuel fuel' fs opts s s' :
  serve fuel fs opts = Some s -> serve fuel' fs opts = Some s' -> s = s'.
Proof.
  unfold serve, serve_peer, followPathsToStore. intros H H'.
  destruct (follow_all fs opts fuel (standardRoots opts) emptyTraceResult)
    as [tr |] eqn:E; try discriminate.
  destruct (follow_all fs opts fuel' (standardRoots opts) emptyTraceResult)
    as [tr' |] eqn:E'; try discriminate.
  apply (follow_all_fuel fs opts fuel (Nat.max fuel fuel')) in E; [| lia].
  apply (follow_all_fuel fs opts fuel' (Nat.max fuel fuel')) in E'; [| lia].
  assert (tr = tr') by congruence. subst tr'.
  destruct (getRuntimeRoots fs opts); congruence.
Qed.

(** ** Control does not depend on the result accumulated *)

Lemma for_each_outcome {A S : Type} (body : S -> A -> option (S * outcome))
    after l :
  (forall s x s' o, body s x = Some (s', o) ->
                    forall s2, exists s2', body s2 x = Some (s2', o)) ->
  forall s s' o, for_each body after l s = Some (s', o) ->
                 forall s2, exists s2', for_each body after l s2 = Some (s2', o).
Proof.
  intros Hb. induction l as [| x l IH]; simpl; intros s s' o H s2.
  - inversion H; subst. eauto.
  - destruct (body s x) as [[s1 o1] |] eqn:E; try discriminate.
    destruct (Hb _ _ _ _ E s2) as [s2' ->].
    destruct o1; eauto. inversion H; subst. eauto.
Qed.

Lemma regular_case_outcome fs opts res root res2 :
  snd (regular_case fs opts res2 root) = snd (regular_case fs opts res root).
Proof.
  unfold regular_case. now destruct (fs_exists fs _) as [e | [|]].
Qed.

Lemma followPathToStore_outcome fs opts fuel :
  forall recursionsLeft res root status res' o,
    followPathToStore fs opts fuel recursionsLeft res root status = Some (res', o) ->
    forall res2, exists res2',
      followPathToStore fs opts fuel recursionsLeft res2 root status
      = Some (res2', o).
Proof.
  induction fuel as [| fuel IH]; simpl; intros n res root status res' o H res2.
  - discriminate.
  - destruct (n <? 0); [inversion H; subst; eauto |].
    destruct status; try (inversion H; subst; eauto; fail).
    + (* regular *)
      inversion H as [Hr]. exists (fst (regular_case fs opts res2 root)).
      f_equal. rewrite (surjective_pairing (regular_case fs opts res2 root)).
      f_equal. rewrite (regular_case_outcome fs opts res root res2).
      now rewrite Hr.
    + (* directory *)
      destruct (fs_recursive_directory_iterator fs root) as [children err].
      eapply for_each_outcome; [| exact H].
      intros s x s' o' Hx s2. simpl in *.
      destruct (fs_symlink_status fs x) as [e | st].
      * inversion Hx; subst. eauto.
      * eapply IH; eauto.
    + (* symlink *)
      destruct (fs_read_symlink fs root) as [e | link];
        [inversion H; subst; eauto |].
      destruct (fs_symlink_status fs (Path.parent_path root // link))
        as [e | target_status].
      * inversion H as [Hr].
        exists (fst (regular_case fs opts (not_found root res2) root)).
        f_equal.
        rewrite (surjective_pairing (regular_case fs opts (not_found root res2) root)).
        f_equal.
        rewrite (regular_case_outcome fs opts (not_found root res) root).
        now rewrite Hr.
      * destruct (isInStore (storeDir opts) (Path.parent_path root // link)).
        -- inversion H; subst. eauto.
        -- destruct (followPathToStore fs opts fuel (n - 1) _ _ target_status)
             as [[r1 o1] |] eqn:Erec; try discriminate.
           destruct (IH _ _ _ _ _ _ Erec
                       (if is_not_found target_status
                        then not_found root res2 else res2)) as [r2 ->].
           destruct o1; inversion H as [Hr].
           ++ exists (fst (regular_case fs opts r2 root)). f_equal.
              rewrite (surjective_pairing (regular_case fs opts r2 root)).
              f_equal. rewrite (regular_case_outcome fs opts r1 root).
              now rewrite Hr.
           ++ exists (fst (regular_case fs opts (not_found root r2) root)).
              f_equal.
              rewrite (surjective_pairing
                         (regular_case fs opts (not_found root r2) root)).
              f_equal.
              rewrite (regular_case_outcome fs opts (not_found root r1) root).
              now rewrite Hr.
Qed.

(** A loop that ends without an exception has run its body on every
    element. *)
Lemma for_each_visits {A S : Type} (Q : S -> Prop)
    (body : S -> A -> option (S * outcome)) after x l :
  In x l ->
  (forall s y s' o, Q s -> body s y = Some (s', o) -> Q s') ->
  (forall s s' o, body s x = Some (s', o) -> Q s') ->
  forall s s', for_each body after l s = Some (s', Returned) -> Q s'.
Proof.
  intros Hin Hkeep Hx. induction l as [| y l IH]; [contradiction |].
  simpl. intros s s' H.
  destruct (body s y) as [[s1 [| e]] |] eqn:E; try discriminate.
  destruct Hin as [-> | Hin].
  - eapply for_each_inv; [exact Hkeep | | exact H]. eapply Hx; eauto.
  - eapply IH; eauto.
Qed.

(** ** Chains of symbolic links *)

Section Chains.
Variable fs : FileSystem.
Variable opts : GlobalOpts.

Lemma link_target_inv l t :
  link_target fs l = inr t ->
  exists text, fs_read_symlink fs l = inr text /\ Path.parent_path l // text = t.
Proof.
  unfold link_target, bind.
  destruct (fs_read_symlink fs l) as [e | text]; try discriminate.
  intros H. inversion H. eauto.
Qed.

Lemma regular_case_no_namesake res l :
  fs_exists fs (storeDir opts // Path.filename l) = inr false ->
  regular_case fs opts res l = (res, Returned).
Proof.
  unfold regular_case. now intros ->.
Qed.

(** Within the budget the chain is followed to its end, and the edge
    recorded is from the store object to the last link. *)
Lemma chain_followed links :
  forall obj recursionsLeft fuel res,
    symlink_chain fs (storeDir opts) links obj ->
    no_namesake fs (storeDir opts) links ->
    Z.of_nat (List.length links) <= recursionsLeft + 1 ->
    (List.length links <= fuel)%nat ->
    followPathToStore fs opts fuel recursionsLeft res (hd [] links) ft_symlink
    = Some (add_store_root obj (last links []) res, Returned).
Proof.
  induction links as [| l rest IH]; intros obj n fuel res Hc Hn Hlen Hfuel.
  - contradiction.
  - destruct fuel as [| fuel]; [simpl in Hfuel; lia |].
    inversion Hn as [| ? ? Hl Hrest]; subst.
    cbn [hd]. cbn [followPathToStore].
    destruct (Z.ltb_spec n 0) as [Hneg | _];
      [simpl List.length in Hlen; lia |].
    destruct rest as [| l' rest'].
    + destruct Hc as (Ht & Hin & st & Hst & Hnf).
      apply link_target_inv in Ht. destruct Ht as (text & -> & ->).
      rewrite Hst, Hnf, Hin. reflexivity.
    + destruct Hc as (Ht & Hout & Hst & Hc).
      apply link_target_inv in Ht. destruct Ht as (text & -> & ->).
      rewrite Hst, Hout. cbn [is_not_found].
      assert (Hrec := IH obj (n - 1) fuel res Hc Hrest).
      cbn [hd] in Hrec.
      rewrite Hrec by (simpl List.length in *; lia).
      rewrite (regular_case_no_namesake _ _ Hl). reflexivity.
Qed.

(** Beyond the budget nothing at all is recorded. *)
Lemma chain_abandoned links :
  forall obj recursionsLeft fuel res,
    symlink_chain fs (storeDir opts) links obj ->
    no_namesake fs (storeDir opts) links ->
    0 <= recursionsLeft ->
    recursionsLeft + 1 < Z.of_nat (List.length links) ->
    (List.length links <= fuel)%nat ->
    followPathToStore fs opts fuel recursionsLeft res (hd [] links) ft_symlink
    = Some (res, Returned).
Proof.
  induction links as [| l rest IH]; intros obj n fuel res Hc Hn Hpos Hlen Hfuel.
  - contradiction.
  - destruct fuel as [| fuel]; [simpl in Hfuel; lia |].
    inversion Hn as [| ? ? Hl Hrest]; subst.
    cbn [hd]. cbn [followPathToStore].
    destruct (Z.ltb_spec n 0) as [Hneg | _]; [lia |].
    destruct rest as [| l' rest'].
    + simpl List.length in Hlen. lia.
    + destruct Hc as (Ht & Hout & Hst & Hc).
      apply link_target_inv in Ht. destruct Ht as (text & -> & ->).
      rewrite Hst, Hout. cbn [is_not_found].
      assert (Hrec : followPathToStore fs opts fuel (n - 1) res l' ft_symlink
                     = Some (res, Returned)).
      { destruct (Z.eq_dec n 0) as [-> | Hn0].
        - destruct fuel; [simpl in Hfuel; lia | reflexivity].
        - assert (Hrec := IH obj (n - 1) fuel res Hc Hrest).
          cbn [hd] in Hrec. apply Hrec; simpl List.length in *; lia. }
      rewrite Hrec, (regular_case_no_namesake _ _ Hl). reflexivity.
Qed.
(** If a call on the first link of a chain within the budget returns, the
    edge from the store object to the last link is in its result. *)
Lemma chain_edge_recorded links obj fuel res res' o :
  symlink_chain fs (storeDir opts) links obj ->
  no_namesake fs (storeDir opts) links ->
  Z.of_nat (List.length links) <= maxRecursionLevel + 1 ->
  followPathToStore fs opts fuel maxRecursionLevel res (hd [] links) ft_symlink
  = Some (res', o) ->
  has_edge (obj, last links []) res'.
Proof.
  intros Hc Hn Hlen H.
  apply followPathToStore_fuel
    with (fuel' := (fuel + List.length links)%nat) in H; [| lia].
  rewrite (chain_followed links obj maxRecursionLevel _ res Hc Hn Hlen) in H
    by lia.
  inversion H; subst. unfold has_edge, add_store_root. simpl.
  apply add_root_edges_In. now left.
Qed.

(** The tracer never takes an edge out of its result. *)
Lemma edge_kept e fuel recursionsLeft res root status res' o :
  has_edge e res ->
  followPathToStore fs opts fuel recursionsLeft res root status = Some (res', o) ->
  has_edge e res'.
Proof.
  apply (followPathToStore_inv fs opts (has_edge e)).
  - trivial.
  - intros target r res0 _ H. unfold has_edge, add_store_root. simpl.
    apply add_root_edges_In. now right.
  - intros r res0 _ H. unfold has_edge, add_store_root. simpl.
    apply add_root_edges_In. now right.
Qed.

(** The entries of a directory are traced with the budget of the
    directory itself. *)
Lemma directory_entry_traced links obj dir fuel res res' :
  symlink_chain fs (storeDir opts) links obj ->
  no_namesake fs (storeDir opts) links ->
  Z.of_nat (List.length links) <= maxRecursionLevel + 1 ->
  fs_symlink_status fs (hd [] links) = inr ft_symlink ->
  In (hd [] links) (fst (fs_recursive_directory_iterator fs dir)) ->
  followPathToStore fs opts fuel maxRecursionLevel res dir ft_directory
  = Some (res', Returned) ->
  has_edge (obj, last links []) res'.
Proof.
  intros Hc Hn Hlen Hst Hin H.
  destruct fuel as [| fuel]; [discriminate |].
  cbn [followPathToStore] in H. change (maxRecursionLevel <? 0) with false in H.
  cbv iota in H.
  destruct (fs_recursive_directory_iterator fs dir) as [children err].
  simpl in Hin.
  eapply (for_each_visits (has_edge (obj, last links []))); [exact Hin | | | exact H].
  - intros s y s' o Hs Hy. simpl in Hy.
    destruct (fs_symlink_status fs y) as [e | st].
    + inversion Hy; subst; trivial.
    + eapply edge_kept; eauto.
  - intros s s' o Hx. simpl in Hx. rewrite Hst in Hx.
    eapply chain_edge_recorded; eauto.
Qed.

Lemma follow_all_good_root e fuel r roots :
  In r roots ->
  (forall res res1,
     followPathToStore_from fs opts fuel maxRecursionLevel res r = Some res1 ->
     has_edge e res1) ->
  forall res tr, follow_all fs opts fuel roots res = Some tr -> has_edge e tr.
Proof.
  intros Hin Hgood.
  induction roots as [| root roots IH]; [contradiction |].
  simpl. intros res tr.
  destruct (followPathToStore_from fs opts fuel maxRecursionLevel res root)
    as [res1 |] eqn:E; try discriminate.
  destruct Hin as [-> | Hin]; [| now apply IH].
  apply (follow_all_inv fs opts (has_edge e)).
  - trivial.
  - intros target r0 res0 _ H. unfold has_edge, add_store_root. simpl.
    apply add_root_edges_In. now right.
  - intros r0 res0 _ H. unfold has_edge, add_store_root. simpl.
    apply add_root_edges_In. now right.
  - eapply Hgood; eauto.
Qed.

(** A chain within the budget that tracing reaches is in the result of
    the tracer. *)
Lemma followPathsToStore_chain links obj fuel roots tr :
  symlink_chain fs (storeDir opts) links obj ->
  no_namesake fs (storeDir opts) links ->
  Z.of_nat (List.length links) <= maxRecursionLevel + 1 ->
  fs_symlink_status fs (hd [] links) = inr ft_symlink ->
  tracing_reaches fs opts fuel roots (hd [] links) ->
  followPathsToStore fs opts fuel roots = Some tr ->
  has_edge (obj, last links []) tr.
Proof.
  intros Hc Hn Hlen Hst Hreach. unfold followPathsToStore.
  destruct Hreach as [Hin | (dir & Hin & Hdir & Hentry & r0 & Hret)].
  - apply (follow_all_good_root _ fuel _ roots Hin).
    intros res res1. unfold followPathToStore_from. rewrite Hst.
    destruct (followPathToStore fs opts fuel maxRecursionLevel res
                (hd [] links) ft_symlink) as [[r o] |] eqn:E; try discriminate.
    intros H; inversion H; subst. eapply chain_edge_recorded; eauto.
  - apply (follow_all_good_root _ fuel _ roots Hin).
    intros res res1. unfold followPathToStore_from. rewrite Hdir.
    destruct (followPathToStore fs opts fuel maxRecursionLevel res dir
                ft_directory) as [[r o] |] eqn:E; try discriminate.
    intros H; inversion H; subst.
    destruct (followPathToStore_outcome _ _ _ _ _ _ _ _ _ Hret res) as [r2 Hr2].
    rewrite Hr2 in E. inversion E; subst.
    eapply directory_entry_traced; eauto.
Qed.
End Chains.

(** ** The tracer returns *)

Lemma for_each_returns {A S : Type} (body : S -> A -> option (S * outcome))
    after l :
  (forall s x, In x l -> exists r, body s x = Some r) ->
  forall s, exists r, for_each body after l s = Some r.
Proof.
  induction l as [| x l IH]; simpl; intros Hb s.
  - eauto.
  - destruct (Hb s x (or_introl eq_refl)) as [[s1 [| e]] ->]; eauto.
Qed.

Section Termination.
Variable fs : FileSystem.
Variable opts : GlobalOpts.
Variable height : path -> nat.
Variable D : nat.
Hypothesis depth : finite_depth fs height D.

(** In a file system of finite depth a call with a budget of [levels - 1]
    returns when it has the fuel of that many levels. *)
Lemma followPathToStore_returns levels :
  forall recursionsLeft fuel res root status,
    recursionsLeft + 1 = Z.of_nat levels ->
    (level_fuel D levels <= fuel)%nat ->
    exists r, followPathToStore fs opts fuel recursionsLeft res root status = Some r.
Proof.
  destruct depth as [Hbound Hbelow].
  unfold level_fuel.
  induction levels as [| levels IH]; intros n fuel res root status Hn Hfuel.
  - destruct fuel as [| fuel]; [lia |]. simpl.
    destruct (Z.ltb_spec n 0); [eauto | lia].
  - assert (Hpos : (n <? 0) = false) by (apply Z.ltb_ge; lia).
    (* everything but a directory *)
    assert (Hflat : forall fuel res root status,
               status <> ft_directory ->
               (levels * (D + 2) + 2 <= fuel)%nat ->
               exists r, followPathToStore fs opts fuel n res root status = Some r).
    { clear fuel res root status Hfuel.
      intros fuel res root status Hst Hfuel.
      destruct fuel as [| fuel]; [lia |]. simpl. rewrite Hpos.
      destruct status; eauto; try congruence.
      destruct (fs_read_symlink fs root) as [e | link]; eauto.
      destruct (fs_symlink_status fs _) as [e | target_status]; eauto.
      destruct (isInStore (storeDir opts) _); eauto.
      destruct (IH (n - 1) fuel
                  (if is_not_found target_status
                   then not_found root res else res)
                  (Path.parent_path root // link) target_status)
        as [[res2 [| e]] ->]; eauto; lia. }
    (* a directory, by its height *)
    assert (Hdir : forall h fuel res root,
               (height root <= h)%nat ->
               (h + (levels * (D + 2) + 3) <= fuel)%nat ->
               exists r, followPathToStore fs opts fuel n res root ft_directory
                         = Some r).
    { clear fuel res root status Hfuel.
      induction h as [| h IHh]; intros fuel res root Hh Hfuel;
        (destruct fuel as [| fuel]; [lia |]); simpl; rewrite Hpos;
        pose proof (Hbelow root) as Hchildren;
        destruct (fs_recursive_directory_iterator fs root) as [children err];
        simpl in Hchildren;
        apply for_each_returns; intros s child Hin;
        destruct (fs_symlink_status fs child) as [e | st] eqn:Est; eauto;
        destruct st;
        try (apply Hflat; [discriminate | lia]);
        specialize (Hchildren child Hin Est).
      - lia.
      - apply IHh; lia. }
    destruct status; try (apply Hflat; [discriminate | lia]).
    apply (Hdir D); [apply Hbound | lia].
Qed.

Lemma followPathsToStore_returns fuel roots :
  (enough_fuel D <= fuel)%nat ->
  exists tr, followPathsToStore fs opts fuel roots = Some tr.
Proof.
  intros Hfuel. unfold followPathsToStore. generalize emptyTraceResult.
  induction roots as [| root roots IH]; simpl; intros res; eauto.
  unfold followPathToStore_from.
  destruct (fs_symlink_status fs root) as [e | status]; [apply IH |].
  destruct (followPathToStore_returns 3 maxRecursionLevel fuel res root status)
    as [[res1 o] ->]; [reflexivity | exact Hfuel | apply IH].
Qed.

Lemma serve_returns fuel :
  (enough_fuel D <= fuel)%nat -> exists s, serve fuel fs opts = Some s.
Proof.
  intros Hfuel. unfold serve, serve_peer.
  destruct (followPathsToStore_returns fuel (standardRoots opts) Hfuel) as [tr ->].
  destruct (getRuntimeRoots fs opts); eauto.
  destruct (send_response _ _); eauto.
Qed.
End Termination.

(** ** What a served request yields *)

Lemma serve_Responded fuel fs opts tr sent :
  serve fuel fs opts = Some (Responded tr sent) ->
  exists trace runtime,
    followPathsToStore fs opts fuel (standardRoots opts) = Some trace
    /\ getRuntimeRoots fs opts = inr runtime
    /\ tr = mkTraceResult
              (RootsMap.insert_range (storeRoots trace) runtime)
              (deadLinks trace)
    /\ sent = sock_received (send_response tr (Connected "" Stays)).
Proof.
  unfold serve, serve_peer.
  destruct (followPathsToStore fs opts fuel (standardRoots opts)) as [trace |];
    try discriminate.
  destruct (getRuntimeRoots fs opts) as [e | runtime]; try discriminate.
  destruct (send_response _ _) as [sent' p' | sent'] eqn:Esend; try discriminate.
  intros H. inversion H; subst. exists trace, runtime.
  rewrite Esend. repeat split; reflexivity.
Qed.

Lemma sorted_roots_empty : sorted_roots RootsMap.empty.
Proof.
  split; constructor.
Qed.

Lemma followPathsToStore_sorted fs opts fuel roots tr :
  followPathsToStore fs opts fuel roots = Some tr -> sorted_result tr.
Proof.
  unfold followPathsToStore.
  apply (follow_all_inv fs opts sorted_result).
  - intros root res [Hr Hd]. split; trivial. now apply set_insert_sorted.
  - intros target root res _ [Hr Hd]. split; trivial. now apply add_root_sorted.
  - intros root res _ [Hr Hd]. split; trivial. now apply add_root_sorted.
  - split; [apply sorted_roots_empty | constructor].
Qed.

Lemma getRuntimeRoots_sorted fs opts res :
  getRuntimeRoots fs opts = inr res -> sorted_roots res.
Proof.
  apply (getRuntimeRoots_inv fs opts sorted_roots).
  - intros. now apply add_root_sorted.
  - intros. now apply add_root_sorted.
  - apply sorted_roots_empty.
Qed.

Lemma serve_sorted fuel fs opts tr sent :
  serve fuel fs opts = Some (Responded tr sent) -> sorted_result tr.
Proof.
  intros H. apply serve_Responded in H.
  destruct H as (trace & runtime & Ht & Hr & -> & _).
  apply followPathsToStore_sorted in Ht. destruct Ht as [Ht Hd].
  apply getRuntimeRoots_sorted in Hr. destruct Hr as [_ Hr].
  split; simpl; trivial. now apply insert_range_sorted.
Qed.

(** ** The layout of a response *)

Lemma concat_lines_app l1 l2 :
  concat_lines (l1 ++ l2) = (concat_lines l1 ++ concat_lines l2)%string.
Proof.
  induction l1 as [| x l1 IH]; simpl; trivial.
  now rewrite IH, string_app_assoc.
Qed.

(** The three loops hand their data to [send] piece by piece. *)
Lemma send_roots_of_key k roots :
  forall sock,
    fold_left
      (fun sock externalRoot =>
         let sock := send sock (Path.to_string k) in
         let sock := send sock TAB in
         let sock := send sock (Path.to_string externalRoot) in
         send sock LF)
      roots sock
    = fold_left send
        (flat_map (fun e => [ Path.to_string (fst e); TAB;
                              Path.to_string (snd e); LF ])
           (map (fun r => (k, r)) roots))
        sock.
Proof.
  induction roots as [| r roots IH]; intros sock; simpl; trivial.
Qed.

Lemma send_store_roots_data m :
  forall sock,
    send_store_roots m sock
    = fold_left send
        (flat_map (fun e => [ Path.to_string (fst e); TAB;
                              Path.to_string (snd e); LF ])
           (RootsMap.edges m))
        sock.
Proof.
  unfold send_store_roots.
  induction m as [| [k roots] m IH]; intros sock; trivial.
  cbn [fold_left RootsMap.edges flat_map fst snd].
  rewrite IH, send_roots_of_key, flat_map_app, fold_left_app. reflexivity.
Qed.

Lemma send_dead_links_data dead :
  forall sock,
    send_dead_links dead sock
    = fold_left send (flat_map (fun d => [ Path.to_string d; LF ]) dead) sock.
Proof.
  unfold send_dead_links.
  induction dead as [| d dead IH]; intros sock; simpl; trivial.
Qed.

Lemma send_response_data tr sock :
  send_response tr sock = fold_left send (response_data tr) sock.
Proof.
  unfold send_response, response_data.
  rewrite send_dead_links_data, send_store_roots_data, !fold_left_app.
  reflexivity.
Qed.

Lemma response_data_concat tr :
  concat_lines (response_data tr)
  = (concat_lines (store_section tr) ++ LF
     ++ concat_lines (dead_section tr))%string.
Proof.
  unfold response_data, store_section, dead_section.
  rewrite !concat_lines_app. f_equal; [| f_equal].
  - induction (RootsMap.edges (storeRoots tr)) as [| e l IH]; simpl; trivial.
    rewrite IH. unfold store_line. now rewrite !string_app_assoc.
  - induction (deadLinks tr) as [| d l IH]; simpl; trivial.
    rewrite IH. unfold dead_line. now rewrite !string_app_assoc.
Qed.

Lemma response_data_length tr :
  List.length (response_data tr) = response_sends tr.
Proof.
  unfold response_data, response_sends. rewrite !length_app.
  assert (H1 : forall l : list (path * path),
             List.length
               (flat_map (fun e => [ Path.to_string (fst e); TAB;
                                     Path.to_string (snd e); LF ]) l)
             = (4 * List.length l)%nat)
    by (induction l as [| e l IH]; simpl in *; lia).
  assert (H2 : forall l : list path,
             List.length (flat_map (fun d => [ Path.to_string d; LF ]) l)
             = (2 * List.length l)%nat)
    by (induction l as [| d l IH]; simpl in *; lia).
  rewrite H1, H2. simpl List.length. lia.
Qed.

(** The last call of [send] of a response sends a line feed. *)
Lemma response_data_last tr :
  exists l, response_data tr = l ++ [ LF ].
Proof.
  unfold response_data.
  destruct (deadLinks tr) as [| d dead _] using rev_ind.
  - eexists. simpl. reflexivity.
  - exists (flat_map (fun e => [ Path.to_string (fst e); TAB;
                                 Path.to_string (snd e); LF ])
              (RootsMap.edges (storeRoots tr))
            ++ [ LF ]
            ++ flat_map (fun d => [ Path.to_string d; LF ]) dead
            ++ [ Path.to_string d ]).
    rewrite flat_map_app, <- !app_assoc. reflexivity.
Qed.

(** A peer that stays receives everything. *)
Lemma send_all_Stays l :
  forall sent,
    fold_left send l (Connected sent Stays)
    = Connected (sent ++ concat_lines l) Stays.
Proof.
  induction l as [| x l IH]; intros sent; simpl.
  - now rewrite string_app_nil_r.
  - rewrite IH. now rewrite string_app_assoc.
Qed.

Lemma send_all_Sigpipe l sent :
  fold_left send l (Sigpipe sent) = Sigpipe sent.
Proof.
  induction l as [| x l IH]; simpl; trivial.
Qed.

(** A peer that hangs up after [n] calls receives the data of the first
    [n]; a further call ends the process. *)
Lemma send_all_HangsUp l :
  forall n sent,
    fold_left send l (Connected sent (HangsUpAfter n))
    = if (List.length l <=? n)%nat
      then Connected (sent ++ concat_lines l)
             (HangsUpAfter (n - List.length l))
      else Sigpipe (sent ++ concat_lines (firstn n l)).
Proof.
  induction l as [| x l IH]; intros n sent.
  - simpl. rewrite string_app_nil_r, Nat.sub_0_r. reflexivity.
  - destruct n as [| n].
    + simpl. rewrite send_all_Sigpipe, string_app_nil_r. reflexivity.
    + cbn [fold_left send List.length firstn concat_lines Nat.leb Nat.sub].
      rewrite IH. now rewrite !string_app_assoc.
Qed.

Lemma concat_lines_firstn_skipn n l :
  concat_lines l
  = (concat_lines (firstn n l) ++ concat_lines (skipn n l))%string.
Proof.
  now rewrite <- concat_lines_app, firstn_skipn.
Qed.

Lemma concat_lines_tail_nonempty n l :
  (n < List.length (l ++ [ LF ]))%nat ->
  concat_lines (skipn n (l ++ [ LF ])) <> "".
Proof.
  revert n. induction l as [| x l IH]; intros n Hn.
  - simpl in Hn. assert (n = 0%nat) by lia. subst. discriminate.
  - destruct n as [| n].
    + cbn [skipn]. rewrite concat_lines_app. simpl.
      destruct x; [| discriminate].
      simpl. destruct (concat_lines l); discriminate.
    + simpl. apply IH. simpl in Hn. lia.
Qed.

Lemma send_response_spec tr :
  sock_received (send_response tr (Connected "" Stays))
  = (concat_lines (store_section tr) ++ LF
     ++ concat_lines (dead_section tr))%string.
Proof.
  rewrite send_response_data, send_all_Stays. simpl.
  apply response_data_concat.
Qed.

(** What the peer makes of a request that would be answered. *)
Lemma serve_peer_spec p fuel fs opts tr response :
  serve fuel fs opts = Some (Responded tr response) ->
  if peer_hears p (response_sends tr)
  then serve_peer p fuel fs opts = Some (Responded tr response)
  else serve_peer p fuel fs opts
       = Some (Sigpiped (concat_lines (heard p (response_data tr))))
       /\ exists rest,
            response = (concat_lines (heard p (response_data tr)) ++ rest)%string
            /\ rest <> "".
Proof.
  unfold serve, serve_peer.
  destruct (followPathsToStore fs opts fuel (standardRoots opts)) as [trace |];
    try discriminate.
  destruct (getRuntimeRoots fs opts) as [e | runtime]; try discriminate.
  rewrite !send_response_data, send_all_Stays. simpl.
  intros H. inversion H; subst; clear H.
  destruct p as [| n]; simpl.
  - now rewrite send_all_Stays.
  - rewrite send_all_HangsUp, response_data_length. simpl.
    match goal with |- context [response_sends ?t] => set (tr := t) end.
    destruct (Nat.leb_spec (response_sends tr) n) as [Hle | Hgt]; trivial.
    split; [reflexivity |].
    exists (concat_lines (skipn n (response_data tr))).
    split; [apply concat_lines_firstn_skipn |].
    destruct (response_data_last tr) as [l Hl].
    rewrite Hl. apply concat_lines_tail_nonempty.
    rewrite <- Hl, response_data_length. exact Hgt.
Qed.

Lemma serve_peer_Escaped p fuel fs opts e :
  serve fuel fs opts = Some (Escaped e) ->
  serve_peer p fuel fs opts = Some (Escaped e).
Proof.
  unfold serve, serve_peer.
  destruct (followPathsToStore fs opts fuel (standardRoots opts)) as [trace |];
    try discriminate.
  destruct (getRuntimeRoots fs opts) as [e' | runtime]; trivial.
  destruct (send_response _ (Connected "" Stays)); discriminate.
Qed.

Lemma serve_Stays_outcome fuel fs opts sent :
  serve fuel fs opts <> Some (Sigpiped sent).
Proof.
  unfold serve, serve_peer.
  destruct (followPathsToStore fs opts fuel (standardRoots opts)) as [trace |];
    try discriminate.
  destruct (getRuntimeRoots fs opts) as [e' | runtime]; try discriminate.
  rewrite send_response_data, send_all_Stays. discriminate.
Qed.

Lemma lines_of_other_key k k0 (v : pathset) :
  k0 <> k ->
  filter (fun e : path * path => Path.eqb (fst e) k) (map (fun r => (k0, r)) v) = [].
Proof.
  intros Hne. induction v as [| r v IH]; simpl; trivial.
  destruct (Path.eqb k0 k) eqn:E; trivial.
  apply path_eqb_eq in E. contradiction.
Qed.

Lemma lines_of_same_key k (v : pathset) :
  map snd (filter (fun e : path * path => Path.eqb (fst e) k)
             (map (fun r => (k, r)) v)) = v.
Proof.
  induction v as [| r v IH]; simpl; trivial.
  rewrite (proj2 (path_eqb_eq k k) eq_refl). simpl. now rewrite IH.
Qed.

Lemma lines_of_absent_key k m :
  ~ In k (RootsMap.keys m) -> lines_of_key k m = [].
Proof.
  unfold lines_of_key, RootsMap.edges, RootsMap.keys.
  induction m as [| [k0 v] m IH]; simpl; intros Hk; trivial.
  rewrite filter_app, lines_of_other_key, IH; tauto.
Qed.

(** A store object with [k] external roots is on [k] lines, one for each
    root and in the order of the set. *)
Lemma lines_of_key_spec k roots m :
  sorted_roots m -> In (k, roots) m -> map snd (lines_of_key k m) = roots.
Proof.
  unfold sorted_roots. intros [Hk _]. revert Hk.
  induction m as [| [k0 v] m IH]; simpl; intros Hk Hin; [contradiction |].
  apply StronglySorted_inv in Hk. destruct Hk as [Hk Hk0].
  rewrite Forall_forall in Hk0.
  unfold lines_of_key, RootsMap.edges in *. simpl.
  rewrite filter_app, map_app.
  destruct Hin as [E | Hin].
  - inversion E; subst k0 v. rewrite lines_of_same_key.
    fold (RootsMap.edges m). fold (lines_of_key k m).
    rewrite lines_of_absent_key; [apply app_nil_r |].
    intros Hk'. exact (path_lt_irrefl k (Hk0 k Hk')).
  - rewrite lines_of_other_key.
    + now apply IH.
    + intros ->. apply (path_lt_irrefl k). apply Hk0.
      unfold RootsMap.keys. apply in_map_iff. now exists (k, roots).
Qed.

(** ** The in-store test *)

Lemma element_eqb_eq (h n : string) : Path.eqb [h] [n] = true <-> h = n.
Proof.
  rewrite path_eqb_eq. split; congruence.
Qed.

Lemma starts_with_spec hay needle :
  starts_with hay needle = true <-> exists rest, hay = needle ++ rest.
Proof.
  revert hay. induction needle as [| n needle IH]; intros hay; simpl.
  - split; [intros _; now exists hay | intros _; now destruct hay].
  - destruct hay as [| h hay]; simpl.
    + split; [discriminate | intros [rest H]; discriminate].
    + rewrite andb_true_iff, element_eqb_eq, IH. split.
      * intros [-> [rest ->]]. now exists rest.
      * intros [rest H]. inversion H; subst. eauto.
Qed.

(** [isInStore] accepts the paths that begin, element by element, with
    the store root, and the empty path. *)
Lemma isInStore_spec store dir :
  isInStore store dir = true <-> dir = [] \/ exists rest, dir = store ++ rest.
Proof.
  unfold isInStore. rewrite Nat.eqb_eq, <- starts_with_spec.
  destruct dir as [| h dir]; cbn [search].
  - destruct (starts_with [] store); intuition.
  - destruct (starts_with (h :: dir) store); split; auto.
    + discriminate.
    + intros [H | H]; discriminate.
Qed.

(** ** Merging the runtime roots into the roots of the tracer *)

Lemma find_In_keys k v m : RootsMap.find k m = Some v -> In k (RootsMap.keys m).
Proof.
  induction m as [| [k0 v0] m IH]; simpl; try discriminate.
  destruct (Path.eqb k k0) eqn:E.
  - apply path_eqb_eq in E. auto.
  - auto.
Qed.

(** [std::map::insert] leaves the value of a key that is present alone. *)
Lemma map_insert_find_present kv k v m :
  sorted_roots m -> RootsMap.find k m = Some v ->
  RootsMap.find k (RootsMap.insert kv m) = Some v.
Proof.
  intros [Hs _]. unfold RootsMap.keys in Hs. destruct kv as [kk vv].
  induction m as [| [k0 v0] m IH]; simpl; try discriminate.
  apply StronglySorted_inv in Hs. destruct Hs as [Hs Hk0].
  intros Hf.
  destruct (Path.compare kk k0) eqn:E; simpl.
  - exact Hf.
  - destruct (Path.eqb k kk) eqn:E'; trivial.
    apply path_eqb_eq in E'. subst k. exfalso.
    destruct (Path.eqb kk k0) eqn:E0.
    + apply path_eqb_eq in E0. rewrite E0, path_compare_refl in E. discriminate.
    + apply find_In_keys in Hf. rewrite Forall_forall in Hk0.
      apply (path_lt_irrefl kk).
      eapply path_lt_trans; [exact E | now apply Hk0].
  - destruct (Path.eqb k k0); trivial. auto.
Qed.

(** The merge of [main]: a key of the tracer keeps the set the tracer
    found, whatever the runtime scanner found for it. *)
Lemma insert_range_find_present range :
  forall m k v,
    sorted_roots m -> Forall (fun kv => sorted_set (snd kv)) range ->
    RootsMap.find k m = Some v ->
    RootsMap.find k (RootsMap.insert_range m range) = Some v.
Proof.
  unfold RootsMap.insert_range.
  induction range as [| kv range IH]; simpl; intros m k v Hm Hr Hf; trivial.
  inversion Hr; subst.
  apply IH; trivial.
  - now apply map_insert_sorted.
  - now apply map_insert_find_present.
Qed.

Lemma map_insert_edges_In kv e m :
  In e (RootsMap.edges m) -> In e (RootsMap.edges (RootsMap.insert kv m)).
Proof.
  unfold RootsMap.edges.
  induction m as [| [k0 v] m IH]; simpl; [contradiction |].
  destruct (Path.compare (fst kv) k0); simpl; trivial.
  - rewrite !in_app_iff. intuition.
  - rewrite !in_app_iff. intuition.
Qed.

Lemma insert_range_edges_In range :
  forall m e, In e (RootsMap.edges m) ->
              In e (RootsMap.edges (RootsMap.insert_range m range)).
Proof.
  unfold RootsMap.insert_range.
  induction range as [| kv range IH]; simpl; intros m e H; trivial.
  apply IH. now apply map_insert_edges_In.
Qed.

Lemma insert_range_keys_In range :
  forall m k, In k (RootsMap.keys (RootsMap.insert_range m range)) ->
              In k (RootsMap.keys m) \/ In k (RootsMap.keys range).
Proof.
  unfold RootsMap.insert_range.
  induction range as [| kv range IH]; simpl; intros m k H; auto.
  apply IH in H. destruct H as [H | H]; auto.
  apply map_insert_keys_In in H. destruct H as [-> | H]; auto.
Qed.

(* ================================================================= *)
(** * The claims of the specification *)

(** ** The hop budget *)

(** Claim C1, as the program has it. Tracing starts at the first link of a
    chain with the budget [maxRecursionLevel] = 2; every link that
    resolves outside the store costs one unit, and a call that finds the
    budget negative returns at once. A chain of at most three links is
    therefore followed to its store object, which gets the last link as
    its root; of a chain of four links or more nothing is recorded. *)
Theorem hop_budget_decides_chain fs opts links obj res fuel :
  symlink_chain fs (storeDir opts) links obj ->
  no_namesake fs (storeDir opts) links ->
  (List.length links <= fuel)%nat ->
  followPathToStore fs opts fuel maxRecursionLevel res (hd [] links) ft_symlink
  = Some (if (List.length links <=? 3)%nat
          then add_store_root obj (last links []) res
          else res,
          Returned).
Proof.
  intros Hc Hn Hfuel. unfold maxRecursionLevel.
  destruct (Nat.leb_spec (List.length links) 3) as [Hle | Hgt].
  - apply chain_followed; trivial. lia.
  - apply chain_abandoned with (obj := obj); trivial; lia.
Qed.

Lemma hop_budget_decides_chain_witness :
  followPathToStore (Sim.fs Sim.four_hops) Sim.opts 4 maxRecursionLevel
    emptyTraceResult ["/"; "v"; "gcroots"; "a"] ft_symlink
  = Some (emptyTraceResult, Returned).
Proof.
  apply (hop_budget_decides_chain (Sim.fs Sim.four_hops) Sim.opts
           [ ["/"; "v"; "gcroots"; "a"]; ["/"; "t"; "b"];
             ["/"; "t"; "c"]; ["/"; "t"; "d"] ]
           ["/"; "s"; "obj"] emptyTraceResult 4).
  - simpl. repeat split; try reflexivity.
    exists ft_directory. split; reflexivity.
  - repeat constructor.
  - simpl. lia.
Defined.

(** Claim C1 as stated fails: for the chain
    [/v/gcroots/a -> /t/b -> /t/c -> /s/obj] of three links the response
    does have an entry for [/s/obj]. *)
Lemma three_hop_chain_is_reported :
  symlink_chain (Sim.fs Sim.three_hops) (storeDir Sim.opts)
    [ ["/"; "v"; "gcroots"; "a"]; ["/"; "t"; "b"]; ["/"; "t"; "c"] ]
    ["/"; "s"; "obj"]
  /\ serve 10 (Sim.fs Sim.three_hops) Sim.opts
     = Some (Responded
               (mkTraceResult
                  [ (["/"; "s"; "obj"], [ ["/"; "t"; "c"] ]) ] [])
               ("/s/obj" ++ TAB ++ "/t/c" ++ LF ++ LF)%string).
Proof.
  split.
  - simpl. repeat split; try reflexivity.
    exists ft_directory. split; reflexivity.
  - vm_compute. reflexivity.
Qed.

(** Claim C2, as the program has it. When tracing reaches the first
    link of a chain of at most two links that ends in a store object, the
    roots map of the response has the store object with the LAST link of
    the chain, the one that points into the store, as a root, and the
    store section has the line of that edge. *)
Theorem chain_root_is_last_link fuel fs opts links obj tr sent :
  symlink_chain fs (storeDir opts) links obj ->
  no_namesake fs (storeDir opts) links ->
  (List.length links <= 2)%nat ->
  fs_symlink_status fs (hd [] links) = inr ft_symlink ->
  tracing_reaches fs opts fuel (standardRoots opts) (hd [] links) ->
  serve fuel fs opts = Some (Responded tr sent) ->
  has_edge (obj, last links []) tr
  /\ In (store_line (obj, last links [])) (store_section tr).
Proof.
  intros Hc Hn Hlen Hst Hreach H.
  apply serve_Responded in H. destruct H as (trace & runtime & Ht & _ & -> & _).
  assert (Hedge : has_edge (obj, last links []) trace).
  { eapply followPathsToStore_chain; eauto. unfold maxRecursionLevel. lia. }
  assert (Hkept : In (obj, last links [])
                     (RootsMap.edges
                        (RootsMap.insert_range (storeRoots trace) runtime)))
    by now apply insert_range_edges_In.
  split; [exact Hkept |].
  unfold store_section. simpl. now apply in_map.
Qed.

Lemma chain_root_is_last_link_witness :
  let tr := mkTraceResult
              [ (["/"; "s"; "xyz-thing"], [ ["/"; "home"; "u"; "profile"] ]) ]
              [] in
  let edge := (["/"; "s"; "xyz-thing"], ["/"; "home"; "u"; "profile"]) in
  has_edge edge tr /\ In (store_line edge) (store_section tr).
Proof.
  cbv zeta.
  apply (chain_root_is_last_link 10 (Sim.fs Sim.two_hops) Sim.opts
           [ ["/"; "v"; "gcroots"; "a"]; ["/"; "home"; "u"; "profile"] ]
           ["/"; "s"; "xyz-thing"]
           (mkTraceResult
              [ (["/"; "s"; "xyz-thing"], [ ["/"; "home"; "u"; "profile"] ]) ]
              [])
           ("/s/xyz-thing" ++ TAB ++ "/home/u/profile" ++ LF ++ LF)%string).
  - simpl. repeat split; try reflexivity.
    exists ft_directory. split; reflexivity.
  - repeat constructor.
  - simpl. lia.
  - reflexivity.
  - right. exists ["/"; "v"; "gcroots"].
    split; [simpl; now left |]. split; [reflexivity |].
    split; [simpl; now left |].
    eexists. vm_compute. reflexivity.
  - vm_compute. reflexivity.
Defined.

(** Claim C2 as stated fails: for [/v/gcroots/a -> /home/u/profile ->
    /s/xyz-thing] the entry of [/s/xyz-thing] lists the intermediate link
    [/home/u/profile], and not [/v/gcroots/a]. *)
Lemma two_hop_root_is_not_first_link :
  exists tr sent,
    serve 10 (Sim.fs Sim.two_hops) Sim.opts = Some (Responded tr sent)
    /\ RootsMap.find ["/"; "s"; "xyz-thing"] (storeRoots tr)
       = Some [ ["/"; "home"; "u"; "profile"] ]
    /\ ~ has_edge (["/"; "s"; "xyz-thing"], ["/"; "v"; "gcroots"; "a"]) tr
    /\ sent = ("/s/xyz-thing" ++ TAB ++ "/home/u/profile" ++ LF ++ LF)%string.
Proof.
  eexists. eexists. split; [vm_compute; reflexivity |].
  split; [reflexivity |]. split; [| reflexivity].
  unfold has_edge. simpl. intros [H | []]. discriminate.
Qed.

(** ** The keys of the roots map *)

(** Claim C3, as the program has it. Every key of the roots map of a
    response is of one of three kinds: a path that [isInStore] accepts,
    that is one that begins, element by element, with the store root, or
    the empty path (the symlink targets of the tracer, the exe, cwd and fd
    probes, the paths of the maps lines; any number of elements may follow
    the store root, and none of them has to obey the lexical rule); the
    store root joined with the file name of a traced path (the
    regular-file probe); or the path spelled by the store root, a
    separator and a name that obeys the lexical rule (the content
    scans). *)
Theorem response_keys fuel fs opts tr sent :
  serve fuel fs opts = Some (Responded tr sent) ->
  forall k, In k (RootsMap.keys (storeRoots tr)) -> roots_key (storeDir opts) k.
Proof.
  intros H. apply serve_Responded in H.
  destruct H as (trace & runtime & Ht & Hr & -> & _). simpl.
  assert (Htrace : forall k, In k (RootsMap.keys (storeRoots trace)) ->
                             roots_key (storeDir opts) k).
  { revert Ht. unfold followPathsToStore.
    apply (follow_all_inv fs opts
             (fun res => forall k, In k (RootsMap.keys (storeRoots res)) ->
                                   roots_key (storeDir opts) k)).
    - trivial.
    - intros target root res Hin IH k Hk. simpl in Hk.
      apply add_root_keys_In in Hk. destruct Hk as [-> | Hk]; auto.
      now left.
    - intros root res _ IH k Hk. simpl in Hk.
      apply add_root_keys_In in Hk. destruct Hk as [-> | Hk]; auto.
      right; left. now exists root.
    - simpl. contradiction. }
  assert (Hruntime : forall k, In k (RootsMap.keys runtime) ->
                               roots_key (storeDir opts) k).
  { revert Hr.
    apply (getRuntimeRoots_inv fs opts
             (fun res => forall k, In k (RootsMap.keys res) ->
                                   roots_key (storeDir opts) k)).
    - intros k0 root res Hin IH k Hk.
      apply add_root_keys_In in Hk. destruct Hk as [-> | Hk]; auto.
      now left.
    - intros n root res Hn IH k Hk.
      apply add_root_keys_In in Hk. destruct Hk as [-> | Hk]; auto.
      right; right. now exists n.
    - simpl. contradiction. }
  intros k Hk. apply insert_range_keys_In in Hk. destruct Hk; auto.
Qed.

Lemma response_keys_witness :
  roots_key ["/"; "s"] ["/"; "s"; "abc-hello"; "bin"; "hello"].
Proof.
  apply (response_keys 10 (Sim.fs Sim.running) Sim.opts
           (mkTraceResult
              [ (["/"; "s"; "abc-hello"; "bin"; "hello"],
                 [ ["/"; "proc"; "42"; "exe"] ]) ] [])
           ("/s/abc-hello/bin/hello" ++ TAB ++ "/proc/42/exe" ++ LF ++ LF)%string).
  - vm_compute. reflexivity.
  - simpl. now left.
Defined.

(** Claim C3 as stated fails: when process 42 runs
    [/s/abc-hello/bin/hello], that path is a key of the response, and it
    has two elements below the store object. *)
Lemma key_below_store_object :
  exists tr sent k,
    serve 10 (Sim.fs Sim.running) Sim.opts = Some (Responded tr sent)
    /\ In k (RootsMap.keys (storeRoots tr))
    /\ k = ["/"; "s"; "abc-hello"; "bin"; "hello"]
    /\ store_object_path (storeDir Sim.opts) k = false.
Proof.
  do 3 eexists. split; [vm_compute; reflexivity |].
  split; [simpl; left; reflexivity |]. split; reflexivity.
Qed.

(** ** Dead links and roots *)

(** Claim C4 fails on a symbolic link that points at a missing path in the
    store: [/v/gcroots/a -> /s/gone] is reported as a dead link and, in the
    same response, as the root of [/s/gone]. *)
Theorem dangling_store_link_is_dead_and_root :
  exists tr sent,
    serve 10 (Sim.fs Sim.dangling_into_store) Sim.opts = Some (Responded tr sent)
    /\ has_edge (["/"; "s"; "gone"], ["/"; "v"; "gcroots"; "a"]) tr
    /\ In ["/"; "v"; "gcroots"; "a"] (deadLinks tr)
    /\ sent = ("/s/gone" ++ TAB ++ "/v/gcroots/a" ++ LF ++ LF
               ++ "/v/gcroots/a" ++ LF)%string.
Proof.
  do 2 eexists. split; [vm_compute; reflexivity |].
  split; [left; reflexivity |]. split; [left; reflexivity | reflexivity].
Qed.

(** The same happens through the missing [break] of the symlink case: a
    dead link whose file name is that of a store object is also reported
    as a root of that object. *)
Lemma dangling_namesake_is_dead_and_root :
  exists tr sent,
    serve 10 (Sim.fs Sim.dangling_namesake) Sim.opts = Some (Responded tr sent)
    /\ has_edge (["/"; "s"; "abc-hello"], ["/"; "v"; "gcroots"; "abc-hello"]) tr
    /\ In ["/"; "v"; "gcroots"; "abc-hello"] (deadLinks tr).
Proof.
  do 2 eexists. split; [vm_compute; reflexivity |].
  split; left; reflexivity.
Qed.

(** ** The merge of the runtime roots *)

(** Claim C5 fails on a store path that both scans find:
    [/s/abc-hello] is the target of [/v/gcroots/a] and the executable of
    process 42, and the response lists it with [/v/gcroots/a] alone. *)
Theorem runtime_root_of_shared_key_is_dropped :
  let fs := Sim.fs Sim.rooted_and_running in
  let k := ["/"; "s"; "abc-hello"] in
  exists trace runtime tr sent,
    followPathsToStore fs Sim.opts 10 (standardRoots Sim.opts) = Some trace
    /\ getRuntimeRoots fs Sim.opts = inr runtime
    /\ serve 10 fs Sim.opts = Some (Responded tr sent)
    /\ RootsMap.find k (storeRoots trace) = Some [ ["/"; "v"; "gcroots"; "a"] ]
    /\ RootsMap.find k runtime = Some [ ["/"; "proc"; "42"; "exe"] ]
    /\ RootsMap.find k (storeRoots tr) = Some [ ["/"; "v"; "gcroots"; "a"] ]
    /\ sent = ("/s/abc-hello" ++ TAB ++ "/v/gcroots/a" ++ LF ++ LF)%string.
Proof.
  cbv zeta. do 4 eexists.
  split; [vm_compute; reflexivity |].
  split; [vm_compute; reflexivity |].
  split; [vm_compute; reflexivity |].
  repeat split; reflexivity.
Qed.

(** It happens for every such key: the set that the tracer found is what
    the response has. *)
Lemma shared_key_keeps_tracer_roots fuel fs opts tr sent :
  serve fuel fs opts = Some (Responded tr sent) ->
  exists trace,
    followPathsToStore fs opts fuel (standardRoots opts) = Some trace
    /\ forall k roots,
         RootsMap.find k (storeRoots trace) = Some roots ->
         RootsMap.find k (storeRoots tr) = Some roots.
Proof.
  intros H. apply serve_Responded in H.
  destruct H as (trace & runtime & Ht & Hr & -> & _).
  exists trace. split; trivial. simpl. intros k roots Hf.
  apply followPathsToStore_sorted in Ht. destruct Ht as [Ht _].
  apply getRuntimeRoots_sorted in Hr. destruct Hr as [_ Hr].
  now apply insert_range_find_present.
Qed.

(** ** The accept loop *)

Lemma consider_fds_error fs procEntry paths entries e :
  fs_directory_iterator fs (procEntry // ["fd"]) = (entries, Some e) ->
  (e = ENOENT \/ e = EACCES ->
   exists paths', consider_fds fs procEntry paths = inr paths')
  /\ (e <> ENOENT -> e <> EACCES -> consider_fds fs procEntry paths = inl e).
Proof.
  intros Hit. unfold consider_fds. rewrite Hit.
  destruct (Z.eqb_spec e ENOENT) as [E1 | H1];
    destruct (Z.eqb_spec e EACCES) as [E2 | H2]; simpl; split;
    try tauto; eauto.
Qed.

(** A process directory whose [fd] directory cannot be listed, for a
    reason other than [ENOENT] and [EACCES], ends the scan. *)
Lemma scan_process_fd_error fs opts res procEntry entries e :
  regex_match digitsRegex (Path.to_string (Path.filename procEntry)) <> None ->
  fs_is_directory fs procEntry = inr true ->
  fs_directory_iterator fs (procEntry // ["fd"]) = (entries, Some e) ->
  e <> ENOENT -> e <> EACCES ->
  scan_process fs opts res procEntry = inl e.
Proof.
  intros Hpid Hdir Hit H1 H2. unfold scan_process.
  destruct (regex_match digitsRegex _); [| congruence].
  rewrite Hdir. cbn [bind negb].
  destruct (consider_fds_error fs procEntry
              (PathSet.insert (procEntry // ["cwd"])
                 (PathSet.insert (procEntry // ["exe"]) PathSet.empty))
              entries e Hit) as [_ Hthrow].
  rewrite (Hthrow H1 H2). reflexivity.
Qed.

Lemma scan_processes_throws fs opts before procEntry after :
  (forall res, exists e, scan_process fs opts res procEntry = inl e) ->
  forall res,
    exists e, scan_processes fs opts (before ++ procEntry :: after) res = inl e.
Proof.
  intros Hthrow. induction before as [| x before IH]; intros res; simpl.
  - destruct (Hthrow res) as [e ->]. simpl. eauto.
  - destruct (scan_process fs opts res x) as [e | res1]; simpl; eauto.
Qed.

Lemma getRuntimeRoots_fd_error fs opts before procEntry after err entries e :
  fs_exists fs ["/"; "proc"] = inr true ->
  fs_directory_iterator fs ["/"; "proc"] = (before ++ procEntry :: after, err) ->
  regex_match digitsRegex (Path.to_string (Path.filename procEntry)) <> None ->
  fs_is_directory fs procEntry = inr true ->
  fs_directory_iterator fs (procEntry // ["fd"]) = (entries, Some e) ->
  e <> ENOENT -> e <> EACCES ->
  exists e', getRuntimeRoots fs opts = inl e'.
Proof.
  intros Hproc Hlist Hpid Hdir Hit H1 H2.
  unfold getRuntimeRoots. rewrite Hproc. cbn [bind negb]. rewrite Hlist.
  destruct (scan_processes_throws fs opts before procEntry after) with
    (res := RootsMap.empty) as [e' ->].
  - intros res. exists e. eapply scan_process_fd_error; eauto.
  - simpl. eauto.
Qed.

(** With the errors that are passed over alone, the scan completes. *)
Lemma scanFileContent_returns fs opts fileToScan res :
  (forall p, exists b, fs_exists fs p = inr b) ->
  exists res', scanFileContent fs opts fileToScan res = inr res'.
Proof.
  intros Hex. unfold scanFileContent.
  destruct (Hex fileToScan) as [[|] ->]; simpl; eauto.
Qed.

Lemma scanMapsFile_returns fs opts mapsFile res :
  (forall p, exists b, fs_exists fs p = inr b) ->
  exists res', scanMapsFile fs opts mapsFile res = inr res'.
Proof.
  intros Hex. unfold scanMapsFile.
  destruct (Hex mapsFile) as [[|] ->]; simpl; eauto.
Qed.

Lemma scan_process_returns fs opts res procEntry :
  (forall p, exists b, fs_exists fs p = inr b) ->
  (forall p, exists b, fs_is_directory fs p = inr b) ->
  (forall e, snd (fs_directory_iterator fs (procEntry // ["fd"])) = Some e ->
             e = ENOENT \/ e = EACCES) ->
  exists res', scan_process fs opts res procEntry = inr res'.
Proof.
  intros Hex Hdir Hfd. unfold scan_process.
  destruct (regex_match digitsRegex _); eauto.
  destruct (Hdir procEntry) as [[|] ->]; cbn [bind negb]; eauto.
  assert (Hc : exists paths',
             consider_fds fs procEntry
               (PathSet.insert (procEntry // ["cwd"])
                  (PathSet.insert (procEntry // ["exe"]) PathSet.empty))
             = inr paths').
  { unfold consider_fds.
    destruct (fs_directory_iterator fs (procEntry // ["fd"])) as [fdFiles [e |]];
      eauto.
    destruct (Hfd e eq_refl) as [-> | ->]; simpl; eauto. }
  destruct Hc as [paths' ->]. cbn [bind].
  destruct (scanFileContent_returns fs opts (procEntry // ["environ"])
              (probe_links fs opts paths' res) Hex) as [res1 ->].
  cbn [bind]. now apply scanMapsFile_returns.
Qed.

Lemma scan_processes_returns fs opts entries :
  (forall p, exists b, fs_exists fs p = inr b) ->
  (forall p, exists b, fs_is_directory fs p = inr b) ->
  (forall procEntry e,
     In procEntry entries ->
     snd (fs_directory_iterator fs (procEntry // ["fd"])) = Some e ->
     e = ENOENT \/ e = EACCES) ->
  forall res, exists res', scan_processes fs opts entries res = inr res'.
Proof.
  intros Hex Hdir. induction entries as [| x entries IH]; intros Hfd res; simpl.
  - eauto.
  - destruct (scan_process_returns fs opts res x Hex Hdir) as [res1 ->].
    + intros e. apply Hfd. now left.
    + simpl. apply IH. intros procEntry e Hin. apply Hfd. now right.
Qed.

Lemma getRuntimeRoots_returns fs opts :
  scan_errors_ignorable fs ->
  exists runtime, getRuntimeRoots fs opts = inr runtime.
Proof.
  intros (Hex & Hdir & Hproc & Hfd). unfold getRuntimeRoots.
  destruct (Hex ["/"; "proc"]) as [[|] ->]; cbn [bind negb]; eauto.
  destruct (fs_directory_iterator fs ["/"; "proc"]) as [entries err].
  simpl in Hproc, Hfd. subst err.
  destruct (scan_processes_returns fs opts entries Hex Hdir Hfd RootsMap.empty)
    as [res ->].
  cbn [bind].
  destruct (scanFileContent_returns fs opts
              ["/"; "proc"; "sys"; "kernel"; "modprobe"] res Hex) as [res1 ->].
  cbn [bind].
  destruct (scanFileContent_returns fs opts
              ["/"; "proc"; "sys"; "kernel"; "fbsplash"] res1 Hex) as [res2 ->].
  cbn [bind]. now apply scanFileContent_returns.
Qed.

(** Claim C6, as the program has it. In a file system of finite depth the
    tracer returns, and what becomes of the daemon rests with the runtime
    scan and with the peer. When the scan completes and the peer is there
    for every call of [send], the whole response is written, the
    connection is closed and the daemon is back in the accept loop. When
    the peer hangs up before the last call, [SIGPIPE] ends the daemon
    with a part of the response sent. When an exception leaves
    [getRuntimeRoots] it is caught nowhere: the daemon ends with nothing
    sent. The scan completes when the only errors it meets are [ENOENT]
    and [EACCES] on listing [fd] directories, and errors of
    [read_symlink]; it throws when the listing of the [fd] directory of a
    process fails with any other error. *)
Theorem serving_outcome fuel opts d fs p height D :
  exited d = None ->
  finite_depth fs height D ->
  (enough_fuel D <= fuel)%nat ->
  exists d',
    step fuel opts d (Connection fs p) = Some d'
    /\ match getRuntimeRoots fs opts with
       | inr _ =>
           exists tr response,
             serve fuel fs opts = Some (Responded tr response)
             /\ if peer_hears p (response_sends tr)
                then exited d' = None
                     /\ listening d' = listening d
                     /\ connections d'
                        = mkConnection response true :: connections d
                else exited d' = Some (KilledBy SIGPIPE)
                     /\ listening d' = false
                     /\ exists sent rest,
                          sent = concat_lines (heard p (response_data tr))
                          /\ connections d'
                             = mkConnection sent false :: connections d
                          /\ response = (sent ++ rest)%string
                          /\ rest <> ""
       | inl e =>
           exited d' = Some (UncaughtFilesystemError e)
           /\ listening d' = false
           /\ connections d' = mkConnection "" false :: connections d
       end
    /\ (scan_errors_ignorable fs ->
        exists runtime, getRuntimeRoots fs opts = inr runtime)
    /\ forall before procEntry after err entries e,
         fs_exists fs ["/"; "proc"] = inr true ->
         fs_directory_iterator fs ["/"; "proc"]
         = (before ++ procEntry :: after, err) ->
         regex_match digitsRegex (Path.to_string (Path.filename procEntry))
         <> None ->
         fs_is_directory fs procEntry = inr true ->
         fs_directory_iterator fs (procEntry // ["fd"]) = (entries, Some e) ->
         e <> ENOENT -> e <> EACCES ->
         exists e', getRuntimeRoots fs opts = inl e'
                    /\ exited d' = Some (UncaughtFilesystemError e').
Proof.
  intros Hrun Hdepth Hfuel.
  destruct (serve_returns fs opts height D Hdepth fuel Hfuel) as [s Hs].
  assert (Hcases :
            match getRuntimeRoots fs opts with
            | inr _ => exists tr response, s = Responded tr response
            | inl e => s = Escaped e
            end).
  { revert Hs. unfold serve, serve_peer.
    destruct (followPathsToStore fs opts fuel (standardRoots opts));
      try discriminate.
    destruct (getRuntimeRoots fs opts) as [e | runtime].
    - intros H. now inversion H.
    - rewrite send_response_data, send_all_Stays.
      intros H. inversion H. eauto. }
  assert (Hstep :
            exists d',
              step fuel opts d (Connection fs p) = Some d'
              /\ match getRuntimeRoots fs opts with
                 | inr _ =>
                     exists tr response,
                       serve fuel fs opts = Some (Responded tr response)
                       /\ if peer_hears p (response_sends tr)
                          then exited d' = None
                               /\ listening d' = listening d
                               /\ connections d'
                                  = mkConnection response true :: connections d
                          else exited d' = Some (KilledBy SIGPIPE)
                               /\ listening d' = false
                               /\ exists sent rest,
                                    sent = concat_lines (heard p (response_data tr))
                                    /\ connections d'
                                       = mkConnection sent false :: connections d
                                    /\ response = (sent ++ rest)%string
                                    /\ rest <> ""
                 | inl e =>
                     exited d' = Some (UncaughtFilesystemError e)
                     /\ listening d' = false
                     /\ connections d' = mkConnection "" false :: connections d
                 end).
  { unfold step. rewrite Hrun.
    destruct (getRuntimeRoots fs opts) as [e | runtime].
    - subst s. rewrite (serve_peer_Escaped p _ _ _ _ Hs).
      eexists. split; [reflexivity |]. simpl. auto.
    - destruct Hcases as (tr & response & ->).
      pose proof (serve_peer_spec p _ _ _ _ _ Hs) as Hp.
      destruct (peer_hears p (response_sends tr)) eqn:Ehears.
      + rewrite Hp. eexists. split; [reflexivity |].
        exists tr, response. rewrite Ehears. simpl. auto.
      + destruct Hp as (-> & rest & Hresp & Hrest).
        eexists. split; [reflexivity |].
        exists tr, response. rewrite Ehears. simpl.
        repeat split; trivial. eauto 6. }
  destruct Hstep as (d' & Hd' & Hout).
  exists d'. split; [exact Hd' |]. split; [exact Hout |].
  split; [apply getRuntimeRoots_returns |].
  intros before procEntry after err entries e Hproc Hlist Hpid Hdir Hit H1 H2.
  destruct (getRuntimeRoots_fd_error fs opts before procEntry after err
              entries e Hproc Hlist Hpid Hdir Hit H1 H2) as [e' He'].
  exists e'. split; trivial. rewrite He' in Hout. tauto.
Qed.

Lemma direct_finite_depth :
  finite_depth (Sim.fs Sim.direct) (fun p => (4 - List.length p)%nat) 4.
Proof.
  split; [intros p; lia |].
  intros dir child.
  change (fs_recursive_directory_iterator (Sim.fs Sim.direct) dir)
    with (Sim.listing Sim.below Sim.direct dir).
  unfold Sim.listing.
  destruct (Sim.resolve 8 Sim.direct dir) as [[] |]; cbn [fst In];
    try contradiction.
  intros Hin _. apply filter_In in Hin. destruct Hin as [Hin Hbelow].
  unfold Sim.below in Hbelow. apply andb_true_iff in Hbelow.
  destruct Hbelow as [_ Hlen]. apply Nat.ltb_lt in Hlen.
  unfold Sim.direct, Sim.roots_dirs in Hin. simpl in Hin.
  repeat (destruct Hin as [<- | Hin]; [cbn [List.length] in *; lia |]).
  contradiction.
Defined.

(** The file systems of the examples have finite depth. *)
Lemma sim_finite_depth (t : Sim.table) (N : nat) :
  Forall (fun pn => (List.length (fst pn) <= N)%nat) t ->
  finite_depth (Sim.fs t) (fun p => (N - List.length p)%nat) N.
Proof.
  intros Hall. split; [intros p; lia |].
  intros dir child.
  change (fs_recursive_directory_iterator (Sim.fs t) dir)
    with (Sim.listing Sim.below t dir).
  unfold Sim.listing.
  destruct (Sim.resolve 8 t dir) as [[] |]; cbn [fst In];
    try contradiction.
  intros Hin _. apply filter_In in Hin. destruct Hin as [Hin Hbelow].
  unfold Sim.below in Hbelow. apply andb_true_iff in Hbelow.
  destruct Hbelow as [_ Hlen]. apply Nat.ltb_lt in Hlen.
  apply in_map_iff in Hin. destruct Hin as [[q n] [Hq Hin]].
  rewrite Forall_forall in Hall. specialize (Hall _ Hin).
  simpl in Hq, Hall. subst q. lia.
Defined.

Lemma serving_outcome_witness :
  let d := startup Sim.opts false 3 0 0 in
  let response := ("/s/abc-hello" ++ TAB ++ "/v/gcroots/a" ++ LF
                   ++ "/s/xyz-thing" ++ TAB ++ "/proc/42/exe" ++ LF
                   ++ LF)%string in
  (* the listing of [/proc/42/fd] fails with [EACCES]; the peer stays *)
  (fs_directory_iterator (Sim.fs Sim.fd_denied) ["/"; "proc"; "42"; "fd"]
   = ([], Some EACCES)
   /\ exists d',
        step 20 Sim.opts d (Connection (Sim.fs Sim.fd_denied) Stays) = Some d'
        /\ exited d' = None
        /\ listening d' = true
        /\ connections d' = [ mkConnection response true ])
  (* the same, and the peer hangs up after six calls of [send] *)
  /\ (exists d',
        step 20 Sim.opts d (Connection (Sim.fs Sim.fd_denied) (HangsUpAfter 6))
        = Some d'
        /\ exited d' = Some (KilledBy SIGPIPE)
        /\ listening d' = false
        /\ connections d'
           = [ mkConnection
                 ("/s/abc-hello" ++ TAB ++ "/v/gcroots/a" ++ LF
                  ++ "/s/xyz-thing" ++ TAB)%string
                 false ])
  (* the listing of [/proc/42/fd] fails with [EMFILE] *)
  /\ exists d' e',
       step 20 Sim.opts d (Connection (Sim.fs Sim.fd_unreadable) Stays) = Some d'
       /\ getRuntimeRoots (Sim.fs Sim.fd_unreadable) Sim.opts = inl e'
       /\ exited d' = Some (UncaughtFilesystemError e').
Proof.
  cbv zeta.
  assert (Hdenied : finite_depth (Sim.fs Sim.fd_denied)
                      (fun p => (4 - List.length p)%nat) 4)
    by (apply sim_finite_depth; repeat constructor).
  assert (Hunreadable : finite_depth (Sim.fs Sim.fd_unreadable)
                          (fun p => (4 - List.length p)%nat) 4)
    by (apply sim_finite_depth; repeat constructor).
  assert (Hfuel : (enough_fuel 4 <= 20)%nat) by (vm_compute; lia).
  assert (Hignorable : scan_errors_ignorable (Sim.fs Sim.fd_denied)).
  { split; [intros q; eexists; reflexivity |].
    split; [intros q; eexists; reflexivity |].
    split; [reflexivity |].
    intros procEntry e [<- | []]. vm_compute. intros H. inversion H. auto. }
  split; [split; [reflexivity |] | split].
  - destruct (serving_outcome 20 Sim.opts (startup Sim.opts false 3 0 0)
                (Sim.fs Sim.fd_denied) Stays _ 4 eq_refl Hdenied Hfuel)
      as (d' & Hstep & Hout & Hscan & _).
    destruct (Hscan Hignorable) as [runtime Hruntime].
    rewrite Hruntime in Hout.
    destruct Hout as (tr & response & Hserve & Hrunning).
    vm_compute in Hserve. inversion Hserve; subst tr response; clear Hserve.
    cbn in Hrunning. exists d'. tauto.
  - destruct (serving_outcome 20 Sim.opts (startup Sim.opts false 3 0 0)
                (Sim.fs Sim.fd_denied) (HangsUpAfter 6) _ 4 eq_refl
                Hdenied Hfuel)
      as (d' & Hstep & Hout & Hscan & _).
    destruct (Hscan Hignorable) as [runtime Hruntime].
    rewrite Hruntime in Hout.
    destruct Hout as (tr & response & Hserve & Hkilled).
    vm_compute in Hserve. inversion Hserve; subst tr response; clear Hserve.
    cbn in Hkilled.
    destruct Hkilled as (Hexit & Hlisten & sent & rest & -> & Hconn & _).
    exists d'. auto.
  - destruct (serving_outcome 20 Sim.opts (startup Sim.opts false 3 0 0)
                (Sim.fs Sim.fd_unreadable) Stays _ 4 eq_refl
                Hunreadable Hfuel)
      as (d' & Hstep & _ & _ & Hthrow).
    destruct (Hthrow [] ["/"; "proc"; "42"] [] None [] Sim.EMFILE)
      as (e' & He' & Hexit);
      try reflexivity; try discriminate.
    exists d', e'. auto.
Defined.

(** Claim C6 as stated fails: when the listing of [/proc/42/fd] fails with
    [EMFILE], the daemon does not come back to the accept loop; it has
    ended, with nothing sent on the connection, which was not closed. *)
Lemma proc_io_error_ends_daemon :
  step 10 Sim.opts (startup Sim.opts false 3 0 0)
    (Connection (Sim.fs Sim.fd_unreadable) Stays)
  = Some (mkDaemon (Some (UncaughtFilesystemError Sim.EMFILE)) false true
            [ mkConnection "" false ]).
Proof.
  vm_compute. reflexivity.
Qed.

(** ** Signals *)

Lemma step_socket_file fuel opts d ev d' :
  step fuel opts d ev = Some d' -> socket_file d' = socket_file d.
Proof.
  unfold step. destruct (exited d); [congruence |].
  destruct ev as [fs p | e | s].
  - destruct (serve_peer p fuel fs opts) as [[tr sent | e | sent] |];
      try discriminate; intros H; inversion H; reflexivity.
  - destruct (e =? EINTR); intros H; inversion H; reflexivity.
  - unfold deliver. destruct (default_action s); intros H; inversion H;
      reflexivity.
Qed.

Lemma run_socket_file fuel opts evs :
  forall d d', run fuel opts d evs = Some d' -> socket_file d' = socket_file d.
Proof.
  induction evs as [| ev evs IH]; simpl; intros d d' H.
  - congruence.
  - destruct (step fuel opts d ev) as [d1 |] eqn:E; try discriminate.
    rewrite (IH _ _ H). eapply step_socket_file; eauto.
Qed.

Lemma startup_running opts stale mySock bind_ret listen_ret :
  exited (startup opts stale mySock bind_ret listen_ret) = None ->
  socket_file (startup opts stale mySock bind_ret listen_ret) = true.
Proof.
  unfold startup.
  destruct (mySock =? 0); [discriminate |].
  destruct (bind_ret =? -1); [discriminate |].
  destruct (listen_ret =? -1); [discriminate | reflexivity].
Qed.

(** Claim C7, as the program has it. [main] installs no signal handler.
    At any point of the accept loop after a successful start, [SIGINT],
    [SIGTERM] or [SIGHUP] ends the process by the default action: it
    accepts no more and its listening socket is closed with it, but the
    socket file is not unlinked and still exists. *)
Theorem signal_ends_daemon_without_cleanup
    fuel opts stale mySock bind_ret listen_ret evs d s :
  exited (startup opts stale mySock bind_ret listen_ret) = None ->
  run fuel opts (startup opts stale mySock bind_ret listen_ret) evs = Some d ->
  exited d = None ->
  s = SIGINT \/ s = SIGTERM \/ s = SIGHUP ->
  exists d',
    step fuel opts d (Signal s) = Some d'
    /\ exited d' = Some (KilledBy s)
    /\ listening d' = false
    /\ socket_file d' = true
    /\ forall evs' d'', run fuel opts d' evs' = Some d'' -> d'' = d'.
Proof.
  intros Hstart Hrun Hd Hs.
  exists (die (KilledBy s) d).
  assert (Hfile : socket_file d = true).
  { rewrite (run_socket_file _ _ _ _ _ Hrun). now apply startup_running. }
  unfold step. rewrite Hd. unfold deliver.
  assert (Hact : default_action s = Terminate)
    by (destruct Hs as [-> | [-> | ->]]; reflexivity).
  rewrite Hact. repeat split; trivial.
  induction evs' as [| ev evs' IH]; simpl; intros d'' H.
  - congruence.
  - unfold step in H. simpl in H. auto.
Qed.

Lemma signal_ends_daemon_without_cleanup_witness :
  exists d',
    step 10 Sim.opts
      (mkDaemon None true true
         [ mkConnection ("/s/abc-hello" ++ TAB ++ "/v/gcroots/a" ++ LF ++ LF)%string
             true ])
      (Signal SIGTERM) = Some d'
    /\ exited d' = Some (KilledBy SIGTERM)
    /\ listening d' = false
    /\ socket_file d' = true
    /\ forall evs' d'', run 10 Sim.opts d' evs' = Some d'' -> d'' = d'.
Proof.
  apply (signal_ends_daemon_without_cleanup 10 Sim.opts true 3 0 0
           [ Connection (Sim.fs Sim.direct) Stays ]).
  - reflexivity.
  - vm_compute. reflexivity.
  - reflexivity.
  - right. left. reflexivity.
Defined.

(** Claim C7 as stated fails: after a successful start and [SIGTERM] the
    socket file is still there. *)
Lemma sigterm_leaves_socket_file :
  run 0 Sim.opts (startup Sim.opts false 3 0 0) [ Signal SIGTERM ]
  = Some (mkDaemon (Some (KilledBy SIGTERM)) false true []).
Proof.
  reflexivity.
Qed.

(** ** The response *)

(** Claim C8. The bytes of a response are the store-object lines, then
    one line feed, then the dead-link lines: the separator is there
    whatever the sections hold, and every dead-link line comes after it.
    The store-object lines are one per root edge, a store path with [k]
    roots being on [k] lines, each made of the store path, a tab, the
    root and a line feed. *)
Theorem response_layout fuel fs opts tr sent :
  serve fuel fs opts = Some (Responded tr sent) ->
  sent = (concat_lines (store_section tr) ++ LF
          ++ concat_lines (dead_section tr))%string
  /\ (forall k roots,
        In (k, roots) (storeRoots tr) ->
        map snd (lines_of_key k (storeRoots tr)) = roots
        /\ List.length (lines_of_key k (storeRoots tr)) = List.length roots)
  /\ store_section tr
     = map (fun e => (Path.to_string (fst e) ++ TAB
                      ++ Path.to_string (snd e) ++ LF)%string)
           (RootsMap.edges (storeRoots tr))
  /\ dead_section tr
     = map (fun d => (Path.to_string d ++ LF)%string) (deadLinks tr).
Proof.
  intros H. pose proof (serve_sorted _ _ _ _ _ H) as [Hsorted _].
  apply serve_Responded in H. destruct H as (_ & _ & _ & _ & _ & ->).
  split; [apply send_response_spec |].
  split; [| split; reflexivity].
  intros k roots Hin.
  pose proof (lines_of_key_spec k roots _ Hsorted Hin) as Hl.
  split; trivial.
  rewrite <- (length_map snd (lines_of_key k (storeRoots tr))).
  now rewrite Hl.
Qed.

Lemma response_layout_witness :
  let tr := mkTraceResult
              [ (["/"; "s"; "abc-hello"], [ ["/"; "v"; "gcroots"; "a"] ]) ] [] in
  ("/s/abc-hello" ++ TAB ++ "/v/gcroots/a" ++ LF ++ LF)%string
  = (concat_lines (store_section tr) ++ LF
     ++ concat_lines (dead_section tr))%string.
Proof.
  cbv zeta.
  apply (response_layout 10 (Sim.fs Sim.direct) Sim.opts).
  vm_compute. reflexivity.
Defined.

(** Claim C10, as the program has it. The store-object lines of a
    response are in strictly increasing order of store path and, for one
    store path, of root; the dead-link lines are in strictly increasing
    order. The order is that of [fs::path::compare], by which [std::map]
    and [std::set] keep paths: the root directory first, then file name
    by file name, each compared bytewise; it is not the order of the
    bytes of the lines. A second scan of the same file system yields the
    same response, byte for byte. Two responses that hold the same root
    edges and the same dead links, as sets, list the same paths in the
    same order, whatever the order in which the scans found them. *)
Theorem response_sorted_and_canonical fuel fs opts tr sent :
  serve fuel fs opts = Some (Responded tr sent) ->
  StronglySorted edge_lt (RootsMap.edges (storeRoots tr))
  /\ StronglySorted path_lt (deadLinks tr)
  /\ sent = (concat_lines (map store_line (RootsMap.edges (storeRoots tr)))
             ++ LF ++ concat_lines (map dead_line (deadLinks tr)))%string
  /\ (forall fuel' s', serve fuel' fs opts = Some s' -> s' = Responded tr sent)
  /\ forall fuel' fs' opts' tr' sent',
       serve fuel' fs' opts' = Some (Responded tr' sent') ->
       (forall e, has_edge e tr <-> has_edge e tr') ->
       (forall d, In d (deadLinks tr) <-> In d (deadLinks tr')) ->
       RootsMap.edges (storeRoots tr') = RootsMap.edges (storeRoots tr)
       /\ deadLinks tr' = deadLinks tr.
Proof.
  intros H.
  assert (Hall : forall fuel fs opts tr sent,
             serve fuel fs opts = Some (Responded tr sent) ->
             StronglySorted edge_lt (RootsMap.edges (storeRoots tr))
             /\ StronglySorted path_lt (deadLinks tr)
             /\ sent = (concat_lines (map store_line (RootsMap.edges (storeRoots tr)))
                        ++ LF ++ concat_lines (map dead_line (deadLinks tr)))%string).
  { clear. intros fuel fs opts tr sent H.
    pose proof (serve_sorted _ _ _ _ _ H) as [Hs Hd].
    apply serve_Responded in H. destruct H as (_ & _ & _ & _ & _ & ->).
    split; [now apply edges_sorted |]. split; trivial.
    apply send_response_spec. }
  destruct (Hall _ _ _ _ _ H) as (He & Hd & Hsent).
  split; [exact He |]. split; [exact Hd |]. split; [exact Hsent |].
  split.
  { intros fuel' s' H'. symmetry. eapply serve_fuel; eauto. }
  intros fuel' fs' opts' tr' sent' H' Hedges Hdead.
  destruct (Hall _ _ _ _ _ H') as (He' & Hd' & _).
  split; symmetry.
  - apply (sorted_unique edge_lt edge_lt_irrefl edge_lt_trans _ _ He He' Hedges).
  - apply (sorted_unique path_lt path_lt_irrefl path_lt_trans _ _ Hd Hd' Hdead).
Qed.

Lemma response_sorted_and_canonical_witness :
  let z := ["/"; "v"; "gcroots"; "z"] in
  let b := ["/"; "v"; "gcroots"; "b"] in
  let a := ["/"; "v"; "gcroots"; "a"] in
  let y := ["/"; "v"; "gcroots"; "y"] in
  let x := ["/"; "v"; "gcroots"; "x"] in
  let tr := mkTraceResult
              [ (["/"; "s"; "abc"; "bin"], [ z ]);
                (["/"; "s"; "abc-1"], [ a; b ]) ]
              [ x; y ] in
  let sent := ("/s/abc/bin" ++ TAB ++ "/v/gcroots/z" ++ LF
               ++ "/s/abc-1" ++ TAB ++ "/v/gcroots/a" ++ LF
               ++ "/s/abc-1" ++ TAB ++ "/v/gcroots/b" ++ LF
               ++ LF
               ++ "/v/gcroots/x" ++ LF
               ++ "/v/gcroots/y" ++ LF)%string in
  (* the links are found in another order than they are sent in *)
  fs_recursive_directory_iterator (Sim.fs Sim.several) ["/"; "v"; "gcroots"]
  = ([ z; b; a; y; x ], None)
  /\ StronglySorted edge_lt
       [ (["/"; "s"; "abc"; "bin"], z);
         (["/"; "s"; "abc-1"], a);
         (["/"; "s"; "abc-1"], b) ]
  /\ StronglySorted path_lt [ x; y ]
  /\ sent = (concat_lines (map store_line (RootsMap.edges (storeRoots tr)))
             ++ LF ++ concat_lines (map dead_line (deadLinks tr)))%string
  /\ (forall fuel' s',
        serve fuel' (Sim.fs Sim.several) Sim.opts = Some s' ->
        s' = Responded tr sent)
  (* found in the opposite order, they are sent in the same *)
  /\ fs_recursive_directory_iterator (Sim.fs (rev Sim.several))
       ["/"; "v"; "gcroots"]
     = ([ x; y; a; b; z ], None)
  /\ exists tr' sent',
       serve 10 (Sim.fs (rev Sim.several)) Sim.opts = Some (Responded tr' sent')
       /\ RootsMap.edges (storeRoots tr') = RootsMap.edges (storeRoots tr)
       /\ deadLinks tr' = deadLinks tr.
Proof.
  cbv zeta.
  destruct (response_sorted_and_canonical 10 (Sim.fs Sim.several) Sim.opts
              (mkTraceResult
                 [ (["/"; "s"; "abc"; "bin"], [ ["/"; "v"; "gcroots"; "z"] ]);
                   (["/"; "s"; "abc-1"],
                    [ ["/"; "v"; "gcroots"; "a"]; ["/"; "v"; "gcroots"; "b"] ]) ]
                 [ ["/"; "v"; "gcroots"; "x"]; ["/"; "v"; "gcroots"; "y"] ])
              ("/s/abc/bin" ++ TAB ++ "/v/gcroots/z" ++ LF
               ++ "/s/abc-1" ++ TAB ++ "/v/gcroots/a" ++ LF
               ++ "/s/abc-1" ++ TAB ++ "/v/gcroots/b" ++ LF
               ++ LF
               ++ "/v/gcroots/x" ++ LF
               ++ "/v/gcroots/y" ++ LF)%string)
    as (Hedges & Hdead & Hsent & Hsame & Hcanonical).
  { vm_compute. reflexivity. }
  split; [vm_compute; reflexivity |].
  split; [exact Hedges |]. split; [exact Hdead |]. split; [exact Hsent |].
  split; [exact Hsame |].
  split; [vm_compute; reflexivity |].
  destruct (serve 10 (Sim.fs (rev Sim.several)) Sim.opts)
    as [[tr' sent' | e | sent'] |] eqn:Eserve;
    try (vm_compute in Eserve; discriminate).
  exists tr', sent'. split; [reflexivity |].
  apply (Hcanonical 10%nat (Sim.fs (rev Sim.several)) Sim.opts tr' sent' Eserve);
    vm_compute in Eserve; inversion Eserve; subst tr' sent'; intros;
    reflexivity.
Defined.

(** Claim C10 as stated fails for the order of the bytes: in the response
    to [Sim.several] the line of [/s/abc/bin] comes before the lines of
    [/s/abc-1], and is greater than they are as a string. *)
Lemma response_lines_not_in_byte_order :
  exists tr sent,
    serve 10 (Sim.fs Sim.several) Sim.opts = Some (Responded tr sent)
    /\ store_section tr
       = [ ("/s/abc/bin" ++ TAB ++ "/v/gcroots/z" ++ LF)%string;
           ("/s/abc-1" ++ TAB ++ "/v/gcroots/a" ++ LF)%string;
           ("/s/abc-1" ++ TAB ++ "/v/gcroots/b" ++ LF)%string ]
    /\ string_compare ("/s/abc/bin" ++ TAB ++ "/v/gcroots/z" ++ LF)
                      ("/s/abc-1" ++ TAB ++ "/v/gcroots/a" ++ LF) = Gt
    /\ string_compare "/s/abc/bin" "/s/abc-1" = Gt.
Proof.
  eexists. eexists. split; [vm_compute; reflexivity |].
  repeat split; reflexivity.
Qed.

(** The order of the lines is not that of their bytes: [/s/abc/bin] comes
    before [/s/abc-1] as a path, and after it as a string. *)
Lemma path_order_is_not_byte_order :
  Path.compare ["/"; "s"; "abc"; "bin"] ["/"; "s"; "abc-1"] = Lt
  /\ string_compare (Path.to_string ["/"; "s"; "abc"; "bin"])
                    (Path.to_string ["/"; "s"; "abc-1"]) = Gt.
Proof.
  split; reflexivity.
Qed.

(** ** The command line *)

(** Claim C9 fails on the short options. [-d] is not among the option
    characters given to [getopt_long], so it ends in the usage message and
    [exit(1)]; [-s] is among them without an argument, so [optarg] is null
    when the store root is built from it. The long options and the
    defaults are as the claim has them. *)
Theorem short_store_and_state_options_fail :
  (forall prog arg rest, parseCmdLine (prog :: "-d" :: arg :: rest) = UsageExit)
  /\ (forall prog arg rest, parseCmdLine (prog :: "-s" :: arg :: rest) = Undefined)
  /\ parseCmdLine ["nix-find-roots"; "-d"; "/v"] = UsageExit
  /\ parseCmdLine ["nix-find-roots"; "-s"; "/s"] = Undefined
  /\ parseCmdLine ["nix-find-roots"; "--store_dir"; "/s"; "--state_dir"; "/v"]
     = Parsed (mkGlobalOpts ["/"; "s"] ["/"; "v"]
                 ["/"; "nix"; "var"; "nix"; "gc-socket"; "socket"] Quiet)
  /\ parseCmdLine ["nix-find-roots"]
     = Parsed (mkGlobalOpts ["/"; "nix"; "store"] ["/"; "nix"; "var"; "nix"]
                 ["/"; "nix"; "var"; "nix"; "gc-socket"; "socket"] Quiet).
Proof.
  repeat split; reflexivity.
Qed.

(* ================================================================= *)
(** * Further properties of the program *)

(** ** The in-store test *)

Lemma string_app_eq_l (x y : string) : (x ++ y)%string = x -> y = "".
Proof.
  induction x as [| c x IH]; simpl; intros H; trivial.
  inversion H. auto.
Qed.

(** [isInStore] accepts a path exactly when it begins, element by
    element, with the store root, or is empty; so a path whose element
    merely begins with the last element of the store root, as
    [/nix/storeOther/x] does for [/nix/store], is not in the store. *)
Theorem isInStore_is_elementwise :
  (forall store dir,
     isInStore store dir = true
     <-> dir = [] \/ exists rest, dir = store ++ rest)
  /\ (forall parent name more rest,
        more <> "" ->
        isInStore (parent ++ [name]) (parent ++ (name ++ more)%string :: rest)
        = false).
Proof.
  split; [exact isInStore_spec |].
  intros parent name more rest Hmore.
  destruct (isInStore (parent ++ [name])
              (parent ++ (name ++ more)%string :: rest)) eqn:E; trivial.
  apply isInStore_spec in E. destruct E as [E | [rest' E]].
  - destruct parent; discriminate.
  - rewrite <- app_assoc in E. apply app_inv_head in E.
    simpl in E. inversion E as [[Hname Hrest]].
    apply string_app_eq_l in Hname. contradiction.
Qed.

Lemma isInStore_is_elementwise_witness :
  isInStore ["/"; "nix"; "store"] ["/"; "nix"; "storeOther"; "x"] = false.
Proof.
  apply (proj2 isInStore_is_elementwise ["/"; "nix"] "store" "Other" ["x"]).
  discriminate.
Defined.

(** ** What the tracer keeps, and when it returns *)

Lemma regular_case_dead fs opts res root :
  deadLinks (fst (regular_case fs opts res root)) = deadLinks res.
Proof.
  unfold regular_case. now destruct (fs_exists fs _) as [e | [|]].
Qed.

Lemma regular_case_dead_eq fs opts res root res' o :
  regular_case fs opts res root = (res', o) -> deadLinks res' = deadLinks res.
Proof.
  intros H. rewrite <- (regular_case_dead fs opts res root). now rewrite H.
Qed.

Lemma tracer_only_adds_dead fs opts fuel recursionsLeft res root status res' o d :
  followPathToStore fs opts fuel recursionsLeft res root status = Some (res', o) ->
  In d (deadLinks res) -> In d (deadLinks res').
Proof.
  intros H Hin. revert Hin H.
  apply (followPathToStore_inv fs opts (fun r => In d (deadLinks r))).
  - intros r res0 Hd. simpl. apply set_insert_In. now right.
  - intros target r res0 _ Hd. exact Hd.
  - intros r res0 _ Hd. exact Hd.
Qed.

(** The tracer only ever adds: an edge or a dead link that is in the
    result when a call begins is in it when the call ends, whether it
    ends by returning or by an exception. *)
Theorem tracer_only_adds fs opts fuel recursionsLeft res root status res' o :
  followPathToStore fs opts fuel recursionsLeft res root status = Some (res', o) ->
  (forall e, has_edge e res -> has_edge e res')
  /\ (forall d, In d (deadLinks res) -> In d (deadLinks res')).
Proof.
  apply (followPathToStore_inv fs opts
           (fun r => (forall e, has_edge e res -> has_edge e r)
                     /\ (forall d, In d (deadLinks res) -> In d (deadLinks r)))).
  - intros r res0 [He Hd]. split; [exact He |].
    intros d Hin. simpl. apply set_insert_In. right. auto.
  - intros target r res0 _ [He Hd]. split; [| exact Hd].
    intros e Hin. unfold has_edge, add_store_root. simpl.
    apply add_root_edges_In. right. now apply He.
  - intros r res0 _ [He Hd]. split; [| exact Hd].
    intros e Hin. unfold has_edge, add_store_root. simpl.
    apply add_root_edges_In. right. now apply He.
  - split; trivial.
Qed.

Lemma tracer_only_adds_witness :
  let res := mkTraceResult
               [ (["/"; "s"; "old"], [ ["/"; "home"; "u"; "result"] ]) ]
               [ ["/"; "home"; "u"; "stale"] ] in
  let res' := mkTraceResult
                [ (["/"; "s"; "abc-hello"], [ ["/"; "v"; "gcroots"; "a"] ]);
                  (["/"; "s"; "old"], [ ["/"; "home"; "u"; "result"] ]) ]
                [ ["/"; "home"; "u"; "stale"] ] in
  (forall e, has_edge e res -> has_edge e res')
  /\ (forall d, In d (deadLinks res) -> In d (deadLinks res')).
Proof.
  cbv zeta.
  apply (tracer_only_adds (Sim.fs Sim.direct) Sim.opts 5 maxRecursionLevel _
           ["/"; "v"; "gcroots"] ft_directory _ Returned).
  vm_compute. reflexivity.
Defined.

(** In a file system of finite depth [followPathsToStore] returns a
    result, and a sorted one, whatever errors the file system answers
    with: no exception leaves it and the recursion ends. *)
Theorem tracer_returns fs opts height D fuel roots :
  finite_depth fs height D ->
  (enough_fuel D <= fuel)%nat ->
  exists tr,
    followPathsToStore fs opts fuel roots = Some tr /\ sorted_result tr.
Proof.
  intros Hdepth Hfuel.
  destruct (followPathsToStore_returns fs opts height D Hdepth fuel roots Hfuel)
    as [tr Htr].
  exists tr. split; trivial. eapply followPathsToStore_sorted; eauto.
Qed.

Lemma tracer_returns_witness :
  exists tr,
    followPathsToStore (Sim.fs Sim.direct) Sim.opts 20 (standardRoots Sim.opts)
    = Some tr
    /\ sorted_result tr.
Proof.
  apply (tracer_returns (Sim.fs Sim.direct) Sim.opts
           (fun p => (4 - List.length p)%nat) 4).
  - exact direct_finite_depth.
  - vm_compute. lia.
Defined.

(** ** Errors during the trace *)

Lemma for_each_eq {A S : Type} (body body' : S -> A -> option (S * outcome))
    after l :
  (forall s x, body s x = body' s x) ->
  forall s, for_each body after l s = for_each body' after l s.
Proof.
  intros Hb. induction l as [| x l IH]; simpl; intros s; trivial.
  rewrite Hb. destruct (body' s x) as [[s1 [| e]] |]; auto.
Qed.

Lemma for_each_cut {A S : Type} (body : S -> A -> option (S * outcome))
    after before c rest e :
  (forall s, body s c = Some (s, Threw e)) ->
  forall s,
    for_each body after (before ++ c :: rest) s
    = for_each body (Threw e) before s.
Proof.
  intros Hc. induction before as [| x before IH]; simpl; intros s.
  - now rewrite Hc.
  - destruct (body s x) as [[s1 [| e']] |]; auto.
Qed.

(** The loop over a directory has no [try]: when the status of an entry
    cannot be read, the traversal of that directory ends there. What the
    iterator would have yielded after that entry has no effect on any
    result of the tracer. *)
Theorem failed_entry_hides_the_rest
    fs1 fs2 opts dir before c after1 err1 after2 err2 e :
  (forall p, fs_symlink_status fs1 p = fs_symlink_status fs2 p) ->
  (forall p, fs_read_symlink fs1 p = fs_read_symlink fs2 p) ->
  (forall p, fs_exists fs1 p = fs_exists fs2 p) ->
  (forall p, p <> dir ->
             fs_recursive_directory_iterator fs1 p
             = fs_recursive_directory_iterator fs2 p) ->
  fs_recursive_directory_iterator fs1 dir = (before ++ c :: after1, err1) ->
  fs_recursive_directory_iterator fs2 dir = (before ++ c :: after2, err2) ->
  fs_symlink_status fs1 c = inl e ->
  forall fuel roots,
    followPathsToStore fs1 opts fuel roots = followPathsToStore fs2 opts fuel roots.
Proof.
  intros Hst Hrl Hex Hit Hd1 Hd2 Hc.
  assert (Hcall : forall fuel n res root status,
             followPathToStore fs1 opts fuel n res root status
             = followPathToStore fs2 opts fuel n res root status).
  { induction fuel as [| fuel IH]; intros n res root status; simpl; trivial.
    destruct (n <? 0); trivial.
    assert (Hreg : forall r p, regular_case fs1 opts r p = regular_case fs2 opts r p)
      by (intros r p; unfold regular_case; now rewrite Hex).
    destruct status; trivial; [now rewrite Hreg | |].
    - (* directory *)
      destruct (list_eq_dec string_dec root dir) as [-> | Hne].
      + rewrite Hd1, Hd2.
        rewrite (for_each_cut _ _ before c after1 e)
          by (intros s; now rewrite Hc).
        rewrite (for_each_cut _ _ before c after2 e)
          by (intros s; now rewrite <- Hst, Hc).
        apply for_each_eq. intros s x. rewrite Hst.
        destruct (fs_symlink_status fs2 x); trivial.
      + rewrite (Hit root Hne).
        destruct (fs_recursive_directory_iterator fs2 root) as [children err].
        apply for_each_eq. intros s x. rewrite Hst.
        destruct (fs_symlink_status fs2 x); trivial.
    - (* symlink *)
      rewrite Hrl. destruct (fs_read_symlink fs2 root) as [e0 | link]; trivial.
      rewrite Hst.
      destruct (fs_symlink_status fs2 (Path.parent_path root // link))
        as [e0 | st]; [now rewrite Hreg |].
      destruct (isInStore (storeDir opts) (Path.parent_path root // link));
        trivial.
      rewrite IH.
      destruct (followPathToStore fs2 opts fuel (n - 1) _ _ st)
        as [[r2 [| e0]] |]; trivial; now rewrite Hreg. }
  intros fuel roots. unfold followPathsToStore. generalize emptyTraceResult.
  induction roots as [| root roots IH]; simpl; intros res; trivial.
  unfold followPathToStore_from. rewrite Hst.
  destruct (fs_symlink_status fs2 root) as [e0 | status]; [apply IH |].
  rewrite Hcall.
  destruct (followPathToStore fs2 opts fuel maxRecursionLevel res root status)
    as [[r o] |]; trivial.
Qed.

Lemma failed_entry_hides_the_rest_witness :
  let broken := with_unreadable_status (Sim.fs two_links)
                  ["/"; "v"; "gcroots"; "a"] EACCES in
  followPathsToStore broken Sim.opts 5 (standardRoots Sim.opts)
  = followPathsToStore
      (with_listing broken ["/"; "v"; "gcroots"]
         ([ ["/"; "v"; "gcroots"; "a"] ], None))
      Sim.opts 5 (standardRoots Sim.opts).
Proof.
  cbv zeta.
  apply (failed_entry_hides_the_rest _ _ Sim.opts ["/"; "v"; "gcroots"]
           [] ["/"; "v"; "gcroots"; "a"]
           [ ["/"; "v"; "gcroots"; "b"] ] None [] None EACCES).
  - reflexivity.
  - reflexivity.
  - reflexivity.
  - intros p Hne. simpl.
    destruct (Path.eqb p ["/"; "v"; "gcroots"]) eqn:E; trivial.
    apply path_eqb_eq in E. contradiction.
  - vm_compute. reflexivity.
  - vm_compute. reflexivity.
  - vm_compute. reflexivity.
Defined.

(** A symbolic link whose target does not exist, or cannot be examined,
    is in the dead-link set when the call on it ends. *)
Theorem missing_target_is_dead_link
    fs opts fuel recursionsLeft res root link res' o :
  0 <= recursionsLeft ->
  fs_read_symlink fs root = inr link ->
  fs_symlink_status fs (Path.parent_path root // link) = inr ft_not_found
  \/ (exists e, fs_symlink_status fs (Path.parent_path root // link) = inl e) ->
  followPathToStore fs opts fuel recursionsLeft res root ft_symlink
  = Some (res', o) ->
  In root (deadLinks res').
Proof.
  intros Hn Hlink Hmissing H.
  destruct fuel as [| fuel]; [discriminate |]. cbn [followPathToStore] in H.
  destruct (Z.ltb_spec recursionsLeft 0); [lia |].
  rewrite Hlink in H.
  assert (Hdead : forall r, In root (deadLinks (not_found root r)))
    by (intros r; simpl; apply set_insert_In; now left).
  destruct Hmissing as [Hst | [e Hst]]; rewrite Hst in H.
  - cbn [is_not_found] in H.
    destruct (isInStore (storeDir opts) (Path.parent_path root // link)).
    + inversion H; subst. simpl. apply Hdead.
    + destruct (followPathToStore fs opts fuel (recursionsLeft - 1) _ _ _)
        as [[r2 o2] |] eqn:E; try discriminate.
      apply tracer_only_adds_dead with (d := root) in E; [| apply Hdead].
      destruct o2; inversion H as [Hr];
        rewrite (regular_case_dead_eq _ _ _ _ _ _ Hr); trivial.
  - inversion H as [Hr]. rewrite (regular_case_dead_eq _ _ _ _ _ _ Hr).
    apply Hdead.
Qed.

Lemma missing_target_is_dead_link_witness :
  In ["/"; "v"; "gcroots"; "a"]
     (deadLinks
        (mkTraceResult
           [ (["/"; "s"; "gone"], [ ["/"; "v"; "gcroots"; "a"] ]) ]
           [ ["/"; "v"; "gcroots"; "a"] ])).
Proof.
  apply (missing_target_is_dead_link (Sim.fs Sim.dangling_into_store) Sim.opts
           3 maxRecursionLevel emptyTraceResult
           ["/"; "v"; "gcroots"; "a"] ["/"; "s"; "gone"] _ Returned).
  - unfold maxRecursionLevel. lia.
  - reflexivity.
  - left. reflexivity.
  - vm_compute. reflexivity.
Defined.

(** The [catch] of the symlink case takes every exception of the nested
    call for a missing target: a link whose target exists, but is itself
    a link that cannot be read, is reported as a dead link. *)
Theorem link_to_unreadable_link_is_dead
    fs opts fuel recursionsLeft res root link e res' o :
  1 <= recursionsLeft ->
  fs_read_symlink fs root = inr link ->
  fs_symlink_status fs (Path.parent_path root // link) = inr ft_symlink ->
  isInStore (storeDir opts) (Path.parent_path root // link) = false ->
  fs_read_symlink fs (Path.parent_path root // link) = inl e ->
  followPathToStore fs opts fuel recursionsLeft res root ft_symlink
  = Some (res', o) ->
  In root (deadLinks res').
Proof.
  intros Hn Hlink Hst Hout Hfail H.
  destruct fuel as [| fuel]; [discriminate |]. cbn [followPathToStore] in H.
  destruct (Z.ltb_spec recursionsLeft 0); [lia |].
  rewrite Hlink, Hst, Hout in H. cbn [is_not_found] in H.
  destruct fuel as [| fuel]; [discriminate |]. cbn [followPathToStore] in H.
  destruct (Z.ltb_spec (recursionsLeft - 1) 0); [lia |].
  rewrite Hfail in H.
  inversion H as [Hr]. rewrite (regular_case_dead_eq _ _ _ _ _ _ Hr).
  simpl. apply set_insert_In. now left.
Qed.

Lemma link_to_unreadable_link_is_dead_witness :
  In ["/"; "v"; "gcroots"; "a"]
     (deadLinks
        (mkTraceResult [] [ ["/"; "v"; "gcroots"; "a"] ])).
Proof.
  apply (link_to_unreadable_link_is_dead
           (with_unreadable_link (Sim.fs Sim.two_hops)
              ["/"; "home"; "u"; "profile"] EACCES)
           Sim.opts 3 maxRecursionLevel emptyTraceResult
           ["/"; "v"; "gcroots"; "a"] ["/"; "home"; "u"; "profile"] EACCES
           _ Returned).
  - unfold maxRecursionLevel. lia.
  - reflexivity.
  - reflexivity.
  - reflexivity.
  - reflexivity.
  - vm_compute. reflexivity.
Defined.

(** ** What the runtime scans record *)

Lemma fold_add_root_edges {A : Type} (f : Roots -> A -> Roots)
    (entry : A -> option (path * path)) l :
  (forall res x,
     f res x = match entry x with
               | Some (k, r) => RootsMap.add_root k r res
               | None => res
               end) ->
  forall res e,
    In e (RootsMap.edges (fold_left f l res))
    <-> In e (RootsMap.edges res)
        \/ exists x, In x l /\ entry x = Some e.
Proof.
  intros Hf. induction l as [| x l IH]; simpl; intros res e.
  - split; auto. intros [H | (x & [] & _)]; trivial.
  - rewrite IH, Hf. destruct (entry x) as [[k r] |] eqn:E.
    + rewrite add_root_edges_In. split.
      * intros [[-> | H] | (y & Hy & He)].
        -- right. exists x. auto.
        -- now left.
        -- right. exists y. auto.
      * intros [H | (y & [<- | Hy] & He)].
        -- left. now right.
        -- left. left. congruence.
        -- right. exists y. auto.
    + split.
      * intros [H | (y & Hy & He)]; [now left |].
        right. exists y. auto.
      * intros [H | (y & [<- | Hy] & He)]; [now left | congruence |].
        right. exists y. auto.
Qed.

Lemma scanFileContent_adds fs opts fileToScan res res' :
  scanFileContent fs opts fileToScan res = inr res' ->
  forall e,
    In e (RootsMap.edges res')
    <-> In e (RootsMap.edges res)
        \/ (fs_exists fs fileToScan = inr true
            /\ exists m,
                 In m (regex_iterate (storePathRegex (storeDir opts)) 0
                         (fs_read_file fs fileToScan))
                 /\ e = (Path.of_string m, fileToScan)).
Proof.
  intros H. unfold scanFileContent, bind in H.
  destruct (fs_exists fs fileToScan) as [e0 | [|]]; simpl in H;
    inversion H; subst; clear H; intros e.
  - rewrite (fold_add_root_edges _
               (fun i => Some (Path.of_string i, fileToScan)))
      by reflexivity.
    split.
    + intros [H | (m & Hm & He)]; auto.
      right. split; trivial. exists m. split; congruence.
    + intros [H | (_ & m & Hm & ->)]; eauto.
  - split; auto. intros [H | (Hex & _)]; [trivial | discriminate].
Qed.

(** [scanFileContent] adds one edge for every match of the store-path
    expression in the file, from the path the match spells to the file
    scanned, and changes nothing else; every match is the store root, a
    separator and a name that obeys the lexical rule. A file that does not
    exist adds nothing. *)
Theorem scanFileContent_edges fs opts fileToScan res res' :
  scanFileContent fs opts fileToScan res = inr res' ->
  (forall e,
     In e (RootsMap.edges res')
     <-> In e (RootsMap.edges res)
         \/ (fs_exists fs fileToScan = inr true
             /\ exists m,
                  In m (regex_iterate (storePathRegex (storeDir opts)) 0
                          (fs_read_file fs fileToScan))
                  /\ e = (Path.of_string m, fileToScan)))
  /\ (forall m,
        In m (regex_iterate (storePathRegex (storeDir opts)) 0
                (fs_read_file fs fileToScan)) ->
        exists n, store_object_name n = true
                  /\ m = (Path.to_string (storeDir opts) ++ "/" ++ n)%string).
Proof.
  intros H. split; [| intros m; apply storePathRegex_matches].
  now apply scanFileContent_adds.
Qed.

Lemma scanFileContent_edges_witness :
  let fs := Sim.fs with_environ_and_maps in
  let file := ["/"; "proc"; "42"; "environ"] in
  let matches := regex_iterate (storePathRegex (storeDir Sim.opts)) 0
                   (fs_read_file fs file) in
  (forall e,
     In e (RootsMap.edges [ (["/"; "s"; "abc-hello"], [ file ]) ])
     <-> In e (RootsMap.edges [])
         \/ (fs_exists fs file = inr true
             /\ exists m, In m matches /\ e = (Path.of_string m, file)))
  /\ (forall m,
        In m matches ->
        exists n, store_object_name n = true
                  /\ m = (Path.to_string (storeDir Sim.opts) ++ "/" ++ n)%string).
Proof.
  cbv zeta.
  apply (scanFileContent_edges (Sim.fs with_environ_and_maps) Sim.opts).
  vm_compute. reflexivity.
Defined.

(** ** Where a match of the store-path expression ends *)

Lemma take_while_run p r t :
  string_forall p r = true -> stops p t ->
  take_while p (r ++ t) = (r, t).
Proof.
  induction r as [| c r IH]; simpl; intros Hr Ht.
  - destruct t as [| c t]; simpl in *; trivial. now rewrite Ht.
  - apply andb_true_iff in Hr. destruct Hr as [Hc Hr].
    now rewrite Hc, IH.
Qed.

Lemma take_while_widen (p q : ascii -> bool) :
  (forall c, p c = true -> q c = true) ->
  forall s m1 r1 m2 r2,
    take_while p s = (m1, r1) -> take_while q r1 = (m2, r2) ->
    take_while q s = ((m1 ++ m2)%string, r2).
Proof.
  intros Hpq. induction s as [| c s IH]; simpl; intros m1 r1 m2 r2 H1 H2.
  - inversion H1; subst. simpl in *. congruence.
  - destruct (p c) eqn:Ep.
    + destruct (take_while p s) as [m r] eqn:E. inversion H1; subst.
      rewrite (Hpq c Ep), (IH _ _ _ _ eq_refl H2). reflexivity.
    + inversion H1; subst. simpl in H2. exact H2.
Qed.

Lemma match_atoms_literal l re s :
  match_atoms (literal l ++ re) (l ++ s)
  = match match_atoms re s with
    | Some (m, g, r) => Some ((l ++ m)%string, g, r)
    | None => None
    end.
Proof.
  induction l as [| c l IH]; simpl.
  - now destruct (match_atoms re s) as [[[m g] r] |].
  - unfold match_atom. simpl. rewrite Ascii.eqb_refl, IH.
    now destruct (match_atoms re s) as [[[m g] r] |].
Qed.

Lemma regex_iterate_skip re m rest :
  regex_iterate re (String.length m) (m ++ rest) = regex_iterate re 0 rest.
Proof.
  induction m as [| c m IH]; simpl; trivial.
Qed.

Lemma regex_iterate_first re c m g rest :
  match_atoms re (String c m ++ rest) = Some (String c m, g, rest) ->
  regex_iterate re 0 (String c m ++ rest)
  = String c m :: regex_iterate re 0 rest.
Proof.
  intros H. cbn [append regex_iterate]. cbn [append] in H. rewrite H.
  now rewrite regex_iterate_skip.
Qed.

Lemma store_name_first_rest c :
  store_name_first c = true -> store_name_rest c = true.
Proof.
  unfold store_name_first, store_name_rest. intros H.
  apply orb_true_iff in H. destruct H as [-> | ->]; simpl; trivial.
  now rewrite orb_true_r.
Qed.

(** Where the content holds the store root, a separator and a name that
    obeys the lexical rule, followed by the end of the content or by a
    character that cannot be part of a name, the first match of the
    store-path expression is exactly that store-object path, and the
    search goes on right after it. *)
Theorem store_path_match_ends_at_name store n rest :
  store_object_name n = true ->
  stops store_name_rest rest ->
  regex_iterate (storePathRegex store) 0
    (Path.to_string store ++ "/" ++ n ++ rest)
  = (Path.to_string store ++ "/" ++ n)%string
    :: regex_iterate (storePathRegex store) 0 rest.
Proof.
  intros Hn Hrest.
  destruct n as [| c n]; [discriminate |]. simpl in Hn.
  apply andb_true_iff in Hn. destruct Hn as [Hc Hn].
  assert (Hname : string_forall store_name_rest (String c n) = true)
    by (simpl; now rewrite (store_name_first_rest c Hc)).
  assert (Hmatch :
            match_atoms (storePathRegex store)
              (Path.to_string store ++ "/" ++ String c n ++ rest)
            = Some ((Path.to_string store ++ "/" ++ String c n)%string, "", rest)).
  { unfold storePathRegex, quoteRegexChars. rewrite match_atoms_literal.
    cbn [match_atoms append]. unfold match_atom at 1. cbn [quant cls captured].
    change (Ascii.eqb "/" "/") with true. cbv iota.
    unfold match_atom at 1. cbn [quant cls captured].
    destruct (take_while store_name_first (String c (n ++ rest)))
      as [m1 r1] eqn:E1.
    assert (Hm1 : exists m1', m1 = String c m1').
    { simpl in E1. rewrite Hc in E1.
      destruct (take_while store_name_first (n ++ rest)) as [m r].
      inversion E1. eauto. }
    destruct Hm1 as [m1' ->].
    unfold match_atom. cbn [quant cls captured].
    destruct (take_while store_name_rest r1) as [m2 r2] eqn:E2.
    pose proof (take_while_widen _ _ store_name_first_rest _ _ _ _ _ E1 E2)
      as Hw.
    change (String c (n ++ rest)) with (String c n ++ rest)%string in Hw.
    rewrite (take_while_run _ _ _ Hname Hrest) in Hw.
    inversion Hw as [[Hm Hr]]. subst r2.
    rewrite string_app_nil_r. reflexivity. }
  assert (Hsplit : forall t,
            (Path.to_string store ++ "/" ++ String c n ++ t
             = (Path.to_string store ++ "/" ++ String c n) ++ t)%string).
  { intros t. rewrite string_app_assoc. reflexivity. }
  rewrite Hsplit in *.
  destruct ((Path.to_string store ++ "/" ++ String c n)%string)
    as [| c0 m0] eqn:Em.
  - destruct (Path.to_string store); discriminate.
  - now apply regex_iterate_first with (g := "").
Qed.

Lemma store_path_match_ends_at_name_witness :
  regex_iterate (storePathRegex ["/"; "s"]) 0 "/s/abc-hello/bin:/s/xyz"
  = "/s/abc-hello" :: regex_iterate (storePathRegex ["/"; "s"]) 0 "/bin:/s/xyz".
Proof.
  apply (store_path_match_ends_at_name ["/"; "s"] "abc-hello" "/bin:/s/xyz").
  - reflexivity.
  - reflexivity.
Defined.

(** ** The lines of a maps file *)

Lemma match_atoms_plus p cap re r t :
  r <> "" -> string_forall p r = true -> stops p t ->
  match_atoms (mkAtom p Plus cap :: re) (r ++ t)
  = match match_atoms re t with
    | Some (m', g, r') =>
        Some ((r ++ m')%string, ((if cap then r else "") ++ g)%string, r')
    | None => None
    end.
Proof.
  intros Hne Hr Ht. cbn [match_atoms]. unfold match_atom.
  cbn [quant cls captured]. rewrite (take_while_run p r t Hr Ht).
  destruct r; [contradiction | reflexivity].
Qed.

Lemma match_atoms_star p cap re r t :
  string_forall p r = true -> stops p t ->
  match_atoms (mkAtom p Star cap :: re) (r ++ t)
  = match match_atoms re t with
    | Some (m', g, r') =>
        Some ((r ++ m')%string, ((if cap then r else "") ++ g)%string, r')
    | None => None
    end.
Proof.
  intros Hr Ht. cbn [match_atoms]. unfold match_atom.
  cbn [quant cls captured]. now rewrite (take_while_run p r t Hr Ht).
Qed.

Lemma field_stops f t : field f -> stops is_space (f ++ t).
Proof.
  intros [Hne Hf]. destruct f as [| c f]; [contradiction |]. simpl in *.
  apply andb_true_iff in Hf. destruct Hf as [Hc _].
  unfold non_space in Hc. now apply negb_true_iff in Hc.
Qed.

Lemma spaces_stop w t :
  string_forall is_space w = true -> stops non_space t ->
  stops non_space (w ++ t).
Proof.
  intros Hw Ht. destruct w as [| c w]; simpl in *; trivial.
  apply andb_true_iff in Hw. destruct Hw as [Hc _].
  unfold non_space. now rewrite Hc.
Qed.

Lemma blank_stops w t : blank w -> stops non_space (w ++ t).
Proof.
  intros [Hne Hw]. destruct w as [| c w]; [contradiction |]. simpl in *.
  apply andb_true_iff in Hw. destruct Hw as [Hc _].
  unfold non_space. now rewrite Hc.
Qed.

Lemma match_atoms_one p cap re c t :
  match_atoms (mkAtom p One cap :: re) (String c t)
  = if p c
    then match match_atoms re t with
         | Some (m', g, r') =>
             Some (String c m',
                   ((if cap then String c "" else "") ++ g)%string, r')
         | None => None
         end
    else None.
Proof.
  cbn [match_atoms]. unfold match_atom. cbn [quant cls captured].
  destruct (p c); reflexivity.
Qed.

Lemma spaces_stop_here w :
  string_forall is_space w = true -> stops non_space w.
Proof.
  intros Hw. rewrite <- (string_app_nil_r w). apply spaces_stop; simpl; trivial.
Qed.

Lemma match_atoms_star_end p cap w :
  string_forall p w = true ->
  match_atoms [ mkAtom p Star cap ] w
  = Some (w, if cap then w else "", "").
Proof.
  intros Hw. rewrite <- (string_app_nil_r w) at 1.
  rewrite match_atoms_star by (simpl; trivial).
  cbn [match_atoms]. rewrite !string_app_nil_r. reflexivity.
Qed.

Lemma maps_line_tail f6 w6 :
  field f6 -> string_forall is_space w6 = true ->
  match_atoms [ mkAtom (Ascii.eqb "/") One true; mkAtom non_space Plus true;
                mkAtom is_space Star false ] (f6 ++ w6)
  = if is_path_field f6 then Some ((f6 ++ w6)%string, f6, "") else None.
Proof.
  intros [Hne Hf] Hw.
  destruct f6 as [| c f6]; [contradiction |].
  simpl in Hf. apply andb_true_iff in Hf. destruct Hf as [_ Hf].
  change (String c f6 ++ w6)%string with (String c (f6 ++ w6)).
  rewrite match_atoms_one. unfold is_path_field.
  rewrite (Ascii.eqb_sym c "/").
  destruct (Ascii.eqb "/" c) eqn:Ec; [| now destruct f6].
  destruct f6 as [| c6 f6].
  - cbn [append match_atoms]. unfold match_atom at 1. cbn [quant cls captured].
    change w6 with ("" ++ w6)%string at 1.
    rewrite (take_while_run non_space "" w6 eq_refl (spaces_stop_here w6 Hw)).
    reflexivity.
  - rewrite (match_atoms_plus _ _ _ (String c6 f6) w6)
      by (trivial; try discriminate; now apply spaces_stop_here).
    rewrite (match_atoms_star_end _ _ w6 Hw).
    cbn [append]. rewrite string_app_nil_r. reflexivity.
Qed.

(** A line of six fields separated by white space, with or without white
    space around them, matches the expression of [scanMapsFile] exactly
    when its sixth field begins with a separator and has something after
    it; that field is what is captured. So the lines of anonymous and
    special mappings, such as [[heap]] or [[stack]], give nothing. *)
Theorem maps_line_path w0 f1 w1 f2 w2 f3 w3 f4 w4 f5 w5 f6 w6 :
  string_forall is_space w0 = true ->
  field f1 -> blank w1 -> field f2 -> blank w2 -> field f3 -> blank w3 ->
  field f4 -> blank w4 -> field f5 -> blank w5 -> field f6 ->
  string_forall is_space w6 = true ->
  regex_match mapRegex
    (w0 ++ f1 ++ w1 ++ f2 ++ w2 ++ f3 ++ w3 ++ f4 ++ w4 ++ f5 ++ w5 ++ f6 ++ w6)
  = if is_path_field f6 then Some f6 else None.
Proof.
  intros H0 F1 B1 F2 B2 F3 B3 F4 B4 F5 B5 F6 H6.
  unfold regex_match, mapRegex.
  rewrite match_atoms_star by (trivial; now apply field_stops).
  rewrite (match_atoms_plus _ _ _ f1) by (try apply F1; now apply blank_stops).
  rewrite (match_atoms_plus _ _ _ w1) by (try apply B1; now apply field_stops).
  rewrite (match_atoms_plus _ _ _ f2) by (try apply F2; now apply blank_stops).
  rewrite (match_atoms_plus _ _ _ w2) by (try apply B2; now apply field_stops).
  rewrite (match_atoms_plus _ _ _ f3) by (try apply F3; now apply blank_stops).
  rewrite (match_atoms_plus _ _ _ w3) by (try apply B3; now apply field_stops).
  rewrite (match_atoms_plus _ _ _ f4) by (try apply F4; now apply blank_stops).
  rewrite (match_atoms_plus _ _ _ w4) by (try apply B4; now apply field_stops).
  rewrite (match_atoms_plus _ _ _ f5) by (try apply F5; now apply blank_stops).
  rewrite (match_atoms_plus _ _ _ w5) by (try apply B5; now apply field_stops).
  rewrite (maps_line_tail f6 w6 F6 H6).
  destruct (is_path_field f6); reflexivity.
Qed.

Lemma maps_line_path_witness :
  regex_match mapRegex
    "7f00-7f01 r-xp 00000000 08:01 1234   /s/xyz-libc/lib/libc.so"
  = Some "/s/xyz-libc/lib/libc.so".
Proof.
  apply (maps_line_path "" "7f00-7f01" " " "r-xp" " " "00000000" " " "08:01"
           " " "1234" "   " "/s/xyz-libc/lib/libc.so" "");
    try reflexivity; split; try discriminate; reflexivity.
Defined.

Lemma scanMapsFile_adds fs opts mapsFile res res' :
  scanMapsFile fs opts mapsFile res = inr res' ->
  forall e,
    In e (RootsMap.edges res')
    <-> In e (RootsMap.edges res)
        \/ (fs_exists fs mapsFile = inr true
            /\ exists line m,
                 In line (getlines "" (fs_read_file fs mapsFile))
                 /\ regex_match mapRegex line = Some m
                 /\ isInStore (storeDir opts) (Path.of_string m) = true
                 /\ e = (Path.of_string m, mapsFile)).
Proof.
  intros H. unfold scanMapsFile, bind in H.
  destruct (fs_exists fs mapsFile) as [e0 | [|]]; simpl in H;
    inversion H; subst; clear H; intros e.
  - rewrite (fold_add_root_edges _
               (fun line =>
                  match regex_match mapRegex line with
                  | Some m =>
                      if isInStore (storeDir opts) (Path.of_string m)
                      then Some (Path.of_string m, mapsFile) else None
                  | None => None
                  end)).
    + split.
      * intros [H | (line & Hline & He)]; [now left |].
        right. split; trivial.
        destruct (regex_match mapRegex line) as [m |] eqn:Em; try discriminate.
        destruct (isInStore (storeDir opts) (Path.of_string m)) eqn:Ein;
          try discriminate.
        exists line, m. repeat split; trivial. congruence.
      * intros [H | (_ & line & m & Hline & Hm & Hin & ->)]; [now left |].
        right. exists line. split; trivial. now rewrite Hm, Hin.
    + intros r line. destruct (regex_match mapRegex line) as [m |]; trivial.
      now destruct (isInStore (storeDir opts) (Path.of_string m)).
  - split; auto. intros [H | (Hex & _)]; [trivial | discriminate].
Qed.

(** [scanMapsFile] adds one edge for every line of the file whose path
    field is in the store, from that path, whole, to the maps file, and
    changes nothing else. A file that does not exist adds nothing. *)
Theorem scanMapsFile_edges fs opts mapsFile res res' :
  scanMapsFile fs opts mapsFile res = inr res' ->
  forall e,
    In e (RootsMap.edges res')
    <-> In e (RootsMap.edges res)
        \/ (fs_exists fs mapsFile = inr true
            /\ exists line m,
                 In line (getlines "" (fs_read_file fs mapsFile))
                 /\ regex_match mapRegex line = Some m
                 /\ isInStore (storeDir opts) (Path.of_string m) = true
                 /\ e = (Path.of_string m, mapsFile)).
Proof.
  exact (scanMapsFile_adds fs opts mapsFile res res').
Qed.

Lemma scanMapsFile_edges_witness :
  let fs := Sim.fs with_environ_and_maps in
  let file := ["/"; "proc"; "42"; "maps"] in
  let res' := [ (["/"; "s"; "xyz-libc"; "lib"; "libc.so"], [ file ]) ] in
  scanMapsFile fs Sim.opts file [] = inr res'
  /\ forall e,
       In e (RootsMap.edges res')
       <-> In e (RootsMap.edges [])
           \/ (fs_exists fs file = inr true
               /\ exists line m,
                    In line (getlines "" (fs_read_file fs file))
                    /\ regex_match mapRegex line = Some m
                    /\ isInStore (storeDir Sim.opts) (Path.of_string m) = true
                    /\ e = (Path.of_string m, file)).
Proof.
  cbv zeta. split.
  - vm_compute. reflexivity.
  - apply (scanMapsFile_edges (Sim.fs with_environ_and_maps) Sim.opts).
    vm_compute. reflexivity.
Defined.

(** ** The probes of a process *)

(** The readlink probes add one edge for every path considered whose link
    can be read and leads into the store, from the target, whole, to the
    path probed; a link that cannot be read is passed over. *)
Lemma probe_links_edges fs opts pathsToConsider res e :
  In e (RootsMap.edges (probe_links fs opts pathsToConsider res))
  <-> In e (RootsMap.edges res)
      \/ exists p realPath,
           In p pathsToConsider
           /\ fs_read_symlink fs p = inr realPath
           /\ isInStore (storeDir opts) realPath = true
           /\ e = (realPath, p).
Proof.
  unfold probe_links.
  rewrite (fold_add_root_edges _
             (fun p =>
                match fs_read_symlink fs p with
                | inr realPath =>
                    if isInStore (storeDir opts) realPath
                    then Some (realPath, p) else None
                | inl _ => None
                end)).
  - split.
    + intros [H | (p & Hp & He)]; [now left |].
      right. destruct (fs_read_symlink fs p) as [e0 | realPath] eqn:Er;
        try discriminate.
      destruct (isInStore (storeDir opts) realPath) eqn:Ein; try discriminate.
      exists p, realPath. repeat split; trivial. congruence.
    + intros [H | (p & realPath & Hp & Hr & Hin & ->)]; [now left |].
      right. exists p. split; trivial. now rewrite Hr, Hin.
  - intros r p. destruct (fs_read_symlink fs p) as [e0 | realPath]; trivial.
    now destruct (isInStore (storeDir opts) realPath).
Qed.

Lemma fold_insert_In l :
  forall s p,
    In p (fold_left (fun s x => PathSet.insert x s) l s) <-> In p s \/ In p l.
Proof.
  induction l as [| x l IH]; simpl; intros s p.
  - tauto.
  - rewrite IH, set_insert_In. intuition.
Qed.

(** The paths considered for a process are its [exe] and [cwd] and the
    entries of its [fd] directory; when the listing of [fd] ends with
    [ENOENT] or [EACCES], the entries seen before the error are still
    considered. *)
Lemma consider_fds_paths fs procEntry pathsToConsider paths' p :
  consider_fds fs procEntry pathsToConsider = inr paths' ->
  (In p paths'
   <-> In p pathsToConsider
       \/ In p (fst (fs_directory_iterator fs (procEntry // ["fd"]))))
  /\ (sorted_set pathsToConsider -> sorted_set paths').
Proof.
  unfold consider_fds.
  destruct (fs_directory_iterator fs (procEntry // ["fd"])) as [fdFiles err].
  intros H.
  assert (paths' = fold_left (fun s fdFile => PathSet.insert fdFile s)
                     fdFiles pathsToConsider) as ->.
  { destruct err as [e |]; [| congruence].
    destruct (negb (e =? ENOENT) && negb (e =? EACCES)); congruence. }
  split; [apply fold_insert_In |].
  clear. revert pathsToConsider.
  induction fdFiles as [| x l IH]; simpl; intros s Hs; trivial.
  apply IH. now apply set_insert_sorted.
Qed.

Lemma take_while_all p s :
  string_forall p s = true -> take_while p s = (s, "").
Proof.
  intros H. rewrite <- (string_app_nil_r s) at 1.
  now apply take_while_run.
Qed.

(** The expression for process directories accepts the names made of
    decimal digits, one at least, and no other. *)
Lemma digitsRegex_spec s :
  regex_match digitsRegex s = if is_pid_name s then Some "" else None.
Proof.
  unfold regex_match, digitsRegex, is_pid_name. cbn [match_atoms].
  unfold match_atom. cbn [quant cls captured].
  destruct (string_forall is_digit s) eqn:Hall.
  - rewrite (take_while_all _ _ Hall). now destruct s.
  - rewrite andb_false_r.
    destruct (take_while is_digit s) as [m r] eqn:E.
    apply take_while_spec in E. destruct E as [Hm ->].
    destruct m as [| c m]; trivial.
    destruct r as [| c' r]; trivial.
    rewrite string_app_nil_r in Hall. congruence.
Qed.

(** What the scan of one entry of [/proc] records. An entry whose name is
    not a number, or that is not a directory, is passed over. For a
    process directory the edges added are: from the target of [exe], of
    [cwd] and of every entry of [fd] that leads into the store, to the
    path probed; from every store-object path that the expression finds in
    [environ], to [environ]; from the path field of every line of [maps]
    that is in the store, to [maps]. *)
Theorem scan_process_edges fs opts res procEntry res' :
  scan_process fs opts res procEntry = inr res' ->
  (is_pid_name (Path.to_string (Path.filename procEntry)) = false
   \/ fs_is_directory fs procEntry = inr false ->
   res' = res)
  /\ (is_pid_name (Path.to_string (Path.filename procEntry)) = true ->
      fs_is_directory fs procEntry = inr true ->
      forall e,
        In e (RootsMap.edges res')
        <-> In e (RootsMap.edges res)
            \/ (exists p realPath,
                  (p = procEntry // ["exe"] \/ p = procEntry // ["cwd"]
                   \/ In p (fst (fs_directory_iterator fs (procEntry // ["fd"]))))
                  /\ fs_read_symlink fs p = inr realPath
                  /\ isInStore (storeDir opts) realPath = true
                  /\ e = (realPath, p))
            \/ (fs_exists fs (procEntry // ["environ"]) = inr true
                /\ exists m,
                     In m (regex_iterate (storePathRegex (storeDir opts)) 0
                             (fs_read_file fs (procEntry // ["environ"])))
                     /\ e = (Path.of_string m, procEntry // ["environ"]))
            \/ (fs_exists fs (procEntry // ["maps"]) = inr true
                /\ exists line m,
                     In line (getlines "" (fs_read_file fs (procEntry // ["maps"])))
                     /\ regex_match mapRegex line = Some m
                     /\ isInStore (storeDir opts) (Path.of_string m) = true
                     /\ e = (Path.of_string m, procEntry // ["maps"]))).
Proof.
  unfold scan_process. rewrite digitsRegex_spec. intros H. split.
  - intros [Hname | Hdir].
    + rewrite Hname in H. congruence.
    + destruct (is_pid_name _); [| congruence].
      rewrite Hdir in H. simpl in H. congruence.
  - intros Hname Hdir. rewrite Hname, Hdir in H. unfold bind in H.
    cbn [negb] in H.
    destruct (consider_fds fs procEntry _) as [e0 | paths] eqn:Efd;
      try discriminate.
    destruct (scanFileContent fs opts _ _) as [e0 | res1] eqn:Eenv;
      try discriminate.
    intros e.
    rewrite (scanMapsFile_adds _ _ _ _ _ H).
    rewrite (scanFileContent_adds _ _ _ _ _ Eenv).
    rewrite probe_links_edges.
    assert (Hpaths : forall p,
               In p paths
               <-> p = procEntry // ["exe"] \/ p = procEntry // ["cwd"]
                   \/ In p (fst (fs_directory_iterator fs (procEntry // ["fd"])))).
    { intros p.
      rewrite (proj1 (consider_fds_paths _ _ _ _ p Efd)).
      rewrite !set_insert_In. unfold PathSet.empty. simpl. tauto. }
    split.
    + intros [[[He | (p & realPath & Hp & Hrest)] | Henv] | Hmaps]; auto.
      right; left. exists p, realPath. split; trivial. now apply Hpaths.
    + intros [He | [(p & realPath & Hp & Hrest) | [Henv | Hmaps]]]; auto.
      left; left; right. exists p, realPath. split; trivial. now apply Hpaths.
Qed.

Lemma scan_process_edges_witness :
  let fs := Sim.fs with_environ_and_maps in
  let procEntry := ["/"; "proc"; "42"] in
  let res' := [ (["/"; "s"; "abc-hello"], [ ["/"; "proc"; "42"; "environ"] ]);
                (["/"; "s"; "xyz-libc"; "lib"; "libc.so"],
                 [ ["/"; "proc"; "42"; "maps"] ]) ] in
  scan_process fs Sim.opts [] procEntry = inr res'
  /\ forall e,
    In e (RootsMap.edges res')
    <-> In e (RootsMap.edges [])
        \/ (exists p realPath,
              (p = procEntry // ["exe"] \/ p = procEntry // ["cwd"]
               \/ In p (fst (fs_directory_iterator fs (procEntry // ["fd"]))))
              /\ fs_read_symlink fs p = inr realPath
              /\ isInStore (storeDir Sim.opts) realPath = true
              /\ e = (realPath, p))
        \/ (fs_exists fs (procEntry // ["environ"]) = inr true
            /\ exists m,
                 In m (regex_iterate (storePathRegex (storeDir Sim.opts)) 0
                         (fs_read_file fs (procEntry // ["environ"])))
                 /\ e = (Path.of_string m, procEntry // ["environ"]))
        \/ (fs_exists fs (procEntry // ["maps"]) = inr true
            /\ exists line m,
                 In line (getlines "" (fs_read_file fs (procEntry // ["maps"])))
                 /\ regex_match mapRegex line = Some m
                 /\ isInStore (storeDir Sim.opts) (Path.of_string m) = true
                 /\ e = (Path.of_string m, procEntry // ["maps"])).
Proof.
  cbv zeta. split.
  - vm_compute. reflexivity.
  - apply (scan_process_edges (Sim.fs with_environ_and_maps) Sim.opts []
             ["/"; "proc"; "42"]).
    + vm_compute. reflexivity.
    + reflexivity.
    + reflexivity.
Defined.

(** ** What the merge of [main] keeps *)

Lemma path_eqb_refl k : Path.eqb k k = true.
Proof.
  now apply path_eqb_eq.
Qed.

Lemma path_eqb_neq k k' : k <> k' -> Path.eqb k k' = false.
Proof.
  intros Hne. destruct (Path.eqb k k') eqn:E; trivial.
  apply path_eqb_eq in E. contradiction.
Qed.

Lemma map_insert_find_new k v m :
  RootsMap.find k m = None -> RootsMap.find k (RootsMap.insert (k, v) m) = Some v.
Proof.
  induction m as [| [k' v'] m IH]; simpl; intros H.
  - now rewrite path_eqb_refl.
  - destruct (Path.eqb k k') eqn:E; try discriminate.
    destruct (Path.compare k k') eqn:Ec; simpl.
    + apply path_compare_eq in Ec. subst. rewrite path_eqb_refl in E.
      discriminate.
    + now rewrite path_eqb_refl.
    + rewrite E. auto.
Qed.

Lemma map_insert_find_other k k0 v0 m :
  k <> k0 ->
  RootsMap.find k (RootsMap.insert (k0, v0) m) = RootsMap.find k m.
Proof.
  intros Hne. induction m as [| [k' v'] m IH]; simpl.
  - now rewrite path_eqb_neq.
  - destruct (Path.compare k0 k') eqn:Ec; simpl; trivial.
    + now rewrite (path_eqb_neq k k0 Hne).
    + now rewrite IH.
Qed.

Lemma insert_range_find_new range :
  forall m k v,
    sorted_roots m -> Forall (fun kv => sorted_set (snd kv)) range ->
    RootsMap.find k m = None -> RootsMap.find k range = Some v ->
    RootsMap.find k (RootsMap.insert_range m range) = Some v.
Proof.
  induction range as [| [k0 v0] range IH]; simpl; intros m k v Hm Hr Hf Hv;
    try discriminate.
  inversion Hr; subst.
  assert (Hs : sorted_roots (RootsMap.insert (k0, v0) m))
    by now apply map_insert_sorted.
  unfold RootsMap.insert_range. simpl.
  destruct (Path.eqb k k0) eqn:E.
  - apply path_eqb_eq in E. subst k0. inversion Hv; subst v0.
    apply insert_range_find_present; trivial.
    now apply map_insert_find_new.
  - apply IH; trivial. rewrite map_insert_find_other; trivial.
    intros ->. rewrite path_eqb_refl in E. discriminate.
Qed.

Lemma insert_range_keys_of_range range :
  forall m k, In k (RootsMap.keys m) \/ In k (RootsMap.keys range) ->
              In k (RootsMap.keys (RootsMap.insert_range m range)).
Proof.
  unfold RootsMap.insert_range.
  induction range as [| kv range IH]; simpl; intros m k H.
  - tauto.
  - apply IH. rewrite map_insert_keys_In.
    destruct H as [H | [H | H]]; auto.
Qed.

(** No store path found by either scan is missing from the response: its
    keys are those of the tracer and those of the runtime scanner; a key
    that the runtime scanner alone found has the roots it found; and the
    dead links are those of the tracer. *)
Theorem response_has_every_key fuel fs opts tr sent :
  serve fuel fs opts = Some (Responded tr sent) ->
  exists trace runtime,
    followPathsToStore fs opts fuel (standardRoots opts) = Some trace
    /\ getRuntimeRoots fs opts = inr runtime
    /\ (forall k,
          In k (RootsMap.keys (storeRoots tr))
          <-> In k (RootsMap.keys (storeRoots trace))
              \/ In k (RootsMap.keys runtime))
    /\ (forall k roots,
          RootsMap.find k (storeRoots trace) = None ->
          RootsMap.find k runtime = Some roots ->
          RootsMap.find k (storeRoots tr) = Some roots)
    /\ deadLinks tr = deadLinks trace.
Proof.
  intros H. apply serve_Responded in H.
  destruct H as (trace & runtime & Ht & Hr & -> & _).
  exists trace, runtime. repeat split; trivial; simpl.
  - apply insert_range_keys_In.
  - apply insert_range_keys_of_range.
  - intros k roots Hnone Hsome.
    apply followPathsToStore_sorted in Ht. destruct Ht as [Ht _].
    apply getRuntimeRoots_sorted in Hr. destruct Hr as [_ Hr].
    now apply insert_range_find_new.
Qed.

Lemma response_has_every_key_witness :
  exists trace runtime,
    followPathsToStore (Sim.fs Sim.running) Sim.opts 10 (standardRoots Sim.opts)
    = Some trace
    /\ getRuntimeRoots (Sim.fs Sim.running) Sim.opts = inr runtime
    /\ (forall k,
          In k [ ["/"; "s"; "abc-hello"; "bin"; "hello"] ]
          <-> In k (RootsMap.keys (storeRoots trace))
              \/ In k (RootsMap.keys runtime))
    /\ (forall k roots,
          RootsMap.find k (storeRoots trace) = None ->
          RootsMap.find k runtime = Some roots ->
          RootsMap.find k
            [ (["/"; "s"; "abc-hello"; "bin"; "hello"],
               [ ["/"; "proc"; "42"; "exe"] ]) ] = Some roots)
    /\ [] = deadLinks trace.
Proof.
  apply (response_has_every_key 10 (Sim.fs Sim.running) Sim.opts
           (mkTraceResult
              [ (["/"; "s"; "abc-hello"; "bin"; "hello"],
                 [ ["/"; "proc"; "42"; "exe"] ]) ] [])
           ("/s/abc-hello/bin/hello" ++ TAB ++ "/proc/42/exe" ++ LF ++ LF)%string).
  vm_compute. reflexivity.
Defined.

(** ** The command line *)

(** The options that work. The socket path can be given as [-l path],
    [-lpath], [--socket_path path] or [--socket_path=path]; the store and
    state roots as [--store_dir path], [--store_dir=path],
    [--state_dir path] or [--state_dir=path]; a path given in a separate
    argument is taken as it is, whatever it looks like. [-v] and
    [--verbose] do the same. *)
Theorem options_that_work prog p c r :
  let socket := Parsed (set_socketPath (Path.of_string p) defaultOpts) in
  let store := Parsed (set_storeDir (Path.of_string p) defaultOpts) in
  let state := Parsed (set_stateDir (Path.of_string p) defaultOpts) in
  parseCmdLine [prog; "-l"; p] = socket
  /\ parseCmdLine [prog; "--socket_path"; p] = socket
  /\ parseCmdLine [prog; ("--socket_path=" ++ p)%string] = socket
  /\ parseCmdLine [prog; ("-l" ++ String c r)%string]
     = Parsed (set_socketPath (Path.of_string (String c r)) defaultOpts)
  /\ parseCmdLine [prog; "--store_dir"; p] = store
  /\ parseCmdLine [prog; ("--store_dir=" ++ p)%string] = store
  /\ parseCmdLine [prog; "--state_dir"; p] = state
  /\ parseCmdLine [prog; ("--state_dir=" ++ p)%string] = state
  /\ parseCmdLine [prog; "-v"] = Parsed (set_verbosity Verbose defaultOpts)
  /\ parseCmdLine [prog; "--verbose"] = Parsed (set_verbosity Verbose defaultOpts).
Proof.
  cbv zeta. repeat split; reflexivity.
Qed.

Lemma optstring_lookup_found c takes_argument :
  optstring_lookup c optstring = Some takes_argument ->
  c = "v"%char \/ c = "s"%char \/ c = "l"%char.
Proof.
  unfold optstring. cbn [optstring_lookup]. intros H.
  destruct (Ascii.eqb "v" c) eqn:Ev;
    [apply Ascii.eqb_eq in Ev; auto |].
  destruct (Ascii.eqb "s" c) eqn:Es;
    [apply Ascii.eqb_eq in Es; auto |].
  destruct (Ascii.eqb "l" c) eqn:El;
    [apply Ascii.eqb_eq in El; auto |].
  cbn [andb] in H.
  destruct (Ascii.eqb ":" c) eqn:Ec.
  - apply Ascii.eqb_eq in Ec. subst c. discriminate.
  - discriminate.
Qed.

(** One step of [getopt_long], with the tests on the first two characters
    of the argument written as such. *)
Lemma getopt_long_step arg rest :
  getopt_long (arg :: rest) false
  = if String.eqb arg "--" then []
    else match arg with
         | String c0 (String c1 cluster) =>
             if Ascii.eqb c0 "-"
             then if Ascii.eqb c1 "-"
                  then let '(r, used) := long_option_step cluster (hd_error rest) in
                       r :: getopt_long rest used
                  else let '(rs, used) :=
                         short_options (String c1 cluster) (hd_error rest) in
                       rs ++ getopt_long rest used
             else getopt_long rest false
         | _ => getopt_long rest false
         end.
Proof.
  cbn [getopt_long]. destruct (String.eqb arg "--"); trivial.
  destruct arg as [| c0 [| c1 cluster]]; trivial.
  - destruct c0 as [[] [] [] [] [] [] [] []]; reflexivity.
  - destruct c0 as [[] [] [] [] [] [] [] []]; try reflexivity.
    destruct c1 as [[] [] [] [] [] [] [] []]; reflexivity.
Qed.

Lemma short_options_have_case cluster next :
  Forall has_case (fst (short_options cluster next)).
Proof.
  induction cluster as [| c cluster IH]; cbn [short_options];
    [constructor |].
  destruct (optstring_lookup c optstring) as [[|] |] eqn:E.
  - apply optstring_lookup_found in E.
    destruct cluster, next; cbn [fst]; (constructor; [| constructor]);
      cbn [has_case]; tauto.
  - apply optstring_lookup_found in E.
    destruct (short_options cluster next) as [l used]. cbn [fst] in *.
    constructor; trivial. cbn [has_case]. tauto.
  - destruct (short_options cluster next) as [l used]. cbn [fst] in *.
    constructor; cbn [has_case]; trivial.
Qed.

Lemma long_option_step_has_case body next :
  has_case (fst (long_option_step body next)).
Proof.
  unfold long_option_step. destruct (split_at_equals body) as [nm value].
  unfold long_options. cbn [find name].
  repeat match goal with
         | |- context [String.eqb ?a nm] => destruct (String.eqb a nm)
         end;
    destruct value, next; simpl; auto.
Qed.

Lemma getopt_long_has_case args :
  forall skip, Forall has_case (getopt_long args skip).
Proof.
  induction args as [| arg rest IH]; intros skip; [constructor |].
  destruct skip; [exact (IH false) |].
  rewrite getopt_long_step.
  destruct (String.eqb arg "--"); [constructor |].
  destruct arg as [| c0 [| c1 cluster]]; try apply IH.
  destruct (Ascii.eqb c0 "-"); [| apply IH].
  destruct (Ascii.eqb c1 "-").
  - pose proof (long_option_step_has_case cluster (hd_error rest)) as H.
    destruct (long_option_step cluster (hd_error rest)) as [r used].
    constructor; [exact H | apply IH].
  - pose proof (short_options_have_case (String c1 cluster) (hd_error rest))
      as H.
    destruct (short_options (String c1 cluster) (hd_error rest)) as [rs used].
    apply Forall_app. split; [exact H | apply IH].
Qed.

Lemma handle_options_never_aborts rets :
  Forall has_case rets -> forall res, handle_options rets res <> Aborted.
Proof.
  induction 1 as [| r rets Hr Hrets IH]; intros res; simpl; [discriminate |].
  destruct r as [c optarg | v | |]; try discriminate; [| apply IH].
  simpl in Hr. destruct Hr as [-> | [-> | [-> | ->]]]; simpl;
    destruct optarg; simpl; try discriminate; apply IH.
Qed.

(** Whatever the arguments, [parseCmdLine] returns options, ends in the
    usage message, or runs into one of its two undefined behaviours; the
    [default] branch of its [switch], with [abort()], is never taken,
    because [getopt_long] only returns characters that have a case. *)
Theorem parseCmdLine_never_aborts argv : parseCmdLine argv <> Aborted.
Proof.
  apply handle_options_never_aborts, getopt_long_has_case.
Qed.

(** Arguments that are not options are passed over without a word:
    leading arguments that do not begin with a dash, or are a lone dash,
    change nothing; and nothing after [--] is looked at. *)
Theorem positional_arguments_ignored prog positional rest :
  Forall (fun arg => is_option_argument arg = false) positional ->
  parseCmdLine (prog :: positional ++ rest) = parseCmdLine (prog :: rest)
  /\ parseCmdLine (prog :: positional ++ "--" :: rest) = Parsed defaultOpts.
Proof.
  intros Hpos. unfold parseCmdLine. cbn [tl].
  assert (Hskip : forall tail,
             getopt_long (positional ++ tail) false = getopt_long tail false).
  { intros tail. induction Hpos as [| arg positional Harg _ IH]; trivial.
    cbn [app]. rewrite getopt_long_step.
    destruct arg as [| c0 [| c1 cluster]]; trivial.
    - cbn [String.eqb]. destruct (Ascii.eqb c0 "-"); exact IH.
    - simpl in Harg. cbn [String.eqb]. rewrite Harg. exact IH. }
  rewrite !Hskip. split; reflexivity.
Qed.

Lemma positional_arguments_ignored_witness :
  parseCmdLine ("nix-find-roots" :: ["start"; "-"] ++ ["-l"; "/run/gc"])
  = parseCmdLine ["nix-find-roots"; "-l"; "/run/gc"]
  /\ parseCmdLine ("nix-find-roots" :: ["start"; "-"] ++ "--" :: ["-l"; "/run/gc"])
     = Parsed defaultOpts.
Proof.
  apply (positional_arguments_ignored "nix-find-roots" ["start"; "-"]
           ["-l"; "/run/gc"]).
  repeat constructor.
Defined.

(** ** The accept loop over time *)

Lemma run_exited fuel opts evs :
  forall d why d',
    exited d = Some why -> run fuel opts d evs = Some d' -> d' = d.
Proof.
  induction evs as [| ev evs IH]; simpl; intros d why d' Hd H.
  - congruence.
  - unfold step in H. rewrite Hd in H. eauto.
Qed.

(** As long as the daemon runs, its connections are, latest first, the
    complete responses to the connections accepted, each one the result
    of the scan made for it and closed; nothing of an earlier request, of
    an interrupted [accept] or of an ignored signal is in a later
    response, and the listening socket and the socket file stay as they
    were. *)
Theorem running_daemon_history fuel opts evs :
  forall d0 d,
    exited d0 = None ->
    run fuel opts d0 evs = Some d ->
    exited d = None ->
    connections d = flat_map (response_to fuel opts) (rev evs) ++ connections d0
    /\ Forall (fun c => closed c = true)
              (flat_map (response_to fuel opts) (rev evs))
    /\ listening d = listening d0
    /\ socket_file d = socket_file d0.
Proof.
  induction evs as [| ev evs IH]; simpl; intros d0 d Hd0 Hrun Hd.
  - inversion Hrun; subst. repeat split; trivial.
  - destruct (step fuel opts d0 ev) as [d1 |] eqn:Estep; try discriminate.
    assert (Hd1 : exited d1 = None).
    { destruct (exited d1) as [why |] eqn:E; trivial.
      rewrite (run_exited _ _ _ _ _ _ E Hrun) in Hd. congruence. }
    destruct (IH d1 d Hd1 Hrun Hd) as (Hc & Hclosed & Hl & Hs).
    assert (Hstep : connections d1 = response_to fuel opts ev ++ connections d0
                    /\ Forall (fun c => closed c = true) (response_to fuel opts ev)
                    /\ listening d1 = listening d0
                    /\ socket_file d1 = socket_file d0).
    { unfold step in Estep. rewrite Hd0 in Estep.
      destruct ev as [fs p | e | s]; simpl.
      - destruct (serve_peer p fuel fs opts) as [[tr sent | e | sent] |];
          inversion Estep; subst; simpl in *; try discriminate.
        repeat split; trivial. repeat constructor.
      - destruct (e =? EINTR); inversion Estep; subst; simpl in *;
          try discriminate. repeat split; trivial.
      - unfold deliver in Estep.
        destruct (default_action s); inversion Estep; subst; simpl in *;
          try discriminate. repeat split; trivial. }
    destruct Hstep as (Hc1 & Hclosed1 & Hl1 & Hs1).
    rewrite flat_map_app. simpl. rewrite app_nil_r, <- app_assoc, <- Hc1.
    repeat split; try congruence.
    apply Forall_app. split; trivial.
Qed.

Lemma running_daemon_history_witness :
  let evs := [ Connection (Sim.fs Sim.direct) Stays; AcceptFailed EINTR;
               Signal SIGWINCH; Connection (Sim.fs Sim.two_hops) Stays ] in
  let d0 := startup Sim.opts false 3 0 0 in
  let d := mkDaemon None true true
             [ mkConnection
                 ("/s/xyz-thing" ++ TAB ++ "/home/u/profile" ++ LF ++ LF)%string
                 true;
               mkConnection
                 ("/s/abc-hello" ++ TAB ++ "/v/gcroots/a" ++ LF ++ LF)%string
                 true ] in
  connections d = flat_map (response_to 10 Sim.opts) (rev evs) ++ connections d0
  /\ Forall (fun c => closed c = true)
            (flat_map (response_to 10 Sim.opts) (rev evs))
  /\ listening d = listening d0
  /\ socket_file d = socket_file d0.
Proof.
  cbv zeta.
  apply (running_daemon_history 10 Sim.opts).
  - reflexivity.
  - vm_compute. reflexivity.
  - reflexivity.
Defined.

(** An [accept] that fails with [EINTR] is tried again and leaves no
    trace: a run is what it would have been without those events. *)
Theorem interrupted_accept_is_retried fuel opts evs :
  forall d,
    run fuel opts d evs
    = run fuel opts d (filter (fun ev => negb (is_EINTR ev)) evs).
Proof.
  induction evs as [| ev evs IH]; simpl; intros d; trivial.
  destruct (is_EINTR ev) eqn:E; simpl.
  - destruct ev as [fs p | e | s]; try discriminate. simpl in E.
    unfold step. rewrite E. destruct (exited d); apply IH.
  - destruct (step fuel opts d ev); trivial.
Qed.
